(** * Mesh topologies of the congestion-aware analytical network backend

    A shallow embedding of [Mesh2D.cpp], [SparseMesh2D.cpp] and of the
    topology selector [construct_topology], with the properties of
    construction and routing proved about it.

    Conventions of the embedding.
    - A C++ [int] (and [DeviceId], which is an [int]) is a [Z].  Signed
      overflow is undefined behaviour in C++; every quantity the tables
      and the routes are built from is a coordinate, a device id or a
      count bounded by [width * height], so the embedding describes the
      runs in which [width * height] is representable.  Two [int]s can
      leave the range on their own: the product [width * height] that
      [calculate_valid_npu_count] forms, and the counter [link_count] of
      the link loops, which only the diagnostic output reads and which
      grows to about four times [width * height].  A statement about the
      value of either carries the hypothesis [is_int] of the exact
      value.
    - [std::vector<T>] is a [list T]; an indexed read or write outside the
      vector is undefined behaviour and is [None] in the embedding.
    - [std::set<std::pair<int,int>>] is a [gset (Z * Z)], a
      [std::map] used as a dictionary is a [gmap], and the placement map,
      whose iteration order matters, is the list of its entries in
      iteration order.
    - A failed [assert] is [None].
    - A [while] loop whose counter moves towards a bound is defined by
      well-founded recursion on the distance left.  The loops of the
      breadth-first search take fuel instead, and [None] is also their
      result when the fuel runs out; the theorems give the fuel that is
      enough.
    - [Bandwidth] and [Latency] are uniform per topology and influence
      neither the numbering, nor the link set, nor the routes; they are
      left out of the embedding.
    - Diagnostic output on [std::cerr] is left out. *)

From Stdlib Require Import ZArith Lia.
From Stdlib Require PrimFloat FloatOps SpecFloat Uint63.
From Equations Require Import Equations.
From stdpp Require Import base option numbers list sets gmap.

#[local] Open Scope Z_scope.

(** ** The base topology *)

(** [DeviceId] is a type alias of [int], [Route] a list of devices; a
    grid coordinate is a [std::pair<int, int>]. *)
Abbreviation DeviceId := Z (only parsing).
Abbreviation Route := (list Z) (only parsing).
Abbreviation Coord := (Z * Z)%type (only parsing).
Abbreviation Link := (Z * Z)%type (only parsing).

(** The values of an [int], which has 32 bits on the targets of the
    backend. *)
Definition int_min : Z := - 2 ^ 31.
Definition int_max : Z := 2 ^ 31 - 1.
Definition is_int (z : Z) : Prop := int_min ≤ z ≤ int_max.

(** Modelled from the spec: the device directory of the base topology
    ([devices] of [BasicTopology], not part of these sources).  It holds
    [devices_count] devices, the device at index [id] carries the id [id];
    a route is stored as the ids of its devices. *)
Definition device (devices_count : Z) (id : DeviceId) : option DeviceId :=
  if bool_decide (0 ≤ id < devices_count) then Some id else None.

(** Modelled from the spec: [connect(a, b, bandwidth, latency, bidirectional)]
    of the base topology, which registers the directed link [a -> b] and,
    when [bidirectional], the directed link [b -> a] as well. *)
Definition connect (a b : DeviceId) (bidirectional : bool) (links : list Link)
  : list Link :=
  if bidirectional then links ++ [(a, b); (b, a)] else links ++ [(a, b)].

(** State of a link creation loop: the link table of the base topology
    and the local counter [link_count], an [int] in the source, whose
    exact value [ls_count] is. *)
Record link_state := mk_ls { ls_links : list Link; ls_count : Z }.

(** ** Vectors and loops *)

(** [v[i]] as an rvalue. *)
Definition vec_get {A} (v : list A) (i : Z) : option A :=
  if bool_decide (0 ≤ i) then v !! Z.to_nat i else None.

(** [v[i] = a]. *)
Definition vec_set {A} (v : list A) (i : Z) (a : A) : option (list A) :=
  if bool_decide (0 ≤ i < Z.of_nat (length v))
  then Some (<[Z.to_nat i := a]> v) else None.

(** A [for] loop over the elements of [l] whose body may fail. *)
Fixpoint for_each {A S : Type} (l : list A) (body : A → S → option S) (s : S)
  : option S :=
  match l with
  | [] => Some s
  | a :: l => s' ← body a s; for_each l body s'
  end.

(** [for (int y = 0; y < height; ++y) for (int x = 0; x < width; ++x)]. *)
Definition for_grid {S : Type} (width height : Z)
    (body : Z → Z → S → option S) (s : S) : option S :=
  for_each (seqZ 0 height)
    (λ y s, for_each (seqZ 0 width) (λ x s, body x y s) s) s.

(** [static_cast<int>(std::sqrt(n))] for an [int n >= 0].  Every [int] is
    a [double], IEEE-754 [sqrt] is correctly rounded, and the root of an
    integer below [2^52] that is not a perfect square lies further from
    every integer than half a unit in the last place, so truncating the
    rounded root gives the integer square root. *)
Definition sqrt_int (n : Z) : Z := Z.sqrt n.

(** The same expression computed on binary64 numbers, to check [sqrt_int]
    against: the conversion of the [int] to [double], the square root,
    and the truncating conversion back, which is undefined on a NaN. *)
Definition double_to_int (f : PrimFloat.float) : option Z :=
  match FloatOps.Prim2SF f with
  | SpecFloat.S754_zero _ => Some 0
  | SpecFloat.S754_finite s mant e =>
      let magnitude :=
        if bool_decide (0 ≤ e) then Z.pos mant * 2 ^ e
        else Z.pos mant `div` 2 ^ (- e) in
      Some (if s then - magnitude else magnitude)
  | _ => None
  end.

Definition sqrt_double (n : Z) : option Z :=
  if bool_decide (0 ≤ n < 2 ^ 31) then
    double_to_int (PrimFloat.sqrt (PrimFloat.of_uint63 (Uint63.of_Z n)))
  else None.

(** ** Mesh2D *)

Module Mesh2D.

Record t := mk {
  width : Z;
  height : Z;
  npus_count : Z;
  links : list Link
}.

Definition get_2d_coords (width : Z) (npu_id : DeviceId) : Coord :=
  (Z.rem npu_id width, Z.quot npu_id width).

Definition coords_to_npu_id (width : Z) (x y : Z) : DeviceId :=
  y * width + x.

Definition link_body (width height : Z) (x y : Z) (s : link_state)
  : link_state :=
  let current := coords_to_npu_id width x y in
  let s :=
    if bool_decide (x + 1 < width) then
      let right := coords_to_npu_id width (x + 1) y in
      mk_ls (connect current right true (ls_links s)) (ls_count s + 2)
    else s in
  if bool_decide (y + 1 < height) then
    let bottom := coords_to_npu_id width x (y + 1) in
    mk_ls (connect current bottom true (ls_links s)) (ls_count s + 2)
  else s.

Definition create_links (width height : Z) : link_state :=
  foldl (λ s y, foldl (λ s x, link_body width height x y s) s (seqZ 0 width))
    (mk_ls [] 0) (seqZ 0 height).

(** [Mesh2D(width, height, bandwidth, latency)]. *)
Definition new (width height : Z) : option t :=
  if bool_decide (width > 0 ∧ height > 0) then
    Some (mk width height (width * height)
            (ls_links (create_links width height)))
  else None.

(** [Mesh2D(npus_count, bandwidth, latency)]. *)
Definition of_count (npus_count : Z) : option t :=
  new (sqrt_int npus_count) (sqrt_int npus_count).

(** The loop [while (x != dest_x)] of [route]; returns the final [x]
    and the route. *)
Equations? walk_x (m : t) (x dest_x y : Z) (route : Route)
  : option (Z * Route) by wf (Z.abs_nat (dest_x - x)) lt :=
  walk_x m x dest_x y route with decide (x = dest_x) => {
    | left _ := Some (x, route);
    | right _ :=
        let direction := if bool_decide (dest_x > x) then 1 else -1 in
        let x' := x + direction in
        let next_npu := coords_to_npu_id (width m) x' y in
        match device (npus_count m) next_npu with
        | Some d => walk_x m x' dest_x y (route ++ [d])
        | None => None
        end }.
Proof. subst x' direction. case_bool_decide; lia. Qed.

(** The loop [while (y != dest_y)] of [route]. *)
Equations? walk_y (m : t) (x y dest_y : Z) (route : Route)
  : option (Z * Route) by wf (Z.abs_nat (dest_y - y)) lt :=
  walk_y m x y dest_y route with decide (y = dest_y) => {
    | left _ := Some (y, route);
    | right _ :=
        let direction := if bool_decide (dest_y > y) then 1 else -1 in
        let y' := y + direction in
        let next_npu := coords_to_npu_id (width m) x y' in
        match device (npus_count m) next_npu with
        | Some d => walk_y m x y' dest_y (route ++ [d])
        | None => None
        end }.
Proof. subst y' direction. case_bool_decide; lia. Qed.

Definition route (m : t) (src dest : DeviceId) : option Route :=
  if bool_decide (0 ≤ src < npus_count m ∧ 0 ≤ dest < npus_count m) then
    if bool_decide (src = dest) then
      d ← device (npus_count m) src; Some [d]
    else
      let '(src_x, src_y) := get_2d_coords (width m) src in
      let '(dest_x, dest_y) := get_2d_coords (width m) dest in
      d ← device (npus_count m) src;
      '(x, route) ← walk_x m src_x dest_x src_y [d];
      '(y, route) ← walk_y m x src_y dest_y route;
      Some route
  else None.

Definition manhattan_distance (m : t) (src dest : DeviceId) : Z :=
  let '(src_x, src_y) := get_2d_coords (width m) src in
  let '(dest_x, dest_y) := get_2d_coords (width m) dest in
  let dx := Z.abs (dest_x - src_x) in
  let dy := Z.abs (dest_y - src_y) in
  dx + dy.

Definition are_neighbors (m : t) (src dest : DeviceId) : bool :=
  bool_decide (manhattan_distance m src dest = 1).

End Mesh2D.

(** ** SparseMesh2D *)

Module SparseMesh2D.

Record t := mk {
  width : Z;
  height : Z;
  valid_npu_count : Z;
  excluded : gset Coord;
  grid_to_npu : list Z;
  npu_to_grid : list Coord;
  npus_count : Z;  (* [npus_count] and [devices_count] of the base *)
  links : list Link
}.

(** The loop visits the set in increasing order; the count it computes
    does not depend on the order, and [set_fold] fixes none.  The result
    is the exact value of the [int] that the source returns when
    [width * height] is an [int]. *)
Definition calculate_valid_npu_count (width height : Z)
    (excluded : gset Coord) : Z :=
  let total_positions := width * height in
  let excluded_count :=
    set_fold (λ '((x, y) : Coord) (excluded_count : Z),
                if bool_decide (x >= 0 ∧ x < width ∧ y >= 0 ∧ y < height)
                then excluded_count + 1 else excluded_count)
             0 excluded in
  total_positions - excluded_count.

Definition coords_to_grid_index (width : Z) (x y : Z) : Z := y * width + x.

Definition are_adjacent (x1 y1 x2 y2 : Z) : bool :=
  bool_decide (Z.abs (x1 - x2) + Z.abs (y1 - y2) = 1).

(** [get_npu_at] on the tables under construction. *)
Definition npu_at (width height : Z) (grid : list Z) (x y : Z) : option Z :=
  if bool_decide (x < 0 ∨ x >= width ∨ y < 0 ∨ y >= height) then Some (-1)
  else vec_get grid (coords_to_grid_index width x y).

(** *** Automatic numbering *)

Record scan_state := mk_sc {
  sc_grid : list Z; sc_rev : list Coord; sc_count : Z
}.

Definition number_body (width : Z) (excluded : gset Coord) (x y : Z)
    (s : scan_state) : option scan_state :=
  if bool_decide ((x, y) ∉ excluded) then
    let grid_idx := coords_to_grid_index width x y in
    g ← vec_set (sc_grid s) grid_idx (sc_count s);
    Some (mk_sc g (sc_rev s ++ [(x, y)]) (sc_count s + 1))
  else Some s.

(** *** Link creation, shared by both constructors *)

Definition link_body (width height : Z) (grid : list Z) (x y : Z)
    (s : link_state) : option link_state :=
  current_npu ← npu_at width height grid x y;
  if bool_decide (current_npu < 0) then Some s
  else
    s ← (if bool_decide (x + 1 < width) then
           right_npu ← npu_at width height grid (x + 1) y;
           if bool_decide (right_npu >= 0) then
             Some (mk_ls (connect current_npu right_npu true (ls_links s))
                         (ls_count s + 2))
           else Some s
         else Some s);
    if bool_decide (y + 1 < height) then
      bottom_npu ← npu_at width height grid x (y + 1);
      if bool_decide (bottom_npu >= 0) then
        Some (mk_ls (connect current_npu bottom_npu true (ls_links s))
                    (ls_count s + 2))
      else Some s
    else Some s.

Definition create_links (width height : Z) (grid : list Z)
  : option link_state :=
  for_grid width height (link_body width height grid) (mk_ls [] 0).

(** [SparseMesh2D(width, height, excluded_coords, bandwidth, latency)]. *)
Definition new (width height : Z) (excluded_coords : gset Coord)
  : option t :=
  if bool_decide (width > 0 ∧ height > 0) then
    let npus := calculate_valid_npu_count width height excluded_coords in
    let grid := replicate (Z.to_nat (width * height)) (-1) in
    sc ← for_grid width height (number_body width excluded_coords)
           (mk_sc grid [] 0);
    ls ← create_links width height (sc_grid sc);
    Some (mk width height (sc_count sc) excluded_coords
             (sc_grid sc) (sc_rev sc) npus (ls_links ls))
  else None.

(** *** Custom placement *)

Record place_state := mk_pl {
  pl_grid : list Z; pl_rev : list Coord; pl_used : gset Z
}.

Definition place_body (width height : Z) (excluded : gset Coord)
    (valid_npu_count : Z) (entry : Coord * Z) (s : place_state)
  : option place_state :=
  let '((x, y), npu_id) := entry in
  if bool_decide (x < 0 ∨ x >= width ∨ y < 0 ∨ y >= height) then Some s
  else if bool_decide ((x, y) ∈ excluded) then Some s
  else if bool_decide (npu_id < 0 ∨ npu_id >= valid_npu_count) then Some s
  else if bool_decide (npu_id ∈ pl_used s) then Some s
  else
    let grid_idx := coords_to_grid_index width x y in
    g ← vec_set (pl_grid s) grid_idx npu_id;
    r ← vec_set (pl_rev s) npu_id (x, y);
    Some (mk_pl g r ({[npu_id]} ∪ pl_used s)).

(** [while (used_npu_ids.count(next_auto_id)) next_auto_id++]. *)
Equations? next_unused (used : gset Z) (next_auto_id : Z) : Z
  by wf (size (filter (λ i, next_auto_id ≤ i) used)) lt :=
  next_unused used next_auto_id with decide (next_auto_id ∈ used) => {
    | left _ := next_unused used (next_auto_id + 1);
    | right _ := next_auto_id }.
Proof.
  apply subset_size, elem_of_subset. split.
  - intros i. rewrite !elem_of_filter. intros [? ?]. split; [lia|done].
  - intros Hsub. specialize (Hsub next_auto_id).
    rewrite !elem_of_filter in Hsub. destruct Hsub; [split; [lia|done]|lia].
Qed.

Record fill_state := mk_fl {
  fl_grid : list Z; fl_rev : list Coord; fl_used : gset Z; fl_next : Z
}.

Definition fill_body (width : Z) (excluded : gset Coord) (x y : Z)
    (s : fill_state) : option fill_state :=
  if bool_decide ((x, y) ∉ excluded) then
    let grid_idx := coords_to_grid_index width x y in
    current ← vec_get (fl_grid s) grid_idx;
    if bool_decide (current < 0) then
      let next_auto_id := next_unused (fl_used s) (fl_next s) in
      g ← vec_set (fl_grid s) grid_idx next_auto_id;
      r ← vec_set (fl_rev s) next_auto_id (x, y);
      Some (mk_fl g r ({[next_auto_id]} ∪ fl_used s) (next_auto_id + 1))
    else Some s
  else Some s.

(** [SparseMesh2D(width, height, excluded_coords, npu_placement,
    bandwidth, latency)]; [npu_placement] lists the entries of the
    [std::map] in iteration order. *)
Definition new_placed (width height : Z) (excluded_coords : gset Coord)
    (npu_placement : list (Coord * Z)) : option t :=
  if bool_decide (width > 0 ∧ height > 0) then
    let npus := calculate_valid_npu_count width height excluded_coords in
    let expected_count :=
      calculate_valid_npu_count width height excluded_coords in
    let valid_npu_count := expected_count in
    let grid := replicate (Z.to_nat (width * height)) (-1) in
    let rev := replicate (Z.to_nat valid_npu_count) (0, 0) in
    pl ← for_each npu_placement
           (place_body width height excluded_coords valid_npu_count)
           (mk_pl grid rev ∅);
    let fl0 := mk_fl (pl_grid pl) (pl_rev pl) (pl_used pl) 0 in
    fl ← (if bool_decide (Z.of_nat (size (pl_used pl)) ≠ valid_npu_count)
          then for_grid width height (fill_body width excluded_coords) fl0
          else Some fl0);
    ls ← create_links width height (fl_grid fl);
    Some (mk width height valid_npu_count excluded_coords
             (fl_grid fl) (fl_rev fl) npus (ls_links ls))
  else None.

(** *** Queries *)

Definition is_valid_position (m : t) (x y : Z) : bool :=
  if bool_decide (x < 0 ∨ x >= width m ∨ y < 0 ∨ y >= height m) then false
  else bool_decide ((x, y) ∉ excluded m).

Definition get_npu_at (m : t) (x y : Z) : option Z :=
  npu_at (width m) (height m) (grid_to_npu m) x y.

Definition get_coords (m : t) (npu_id : DeviceId) : option Coord :=
  if bool_decide (npu_id >= 0 ∧ npu_id < valid_npu_count m)
  then vec_get (npu_to_grid m) npu_id else None.

Definition get_valid_neighbors (m : t) (x y : Z) : list Coord :=
  let dx := [1; -1; 0; 0] in
  let dy := [0; 0; 1; -1] in
  foldl (λ neighbors '(dxi, dyi),
           let nx := x + dxi in
           let ny := y + dyi in
           if is_valid_position m nx ny then neighbors ++ [(nx, ny)]
           else neighbors)
        [] (zip dx dy).

(** *** Breadth-first routing *)

Record bfs_state := mk_bfs {
  bfs_q : list Coord;
  bfs_parent : gmap Coord Coord;
  bfs_visited : gset Coord
}.

(** Body of the loop over the neighbours of [c]. *)
Definition bfs_visit (c : Coord) (s : bfs_state) (n : Coord) : bfs_state :=
  if bool_decide (n ∉ bfs_visited s) then
    mk_bfs (bfs_q s ++ [n]) (<[n := c]> (bfs_parent s))
           ({[n]} ∪ bfs_visited s)
  else s.

(** [parent[current]]: [operator[]] of [std::map] inserts a
    value-initialised entry for an absent key. *)
Definition map_index (parent : gmap Coord Coord) (k : Coord)
  : Coord * gmap Coord Coord :=
  match parent !! k with
  | Some v => (v, parent)
  | None => ((0, 0), <[k := (0, 0)]> parent)
  end.

(** [while (current.first != -1)] of the path reconstruction; [None]
    when the fuel is used up. *)
Fixpoint bfs_path (fuel : nat) (parent : gmap Coord Coord)
    (current : Coord) (path : list Coord) : option (list Coord) :=
  match fuel with
  | O => None
  | S fuel =>
      if bool_decide (current.1 ≠ -1) then
        let '(next, parent) := map_index parent current in
        bfs_path fuel parent next (path ++ [current])
      else Some path
  end.

(** [while (!q.empty())] of [bfs_route], with what follows it; [None]
    when the fuel is used up or the behaviour is undefined. *)
Fixpoint bfs_loop (fuel pfuel : nat) (m : t) (src : DeviceId)
    (dest_x dest_y : Z) (s : bfs_state) : option Route :=
  match fuel with
  | O => None
  | S fuel =>
      match bfs_q s with
      | [] => d ← device (npus_count m) src; Some [d]
      | (cx, cy) :: q =>
          if bool_decide (cx = dest_x ∧ cy = dest_y) then
            path ← bfs_path pfuel (bfs_parent s) (dest_x, dest_y) [];
            for_each (reverse path)
              (λ '(px, py) route,
                 npu_id ← get_npu_at m px py;
                 d ← device (npus_count m) npu_id;
                 Some (route ++ [d]))
              []
          else
            bfs_loop fuel pfuel m src dest_x dest_y
              (foldl (bfs_visit (cx, cy))
                     (mk_bfs q (bfs_parent s) (bfs_visited s))
                     (get_valid_neighbors m cx cy))
      end
  end.

Definition bfs_route (fuel : nat) (m : t) (src dest : DeviceId)
  : option Route :=
  '(src_x, src_y) ← get_coords m src;
  '(dest_x, dest_y) ← get_coords m dest;
  bfs_loop fuel fuel m src dest_x dest_y
    (mk_bfs [(src_x, src_y)] {[ (src_x, src_y) := (-1, -1) ]}
            {[ (src_x, src_y) ]}).

(** [route]; after the search it reads the coordinates of every device
    of the route for the trace, through [get_coords] and its
    assertion. *)
Definition route (fuel : nat) (m : t) (src dest : DeviceId)
  : option Route :=
  if bool_decide (0 ≤ src < valid_npu_count m
                  ∧ 0 ≤ dest < valid_npu_count m) then
    if bool_decide (src = dest) then
      d ← device (npus_count m) src; Some [d]
    else
      _ ← get_coords m src;
      _ ← get_coords m dest;
      route ← bfs_route fuel m src dest;
      _ ← for_each route (λ npu_id u, _ ← get_coords m npu_id; Some u) tt;
      Some route
  else None.

End SparseMesh2D.

(** ** The topology selector *)

Module TopologyBuildingBlock.
Inductive t :=
  Undefined | Ring | FullyConnected | Switch | Mesh2D | SparseMesh2D.
End TopologyBuildingBlock.

Module Helper.

(** What [construct_topology] reads from the [NetworkParser]. *)
Record NetworkParser := mk_parser {
  get_dims_count : Z;
  get_topologies_per_dim : list TopologyBuildingBlock.t;
  get_npus_counts_per_dim : list Z;
  get_mesh_width : Z;
  get_mesh_height : Z;
  get_excluded_coords : gset Coord;
  get_npu_placement : list (Coord * Z)
}.

(** The topology an invocation builds.  [Ring], [Switch] and
    [FullyConnected] belong to other sources; only the argument they
    are built from is recorded. *)
Inductive Topology :=
| RingTopology (npus_count : Z)
| SwitchTopology (npus_count : Z)
| FullyConnectedTopology (npus_count : Z)
| Mesh2DTopology (m : Mesh2D.t)
| SparseMesh2DTopology (m : SparseMesh2D.t).

Inductive outcome :=
| Returns (topology : Topology)
| Exits (status : Z)        (* [std::exit(status)] *)
| Aborts.                   (* failed assertion, undefined behaviour *)

Definition built {A} (wrap : A → Topology) (o : option A) : outcome :=
  match o with
  | Some a => Returns (wrap a)
  | None => Aborts
  end.

Definition construct_topology (network_parser : NetworkParser) : outcome :=
  let dims_count := get_dims_count network_parser in
  let topologies_per_dim := get_topologies_per_dim network_parser in
  let npus_counts_per_dim := get_npus_counts_per_dim network_parser in
  if bool_decide (dims_count ≠ 1) then Exits (-1)
  else
    match vec_get topologies_per_dim 0, vec_get npus_counts_per_dim 0 with
    | Some topology_type, Some npus_count =>
        let mesh_width := get_mesh_width network_parser in
        let mesh_height := get_mesh_height network_parser in
        let excluded_coords := get_excluded_coords network_parser in
        let npu_placement := get_npu_placement network_parser in
        match topology_type with
        | TopologyBuildingBlock.Ring => Returns (RingTopology npus_count)
        | TopologyBuildingBlock.Switch => Returns (SwitchTopology npus_count)
        | TopologyBuildingBlock.FullyConnected =>
            Returns (FullyConnectedTopology npus_count)
        | TopologyBuildingBlock.Mesh2D =>
            if bool_decide (mesh_width > 0 ∧ mesh_height > 0) then
              built Mesh2DTopology (Mesh2D.new mesh_width mesh_height)
            else
              built Mesh2DTopology (Mesh2D.of_count npus_count)
        | TopologyBuildingBlock.SparseMesh2D =>
            if bool_decide (mesh_width > 0 ∧ mesh_height > 0) then
              if bool_decide (npu_placement ≠ []) then
                built SparseMesh2DTopology
                  (SparseMesh2D.new_placed mesh_width mesh_height
                     excluded_coords npu_placement)
              else
                built SparseMesh2DTopology
                  (SparseMesh2D.new mesh_width mesh_height excluded_coords)
            else Exits (-1)
        | _ => Exits (-1)
        end
    | _, _ => Aborts
    end.

End Helper.

(** ** Vocabulary of the specification *)

(** Positions of the grid in row-major scan order. *)
Definition grid_cells (width height : Z) : list Coord :=
  y ← seqZ 0 height; x ← seqZ 0 width; [(x, y)].

(** The in-bounds, non-excluded positions. *)
Definition valid_pos (width height : Z) (excluded : gset Coord) (c : Coord)
  : Prop :=
  0 ≤ c.1 < width ∧ 0 ≤ c.2 < height ∧ c ∉ excluded.

Definition in_grid (width height : Z) (c : Coord) : Prop :=
  0 ≤ c.1 < width ∧ 0 ≤ c.2 < height.

(** The valid positions in row-major scan order. *)
Definition valid_cells (width height : Z) (excluded : gset Coord)
  : list Coord :=
  filter (λ c, c ∉ excluded) (grid_cells width height).

(** Grid positions at Manhattan distance one. *)
Definition adjacent (a b : Coord) : Prop :=
  Z.abs (a.1 - b.1) + Z.abs (a.2 - b.2) = 1.

(** The directed links that the link creation loop of [Mesh2D] adds at
    position [(x, y)]. *)
Definition link_pairs (W H : Z) (x y : Z) : list Link :=
  (if bool_decide (x + 1 < W) then
     [(Mesh2D.coords_to_npu_id W x y, Mesh2D.coords_to_npu_id W (x + 1) y);
      (Mesh2D.coords_to_npu_id W (x + 1) y, Mesh2D.coords_to_npu_id W x y)]
   else [])
  ++ (if bool_decide (y + 1 < H) then
        [(Mesh2D.coords_to_npu_id W x y, Mesh2D.coords_to_npu_id W x (y + 1));
         (Mesh2D.coords_to_npu_id W x (y + 1), Mesh2D.coords_to_npu_id W x y)]
      else []).

(** The values a counter takes when it moves from [a] to [b] by steps of
    one towards [b]; [a] itself is left out. *)
Definition steps (a b : Z) : list Z :=
  if bool_decide (a ≤ b) then seqZ (a + 1) (b - a)
  else reverse (seqZ b (a - b)).

Module Sparse.
Import SparseMesh2D.

Definition valid (m : t) (c : Coord) : Prop :=
  valid_pos (width m) (height m) (excluded m) c.

(** [walk m a b n]: the induced grid graph of [m] has a walk of [n]
    hops from [a] to [b]. *)
Inductive walk (m : t) (a : Coord) : Coord → nat → Prop :=
| walk_refl : valid m a → walk m a a 0
| walk_hop b c n :
    walk m a b n → valid m c → adjacent b c → walk m a c (S n).

(** [a] and [b] lie in the same connected component. *)
Definition connected (m : t) (a b : Coord) : Prop := ∃ n, walk m a b n.

(** [d] is the shortest-hop distance from [a] to [b]. *)
Definition distance (m : t) (a b : Coord) (d : nat) : Prop :=
  walk m a b d ∧ ∀ n, walk m a b n → (d ≤ n)%nat.

(** A list of positions that follows edges of the induced graph. *)
Inductive path (m : t) : list Coord → Prop :=
| path_one a : valid m a → path m [a]
| path_cons a b p : valid m a → adjacent a b → path m (b :: p) →
                    path m (a :: b :: p).

(** The forward and the reverse table are mutual inverses between the
    valid positions and the ids below [valid_npu_count]. *)
Record bijection (m : t) : Prop := mk_bijection {
  bij_forward : ∀ x y, valid m (x, y) →
    ∃ id, 0 ≤ id < valid_npu_count m
          ∧ get_npu_at m x y = Some id ∧ get_coords m id = Some (x, y);
  bij_backward : ∀ id, 0 ≤ id < valid_npu_count m →
    ∃ x y, valid m (x, y)
           ∧ get_coords m id = Some (x, y) ∧ get_npu_at m x y = Some id;
  bij_absent : ∀ x y, in_grid (width m) (height m) (x, y) →
    (x, y) ∈ excluded m → get_npu_at m x y = Some (-1)
}.

(** A mesh that one of the two constructors returned; the entries of
    a placement map have pairwise distinct keys. *)
Definition constructed (m : t) : Prop :=
  (∃ width height excluded, new width height excluded = Some m)
  ∨ (∃ width height excluded placement,
       NoDup placement.*1
       ∧ new_placed width height excluded placement = Some m).

End Sparse.

(** ** Invariants of the constructors *)

(** The entry of the forward table at position [c]: the sentinel when [c]
    has no id yet, otherwise an id that the reverse table maps back to
    [c]. *)
Definition grid_entry (W : Z) (grid : list Z) (rev : list Coord) (c : Coord)
  : Prop :=
  ∃ v, vec_get grid (SparseMesh2D.coords_to_grid_index W c.1 c.2) = Some v
       ∧ ((v = -1 ∧ c ∉ rev) ∨ vec_get rev v = Some c).

(** Invariant of the numbering scan when the positions [pre] are done. *)
Definition scan_inv (W H : Z) (E : gset Coord) (pre : list Coord)
    (s : SparseMesh2D.scan_state) : Prop :=
  length (SparseMesh2D.sc_grid s) = Z.to_nat (W * H)
  ∧ SparseMesh2D.sc_rev s = filter (λ c, c ∉ E) pre
  ∧ SparseMesh2D.sc_count s = Z.of_nat (length (SparseMesh2D.sc_rev s))
  ∧ ∀ c, in_grid W H c →
         grid_entry W (SparseMesh2D.sc_grid s) (SparseMesh2D.sc_rev s) c.

(** What the tables of a constructed mesh satisfy. *)
Definition tables_ok (m : SparseMesh2D.t) : Prop :=
  0 < SparseMesh2D.width m ∧ 0 < SparseMesh2D.height m
  ∧ length (SparseMesh2D.grid_to_npu m)
    = Z.to_nat (SparseMesh2D.width m * SparseMesh2D.height m)
  ∧ Z.of_nat (length (SparseMesh2D.npu_to_grid m))
    = SparseMesh2D.valid_npu_count m
  ∧ SparseMesh2D.npus_count m = SparseMesh2D.valid_npu_count m
  ∧ NoDup (SparseMesh2D.npu_to_grid m)
  ∧ (∀ c, c ∈ SparseMesh2D.npu_to_grid m ↔ Sparse.valid m c)
  ∧ ∀ c, in_grid (SparseMesh2D.width m) (SparseMesh2D.height m) c →
         grid_entry (SparseMesh2D.width m) (SparseMesh2D.grid_to_npu m)
           (SparseMesh2D.npu_to_grid m) c.

(** Invariant of the custom placement, shared by the pass over the
    placement entries and by the backfill: the ids of [used] are below
    [vc], and the two tables agree on them. *)
Definition assign_inv (W H : Z) (E : gset Coord) (vc : Z)
    (grid : list Z) (rev : list Coord) (used : gset Z) : Prop :=
  length grid = Z.to_nat (W * H)
  ∧ Z.of_nat (length rev) = vc
  ∧ (∀ id, id ∈ used → 0 ≤ id < vc)
  ∧ (∀ c, in_grid W H c →
       ∃ v, vec_get grid (SparseMesh2D.coords_to_grid_index W c.1 c.2) = Some v
            ∧ (v = -1
               ∨ (v ∈ used ∧ vec_get rev v = Some c ∧ valid_pos W H E c)))
  ∧ (∀ id, id ∈ used →
       ∃ c, valid_pos W H E c ∧ vec_get rev id = Some c
            ∧ vec_get grid (SparseMesh2D.coords_to_grid_index W c.1 c.2)
              = Some id).

(** A position of the grid without an id. *)
Definition unassigned (W : Z) (grid : list Z) (c : Coord) : Prop :=
  vec_get grid (SparseMesh2D.coords_to_grid_index W c.1 c.2) = Some (-1).

(** Invariant of the pass over the placement entries [pre]: a position
    that is the key of no entry so far has no id. *)
Definition place_inv (W H : Z) (E : gset Coord) (vc : Z)
    (pre : list (Coord * Z)) (s : SparseMesh2D.place_state) : Prop :=
  assign_inv W H E vc (SparseMesh2D.pl_grid s) (SparseMesh2D.pl_rev s)
    (SparseMesh2D.pl_used s)
  ∧ ∀ c, in_grid W H c → c ∉ pre.*1 →
         unassigned W (SparseMesh2D.pl_grid s) c.

(** Invariant of the backfill when the positions [pre] are done: the
    valid ones among them have an id, and every id below [next_auto_id]
    is in use. *)
Definition fill_inv (W H : Z) (E : gset Coord) (vc : Z)
    (pre : list Coord) (s : SparseMesh2D.fill_state) : Prop :=
  assign_inv W H E vc (SparseMesh2D.fl_grid s) (SparseMesh2D.fl_rev s)
    (SparseMesh2D.fl_used s)
  ∧ (∀ c, c ∈ pre → valid_pos W H E c →
          ¬ unassigned W (SparseMesh2D.fl_grid s) c)
  ∧ (∀ i, 0 ≤ i < SparseMesh2D.fl_next s → i ∈ SparseMesh2D.fl_used s).

(** The backfill over an empty placement against the numbering scan:
    after the same positions, the forward tables agree, the ids in use
    are those below the scan counter, and the reverse table of the
    backfill is that of the scan followed by the entries not yet
    written. *)
Definition fill_scan_inv (W H : Z) (E : gset Coord) (vc : Z)
    (pre : list Coord) (f : SparseMesh2D.fill_state) : Prop :=
  ∃ s,
    for_each pre (λ c s, SparseMesh2D.number_body W E c.1 c.2 s)
      (SparseMesh2D.mk_sc (replicate (Z.to_nat (W * H)) (-1)) [] 0) = Some s
    ∧ scan_inv W H E pre s
    ∧ SparseMesh2D.fl_grid f = SparseMesh2D.sc_grid s
    ∧ SparseMesh2D.fl_next f = SparseMesh2D.sc_count s
    ∧ SparseMesh2D.fl_used f = list_to_set (seqZ 0 (SparseMesh2D.sc_count s))
    ∧ SparseMesh2D.fl_rev f
      = SparseMesh2D.sc_rev s
        ++ replicate (Z.to_nat (vc - SparseMesh2D.sc_count s)) (0, 0).

(** ** Invariant of the breadth-first search *)

(** The queue holds positions of depth [k] followed by positions of depth
    [k + 1]. *)
Definition q_levels (D : gmap Coord nat) (k : nat) (q : list Coord) : Prop :=
  ∃ q1 q2, q = q1 ++ q2
           ∧ (∀ u, u ∈ q1 → D !! u = Some k)
           ∧ (∀ u, u ∈ q2 → D !! u = Some (S k)).

(** [D] records the depth at which each position was discovered.  [P u n]
    marks the neighbours [n] of a dequeued position [u] that the loop
    over its neighbours has yet to look at. *)
Record bfs_inv (m : SparseMesh2D.t) (src dest : Coord)
    (D : gmap Coord nat) (k : nat) (P : Coord → Coord → Prop)
    (s : SparseMesh2D.bfs_state) : Prop := mk_bfs_inv {
  inv_dom : ∀ c, c ∈ SparseMesh2D.bfs_visited s ↔ is_Some (D !! c);
  inv_src : D !! src = Some 0%nat
            ∧ SparseMesh2D.bfs_parent s !! src = Some (-1, -1);
  inv_parent : ∀ c d, D !! c = Some d → c ≠ src →
    ∃ p d', SparseMesh2D.bfs_parent s !! c = Some p
            ∧ D !! p = Some d' ∧ d = S d' ∧ adjacent p c;
  inv_walk : ∀ c d, D !! c = Some d → Sparse.walk m src c d;
  inv_queue : q_levels D k (SparseMesh2D.bfs_q s);
  inv_closed : ∀ u n,
    u ∈ SparseMesh2D.bfs_visited s → u ∉ SparseMesh2D.bfs_q s →
    Sparse.valid m n → adjacent u n →
    n ∈ SparseMesh2D.bfs_visited s ∨ P u n;
  inv_edge : ∀ u w du dw,
    D !! u = Some du → D !! w = Some dw → adjacent u w → (dw ≤ S du)%nat;
  inv_dest : dest ∈ SparseMesh2D.bfs_visited s →
             dest ∈ SparseMesh2D.bfs_q s;
  inv_depth : ∀ c d, D !! c = Some d →
                     (d < size (SparseMesh2D.bfs_visited s))%nat
}.

(** The route [r] lists the ids of a shortest path from [cs] to [cd]. *)
Definition bfs_found (m : SparseMesh2D.t) (cs cd : Coord) (r : list Z)
  : Prop :=
  ∃ path,
    Forall2 (λ id c, 0 ≤ id < SparseMesh2D.valid_npu_count m
                     ∧ SparseMesh2D.get_npu_at m c.1 c.2 = Some id
                     ∧ SparseMesh2D.get_coords m id = Some c) r path
    ∧ head path = Some cs ∧ last path = Some cd
    ∧ Sparse.path m path
    ∧ Sparse.distance m cs cd (length path - 1).

(** [consecutive R l]: each element of [l] is related to the next. *)
Fixpoint consecutive {A} (R : A → A → Prop) (l : list A) : Prop :=
  match l with
  | a :: (b :: _) as l' => R a b ∧ consecutive R l'
  | _ => True
  end.

(** The four positions next to [(x, y)], in the order in which
    [get_valid_neighbors] looks at them. *)
Definition candidates (x y : Z) : list Coord :=
  [(x + 1, y); (x - 1, y); (x, y + 1); (x, y - 1)].

(** The id stored for a position, [-1] outside the grid. *)
Definition id_at (W H : Z) (grid : list Z) (x y : Z) : Z :=
  default (-1) (SparseMesh2D.npu_at W H grid x y).

(** The links that the body of the sparse link loop adds at [(x, y)]. *)
Definition sparse_link_pairs (W H : Z) (grid : list Z) (x y : Z)
  : list Link :=
  if bool_decide (id_at W H grid x y < 0) then []
  else
    (if bool_decide (x + 1 < W ∧ id_at W H grid (x + 1) y >= 0) then
       [(id_at W H grid x y, id_at W H grid (x + 1) y);
        (id_at W H grid (x + 1) y, id_at W H grid x y)]
     else [])
    ++ (if bool_decide (y + 1 < H ∧ id_at W H grid x (y + 1) >= 0) then
          [(id_at W H grid x y, id_at W H grid x (y + 1));
           (id_at W H grid x (y + 1), id_at W H grid x y)]
        else []).

(** The two tables hold [id] for the position [c]. *)
Definition assigned (W : Z) (grid : list Z) (rev : list Coord) (c : Coord)
    (id : Z) : Prop :=
  vec_get grid (SparseMesh2D.coords_to_grid_index W c.1 c.2) = Some id
  ∧ vec_get rev id = Some c.

(** ** Example inputs *)

(** A request for a 5 x 3 dense mesh next to a flat count of 16. *)
Definition parser_5x3 : Helper.NetworkParser :=
  Helper.mk_parser 1 [TopologyBuildingBlock.Mesh2D] [16] 5 3 ∅ [].

(** The exclusion set of the example in [SparseMesh2D.h]: a 6 x 4 grid
    whose lower left corner is cut out in the shape of a staircase. *)
Definition excluded_6x4 : gset Coord :=
  {[ (0, 1); (1, 1); (0, 2); (1, 2); (0, 3); (1, 3); (2, 3); (3, 3) ]}.

(** A placement with a duplicate id, an id out of range, an excluded
    position and a position outside the grid. *)
Definition placement_6x4 : list (Coord * Z) :=
  [((0, 0), 3); ((1, 0), 3); ((2, 0), 99); ((0, 1), 2); ((7, 0), 1);
   ((5, 3), 0)].

(** The meshes of these inputs; [no_mesh] stands for a constructor that
    did not return. *)
Definition no_mesh : SparseMesh2D.t :=
  SparseMesh2D.mk 0 0 0 ∅ [] [] 0 [].

Definition mesh_6x4 : SparseMesh2D.t :=
  default no_mesh (SparseMesh2D.new 6 4 excluded_6x4).

Definition mesh_6x4_placed : SparseMesh2D.t :=
  default no_mesh (SparseMesh2D.new_placed 6 4 excluded_6x4 placement_6x4).

(** A request for the sparse mesh of these inputs, next to a flat count
    of 64. *)
Definition parser_sparse_6x4 : Helper.NetworkParser :=
  Helper.mk_parser 1 [TopologyBuildingBlock.SparseMesh2D] [64] 6 4
    excluded_6x4 placement_6x4.

(** Two islands: a 5 x 1 grid whose middle position is excluded. *)
Definition mesh_islands : SparseMesh2D.t :=
  default no_mesh (SparseMesh2D.new 5 1 {[ (2, 0) ]}).

(* ================================================================== *)
(** * Properties *)

(** ** Sanity checks of the embedding *)

Example mesh_4x3_route :
  (m ← Mesh2D.new 4 3; Mesh2D.route m 0 11) = Some [0; 1; 2; 3; 7; 11].
Proof. vm_compute. reflexivity. Qed.

Example mesh_4x3_links :
  (length ∘ Mesh2D.links) <$> Mesh2D.new 4 3 = Some 34%nat.
Proof. vm_compute. reflexivity. Qed.

(** The integer square root is what the double-precision computation
    gives, at the counts of the specification and at the largest square
    below [2^31]. *)
Example sqrt_int_is_sqrt_double :
  Forall (λ n, sqrt_double n = Some (sqrt_int n))
    [1; 2; 3; 4; 15; 16; 17; 24; 25; 26; 2147395599; 2147395600;
     2147483647].
Proof. repeat constructor. Qed.

(** ** Generic facts *)

Lemma device_Some n id : 0 ≤ id < n → device n id = Some id.
Proof. intros. unfold device. by rewrite bool_decide_true. Qed.

Lemma device_inv n id d : device n id = Some d → d = id ∧ 0 ≤ id < n.
Proof. unfold device. case_bool_decide; [by intros [= <-]|done]. Qed.

Lemma steps_same a : steps a a = [].
Proof. unfold steps. rewrite bool_decide_true by lia. by rewrite seqZ_nil by lia. Qed.

Lemma steps_up a b : a < b → steps a b = (a + 1) :: steps (a + 1) b.
Proof.
  intros. unfold steps. rewrite !bool_decide_true by lia.
  rewrite seqZ_cons by lia. do 2 f_equal; lia.
Qed.

Lemma steps_down a b : b < a → steps a b = (a - 1) :: steps (a - 1) b.
Proof.
  intros. unfold steps. rewrite bool_decide_false by lia.
  replace (a - b) with ((a - 1 - b) + 1) by lia.
  rewrite seqZ_app by lia. rewrite reverse_app. simpl.
  replace (b + (a - 1 - b)) with (a - 1) by lia.
  case_bool_decide.
  - assert (a - 1 = b) as -> by lia. by rewrite Z.sub_diag, !seqZ_nil by lia.
  - done.
Qed.

Lemma elem_of_steps a b k :
  k ∈ steps a b ↔ (a < k ≤ b) ∨ (b ≤ k < a).
Proof.
  unfold steps. case_bool_decide.
  - rewrite elem_of_seqZ. lia.
  - rewrite elem_of_reverse, elem_of_seqZ. lia.
Qed.

Lemma NoDup_steps a b : NoDup (steps a b).
Proof.
  unfold steps. case_bool_decide; [|rewrite reverse_Permutation];
    apply NoDup_seqZ.
Qed.

Lemma length_steps a b : Z.of_nat (length (steps a b)) = Z.abs (b - a).
Proof.
  unfold steps. case_bool_decide.
  - rewrite length_seqZ. lia.
  - rewrite length_reverse, length_seqZ. lia.
Qed.

Lemma last_steps a b : a ≠ b → last (steps a b) = Some b.
Proof.
  intros. unfold steps. case_bool_decide.
  - replace (b - a) with ((b - a - 1) + 1) by lia.
    rewrite seqZ_app by lia.
    rewrite (seqZ_cons _ 1), (seqZ_nil _ (Z.pred 1)) by lia.
    rewrite last_snoc. f_equal. lia.
  - rewrite seqZ_cons by lia. rewrite reverse_cons, last_snoc. done.
Qed.

(** ** Mesh2D: XY routing *)

Section mesh2d_route.
Import Mesh2D.
Context (W H : Z) (m : t).
Hypothesis HW : 0 < W.
Hypothesis HH : 0 < H.
Hypothesis Hwidth : width m = W.
Hypothesis Hcount : npus_count m = W * H.

Lemma coords_id_range x y :
  0 ≤ x < W → 0 ≤ y < H → 0 ≤ coords_to_npu_id W x y < W * H.
Proof.
  intros. unfold coords_to_npu_id.
  assert (0 ≤ y * W ≤ (H - 1) * W) by nia. lia.
Qed.

Lemma coords_id_inj x y x' y' :
  0 ≤ x < W → 0 ≤ x' < W →
  coords_to_npu_id W x y = coords_to_npu_id W x' y' → x = x' ∧ y = y'.
Proof.
  unfold coords_to_npu_id. intros ? ? Heq.
  assert (y = y') as -> by nia. lia.
Qed.

Lemma get_2d_coords_range id :
  0 ≤ id < W * H →
  get_2d_coords W id = (id `mod` W, id `div` W)
  ∧ 0 ≤ id `mod` W < W ∧ 0 ≤ id `div` W < H
  ∧ coords_to_npu_id W (id `mod` W) (id `div` W) = id.
Proof.
  intros. unfold get_2d_coords, coords_to_npu_id.
  rewrite Z.rem_mod_nonneg, Z.quot_div_nonneg by lia.
  pose proof (Z.mod_pos_bound id W HW).
  pose proof (Z.div_mod id W ltac:(lia)).
  pose proof (Z.div_pos id W ltac:(lia) HW).
  split; [done|]. split; [done|]. split; [|lia].
  split; [done|]. apply Z.div_lt_upper_bound; lia.
Qed.

Lemma walk_x_steps x dest_x y route :
  0 ≤ x < W → 0 ≤ dest_x < W → 0 ≤ y < H →
  walk_x m x dest_x y route
  = Some (dest_x, route ++ ((λ k, coords_to_npu_id W k y) <$> steps x dest_x)).
Proof.
  intros Hx Hd Hy.
  remember (Z.abs_nat (dest_x - x)) as n eqn:Hn.
  revert x route Hx Hn. induction n as [|n IH]; intros x route Hx Hn.
  - assert (x = dest_x) as -> by lia. simp walk_x.
    destruct (decide (dest_x = dest_x)); [|done]. simpl.
    by rewrite steps_same, app_nil_r.
  - simp walk_x. destruct (decide (x = dest_x)) as [|Hne]; [lia|]. simpl.
    rewrite Hwidth, Hcount. case_bool_decide.
    + rewrite device_Some by (apply coords_id_range; lia).
      rewrite IH by lia. rewrite (steps_up x) by lia.
      by rewrite fmap_cons, <- app_assoc.
    + rewrite device_Some by (apply coords_id_range; lia).
      rewrite IH by lia. rewrite (steps_down x) by lia.
      by rewrite fmap_cons, <- app_assoc.
Qed.

Lemma walk_y_steps x y dest_y route :
  0 ≤ x < W → 0 ≤ y < H → 0 ≤ dest_y < H →
  walk_y m x y dest_y route
  = Some (dest_y, route ++ ((λ k, coords_to_npu_id W x k) <$> steps y dest_y)).
Proof.
  intros Hx Hy Hd.
  remember (Z.abs_nat (dest_y - y)) as n eqn:Hn.
  revert y route Hy Hn. induction n as [|n IH]; intros y route Hy Hn.
  - assert (y = dest_y) as -> by lia. simp walk_y.
    destruct (decide (dest_y = dest_y)); [|done]. simpl.
    by rewrite steps_same, app_nil_r.
  - simp walk_y. destruct (decide (y = dest_y)) as [|Hne]; [lia|]. simpl.
    rewrite Hwidth, Hcount. case_bool_decide.
    + rewrite device_Some by (apply coords_id_range; lia).
      rewrite IH by lia. rewrite (steps_up y) by lia.
      by rewrite fmap_cons, <- app_assoc.
    + rewrite device_Some by (apply coords_id_range; lia).
      rewrite IH by lia. rewrite (steps_down y) by lia.
      by rewrite fmap_cons, <- app_assoc.
Qed.

(** The route of two distinct devices, in closed form. *)
Lemma route_closed_form src dest :
  0 ≤ src < W * H → 0 ≤ dest < W * H → src ≠ dest →
  route m src dest
  = Some (src :: ((λ k, coords_to_npu_id W k (src `div` W))
                    <$> steps (src `mod` W) (dest `mod` W))
              ++ ((λ k, coords_to_npu_id W (dest `mod` W) k)
                    <$> steps (src `div` W) (dest `div` W))).
Proof.
  intros Hs Hd Hne. unfold route. rewrite Hcount, Hwidth.
  rewrite bool_decide_true by lia. rewrite bool_decide_false by done.
  destruct (get_2d_coords_range src Hs) as (-> & ? & ? & ?).
  destruct (get_2d_coords_range dest Hd) as (-> & ? & ? & ?).
  rewrite device_Some by lia. simpl.
  rewrite walk_x_steps by lia. simpl.
  rewrite walk_y_steps by lia. done.
Qed.

Lemma route_same src :
  0 ≤ src < W * H → route m src src = Some [src].
Proof.
  intros. unfold route. rewrite Hcount.
  rewrite !bool_decide_true by done. by rewrite device_Some.
Qed.

Lemma manhattan_distance_closed_form src dest :
  0 ≤ src < W * H → 0 ≤ dest < W * H →
  manhattan_distance m src dest
  = Z.abs (dest `mod` W - src `mod` W) + Z.abs (dest `div` W - src `div` W).
Proof.
  intros Hs Hd. unfold manhattan_distance. rewrite Hwidth.
  destruct (get_2d_coords_range src Hs) as (-> & _).
  by destruct (get_2d_coords_range dest Hd) as (-> & _).
Qed.

Lemma route_closed_form_NoDup src dest :
  0 ≤ src < W * H → 0 ≤ dest < W * H →
  NoDup (src :: ((λ k, coords_to_npu_id W k (src `div` W))
                    <$> steps (src `mod` W) (dest `mod` W))
              ++ ((λ k, coords_to_npu_id W (dest `mod` W) k)
                    <$> steps (src `div` W) (dest `div` W))).
Proof.
  intros Hs Hd.
  destruct (get_2d_coords_range src Hs) as (_ & ? & ? & Hsrc).
  destruct (get_2d_coords_range dest Hd) as (_ & ? & ? & _).
  set (sx := src `mod` W) in *. set (sy := src `div` W) in *.
  set (dx := dest `mod` W) in *. set (dy := dest `div` W) in *.
  rewrite <- Hsrc at 1.
  change (NoDup (((λ k, coords_to_npu_id W k sy) <$> (sx :: steps sx dx))
                 ++ ((λ k, coords_to_npu_id W dx k) <$> steps sy dy))).
  apply NoDup_app. split_and!.
  - apply NoDup_fmap_2_strong.
    + intros k k' Hk Hk' Heq.
      assert (0 ≤ k < W ∧ 0 ≤ k' < W) as [? ?].
      { rewrite !elem_of_cons, !elem_of_steps in Hk, Hk'. lia. }
      by destruct (coords_id_inj k sy k' sy).
    + apply NoDup_cons. split; [|apply NoDup_steps].
      rewrite elem_of_steps. lia.
  - intros id (k & -> & Hk)%list_elem_of_fmap (k' & Heq & Hk')%list_elem_of_fmap.
    assert (0 ≤ k < W) by (rewrite elem_of_cons, elem_of_steps in Hk; lia).
    destruct (coords_id_inj k sy dx k') as [_ <-]; [lia..|done|].
    rewrite elem_of_steps in Hk'. lia.
  - apply NoDup_fmap_2_strong; [|apply NoDup_steps].
    intros k k' Hk Hk' Heq.
    by destruct (coords_id_inj dx k dx k').
Qed.

End mesh2d_route.

Lemma mesh2d_new_Some W H :
  0 < W → 0 < H →
  ∃ m, Mesh2D.new W H = Some m
       ∧ Mesh2D.width m = W ∧ Mesh2D.height m = H
       ∧ Mesh2D.npus_count m = W * H.
Proof.
  intros. unfold Mesh2D.new. rewrite bool_decide_true by lia. eauto.
Qed.

Lemma mesh2d_route_last W H src dest :
  0 < W → 0 ≤ src < W * H → 0 ≤ dest < W * H → src ≠ dest →
  last (src :: ((λ k, Mesh2D.coords_to_npu_id W k (src `div` W))
                  <$> steps (src `mod` W) (dest `mod` W))
            ++ ((λ k, Mesh2D.coords_to_npu_id W (dest `mod` W) k)
                  <$> steps (src `div` W) (dest `div` W)))
  = Some dest.
Proof.
  intros HW Hs Hd Hne.
  pose proof (Z.div_mod src W ltac:(lia)).
  pose proof (Z.div_mod dest W ltac:(lia)).
  rewrite app_comm_cons, last_app, !fmap_last.
  destruct (decide (src `div` W = dest `div` W)) as [Heq|Hy].
  - rewrite Heq, steps_same. simpl.
    rewrite last_cons, fmap_last, last_steps by lia. simpl.
    unfold Mesh2D.coords_to_npu_id. f_equal. lia.
  - rewrite last_steps by done. simpl.
    unfold Mesh2D.coords_to_npu_id. f_equal. lia.
Qed.

(** C1.  In a dense mesh of width [W >= 1] and height [H >= 1], which the
    constructor builds, the route between any two devices [src], [dest] of
    [[0, W*H)] has [manhattan_distance src dest] hops, that is
    [|dest mod W - src mod W| + |dest / W - src / W|]; it visits no device
    twice, starts at [src] and ends at [dest]. *)
Theorem mesh2d_route_manhattan W H :
  1 ≤ W → 1 ≤ H →
  ∃ m, Mesh2D.new W H = Some m ∧
    ∀ src dest, 0 ≤ src < W * H → 0 ≤ dest < W * H →
      ∃ r, Mesh2D.route m src dest = Some r
        ∧ Z.of_nat (length r) - 1 = Mesh2D.manhattan_distance m src dest
        ∧ Mesh2D.manhattan_distance m src dest
          = Z.abs (dest `mod` W - src `mod` W)
            + Z.abs (dest `div` W - src `div` W)
        ∧ NoDup r ∧ head r = Some src ∧ last r = Some dest.
Proof.
  intros HW HH.
  destruct (mesh2d_new_Some W H) as (m & Hm & Hw & _ & Hc); [lia..|].
  exists m. split; [done|]. intros src dest Hs Hd.
  rewrite (manhattan_distance_closed_form W H m) by (done || lia).
  destruct (decide (src = dest)) as [<-|Hne].
  - exists [src]. rewrite (route_same W H m) by done.
    split_and!; try done; [simpl; lia|apply NoDup_singleton].
  - eexists. rewrite (route_closed_form W H m) by (done || lia).
    split_and!; [done| |done| | |].
    + simpl. rewrite length_app, !length_fmap, !Nat2Z.inj_succ, Nat2Z.inj_add.
      rewrite !length_steps. lia.
    + apply (route_closed_form_NoDup W H); (done || lia).
    + done.
    + apply (mesh2d_route_last W H); (done || lia).
Qed.

Lemma mesh2d_route_manhattan_witness :
  ∃ m, Mesh2D.new 4 3 = Some m ∧
    ∀ src dest, 0 ≤ src < 4 * 3 → 0 ≤ dest < 4 * 3 →
      ∃ r, Mesh2D.route m src dest = Some r
        ∧ Z.of_nat (length r) - 1 = Mesh2D.manhattan_distance m src dest
        ∧ Mesh2D.manhattan_distance m src dest
          = Z.abs (dest `mod` 4 - src `mod` 4)
            + Z.abs (dest `div` 4 - src `div` 4)
        ∧ NoDup r ∧ head r = Some src ∧ last r = Some dest.
Proof. apply (mesh2d_route_manhattan 4 3); lia. Defined.

(** ** Mesh2D from a flat count, and the selector *)

Lemma sqrt_int_spec n :
  0 ≤ n → sqrt_int n * sqrt_int n ≤ n < (sqrt_int n + 1) * (sqrt_int n + 1).
Proof.
  intros. unfold sqrt_int. pose proof (Z.sqrt_spec n ltac:(lia)) as Hs.
  cbv zeta in Hs. lia.
Qed.

(** C5.  The constructor from a flat count [n >= 1] builds the square
    grid of side [floor (sqrt n)]: the side [w] satisfies
    [w * w <= n < (w + 1) * (w + 1)], the mesh holds [w * w] devices, and
    the remaining [n - w * w] requested devices are dropped; counts 16 and
    17 both give the 4 x 4 grid with its 16 devices, and the
    double-precision computation of the side gives 4 for both. *)
Theorem mesh2d_of_count_square :
  (∀ n, 1 ≤ n →
     ∃ m w, Mesh2D.of_count n = Some m
       ∧ Mesh2D.width m = w ∧ Mesh2D.height m = w
       ∧ 1 ≤ w ∧ w * w ≤ n < (w + 1) * (w + 1)
       ∧ Mesh2D.npus_count m = w * w
       ∧ Mesh2D.of_count n = Mesh2D.new w w)
  ∧ Mesh2D.of_count 16 = Mesh2D.new 4 4
  ∧ Mesh2D.of_count 17 = Mesh2D.new 4 4
  ∧ Mesh2D.npus_count <$> Mesh2D.of_count 17 = Some 16
  ∧ sqrt_double 16 = Some 4 ∧ sqrt_double 17 = Some 4.
Proof.
  split; [|by vm_compute].
  intros n Hn. pose proof (sqrt_int_spec n ltac:(lia)) as Hs.
  assert (1 ≤ sqrt_int n) by nia.
  destruct (mesh2d_new_Some (sqrt_int n) (sqrt_int n)) as (m & Hm & ? & ? & ?);
    [lia..|].
  exists m, (sqrt_int n). split_and!; (done || lia).
Qed.

(** C9.  For a one-dimensional configuration whose topology tag is the
    dense mesh, the selector builds the [mesh_width] x [mesh_height] mesh
    when both are positive, whatever the flat device count [n] says, and
    otherwise it builds the square mesh derived from [n]. *)
Theorem construct_topology_mesh2d (np : Helper.NetworkParser) (n : Z) :
  Helper.get_dims_count np = 1 →
  vec_get (Helper.get_topologies_per_dim np) 0
    = Some TopologyBuildingBlock.Mesh2D →
  vec_get (Helper.get_npus_counts_per_dim np) 0 = Some n →
  let w := Helper.get_mesh_width np in
  let h := Helper.get_mesh_height np in
  (w > 0 ∧ h > 0 →
     ∃ m, Helper.construct_topology np
            = Helper.Returns (Helper.Mesh2DTopology m)
        ∧ Mesh2D.new w h = Some m
        ∧ Mesh2D.width m = w ∧ Mesh2D.height m = h
        ∧ Mesh2D.npus_count m = w * h)
  ∧ (¬ (w > 0 ∧ h > 0) →
       Helper.construct_topology np
       = Helper.built Helper.Mesh2DTopology (Mesh2D.of_count n)
       ∧ (1 ≤ n →
            ∃ m, Helper.construct_topology np
                   = Helper.Returns (Helper.Mesh2DTopology m)
               ∧ Mesh2D.width m = sqrt_int n
               ∧ Mesh2D.height m = sqrt_int n)).
Proof.
  intros Hdims Htopo Hnpus w h.
  unfold Helper.construct_topology. rewrite Hdims, Htopo, Hnpus.
  rewrite bool_decide_false by (intros ?; done). fold w h. split.
  - intros Hwh. rewrite bool_decide_true by done.
    destruct (mesh2d_new_Some w h) as (m & Hm & ? & ? & ?); [lia..|].
    exists m. by rewrite Hm.
  - intros Hwh. rewrite bool_decide_false by done. split; [done|].
    intros Hn. pose proof (sqrt_int_spec n ltac:(lia)).
    assert (1 ≤ sqrt_int n) by nia.
    destruct (mesh2d_new_Some (sqrt_int n) (sqrt_int n))
      as (m & Hm & ? & ? & ?); [lia..|].
    exists m. unfold Mesh2D.of_count. by rewrite Hm.
Qed.

Lemma construct_topology_mesh2d_witness :
  (5 > 0 ∧ 3 > 0 →
     ∃ m, Helper.construct_topology parser_5x3
            = Helper.Returns (Helper.Mesh2DTopology m)
        ∧ Mesh2D.new 5 3 = Some m
        ∧ Mesh2D.width m = 5 ∧ Mesh2D.height m = 3
        ∧ Mesh2D.npus_count m = 5 * 3)
  ∧ (¬ (5 > 0 ∧ 3 > 0) →
       Helper.construct_topology parser_5x3
       = Helper.built Helper.Mesh2DTopology (Mesh2D.of_count 16)
       ∧ (1 ≤ 16 →
            ∃ m, Helper.construct_topology parser_5x3
                   = Helper.Returns (Helper.Mesh2DTopology m)
               ∧ Mesh2D.width m = sqrt_int 16
               ∧ Mesh2D.height m = sqrt_int 16)).
Proof.
  apply (construct_topology_mesh2d parser_5x3 16); reflexivity.
Defined.

(** ** Loops *)

Lemma for_each_app {A S} (l1 l2 : list A) (body : A → S → option S) s :
  for_each (l1 ++ l2) body s = for_each l1 body s ≫= for_each l2 body.
Proof.
  revert s. induction l1 as [|a l1 IH]; intros s; simpl; [done|].
  destruct (body a s) as [s'|]; simpl; [apply IH|done].
Qed.

Lemma for_each_bind {A B S} (l : list A) (f : A → list B)
    (body : B → S → option S) s :
  for_each (l ≫= f) body s = for_each l (λ a s, for_each (f a) body s) s.
Proof.
  revert s. induction l as [|a l IH]; intros s; [done|].
  change ((a :: l) ≫= f) with (f a ++ (l ≫= f)).
  rewrite for_each_app. simpl.
  destruct (for_each (f a) body s) as [s'|]; simpl; [apply IH|done].
Qed.

Lemma for_each_ext {A S} (l : list A) (body1 body2 : A → S → option S) s :
  (∀ a s, body1 a s = body2 a s) →
  for_each l body1 s = for_each l body2 s.
Proof.
  intros Hext. revert s. induction l as [|a l IH]; intros s; simpl; [done|].
  rewrite Hext. destruct (body2 a s); simpl; [apply IH|done].
Qed.

(** The nested loop over rows and columns visits [grid_cells] in order. *)
Lemma for_grid_cells {S} W H (body : Z → Z → S → option S) s :
  for_grid W H body s = for_each (grid_cells W H) (λ c s, body c.1 c.2 s) s.
Proof.
  unfold for_grid, grid_cells. rewrite for_each_bind.
  apply for_each_ext. intros y s'. rewrite for_each_bind.
  apply for_each_ext. intros x s''. simpl. by destruct (body x y s'').
Qed.

(** Invariant rule: [I pre s] holds when the elements [pre] have been
    processed and the state is [s]. *)
Lemma for_each_invariant {A S} (I : list A → S → Prop) (l : list A)
    (body : A → S → option S) (s : S) :
  I [] s →
  (∀ pre a suf s, l = pre ++ a :: suf → I pre s →
     ∃ s', body a s = Some s' ∧ I (pre ++ [a]) s') →
  ∃ s', for_each l body s = Some s' ∧ I l s'.
Proof.
  intros Hinit Hstep.
  cut (∀ suf pre s, l = pre ++ suf → I pre s →
         ∃ s', for_each suf body s = Some s' ∧ I l s').
  { intros Hcut. by apply (Hcut l []). }
  induction suf as [|a suf IH]; intros pre s0 Hl Hpre; simpl.
  - rewrite app_nil_r in Hl. subst. eauto.
  - destruct (Hstep pre a suf s0 Hl Hpre) as (s' & -> & Hs'). simpl.
    apply (IH (pre ++ [a])); [|done]. by rewrite <- app_assoc.
Qed.

(** ** The grid *)

Lemma elem_of_grid_cells W H x y :
  (x, y) ∈ grid_cells W H ↔ 0 ≤ x < W ∧ 0 ≤ y < H.
Proof.
  unfold grid_cells. rewrite list_elem_of_bind. split.
  - intros (y' & (x' & Hxy & Hx)%list_elem_of_bind & Hy).
    apply list_elem_of_singleton in Hxy as [= -> ->].
    apply elem_of_seqZ in Hx, Hy. lia.
  - intros [Hx Hy]. exists y. split; [|apply elem_of_seqZ; lia].
    apply list_elem_of_bind. exists x.
    split; [by apply list_elem_of_singleton|apply elem_of_seqZ; lia].
Qed.

Lemma elem_of_grid_cells' W H c : c ∈ grid_cells W H ↔ in_grid W H c.
Proof. destruct c as [x y]. apply elem_of_grid_cells. Qed.

Lemma NoDup_grid_cells W H : NoDup (grid_cells W H).
Proof.
  unfold grid_cells. apply NoDup_bind; [| |apply NoDup_seqZ].
  - intros y1 y2 c _ _ (x1 & Hc1 & _)%list_elem_of_bind
      (x2 & Hc2 & _)%list_elem_of_bind.
    apply list_elem_of_singleton in Hc1, Hc2. congruence.
  - intros y _. apply NoDup_bind; [| |apply NoDup_seqZ].
    + intros x1 x2 c _ _ Hc1 Hc2.
      apply list_elem_of_singleton in Hc1, Hc2. congruence.
    + intros x _. apply NoDup_singleton.
Qed.

Lemma length_bind_const {A B} (f : A → list B) (l : list A) (k : nat) :
  (∀ a, length (f a) = k) → length (l ≫= f) = (length l * k)%nat.
Proof.
  intros Hf. induction l as [|a l IH]; [done|].
  change ((a :: l) ≫= f) with (f a ++ (l ≫= f)).
  rewrite length_app, IH, Hf. simpl. lia.
Qed.

Lemma length_grid_cells W H :
  0 ≤ W → 0 ≤ H → Z.of_nat (length (grid_cells W H)) = W * H.
Proof.
  intros. unfold grid_cells.
  rewrite (length_bind_const _ _ (Z.to_nat W)).
  - rewrite length_seqZ. lia.
  - intros y. rewrite (length_bind_const _ _ 1%nat) by done.
    rewrite length_seqZ. lia.
Qed.

Lemma elem_of_valid_cells W H E c :
  c ∈ valid_cells W H E ↔ valid_pos W H E c.
Proof.
  unfold valid_cells, valid_pos.
  rewrite list_elem_of_filter, elem_of_grid_cells'. unfold in_grid. tauto.
Qed.

Lemma NoDup_valid_cells W H E : NoDup (valid_cells W H E).
Proof. apply NoDup_filter, NoDup_grid_cells. Qed.

(** ** Counting the valid positions *)

#[local] Instance in_grid_dec W H c : Decision (in_grid W H c).
Proof. unfold in_grid. apply _. Defined.

Lemma calculate_valid_npu_count_size (W H : Z) (E : gset Coord) :
  SparseMesh2D.calculate_valid_npu_count W H E
  = W * H - Z.of_nat (size (filter (in_grid W H) E)).
Proof.
  unfold SparseMesh2D.calculate_valid_npu_count. f_equal.
  apply (set_fold_ind_L (λ r X, r = Z.of_nat (size (filter (in_grid W H) X)))).
  - by rewrite filter_empty_L, size_empty by apply _.
  - intros [x y] X r Hx ->.
    rewrite filter_union_L, filter_singleton_L by apply _.
    case_bool_decide as Hin.
    + rewrite decide_True by (unfold in_grid; simpl; lia).
      rewrite size_union.
      { rewrite size_singleton. lia. }
      apply disjoint_singleton_l. rewrite elem_of_filter. tauto.
    + rewrite decide_False by (unfold in_grid; simpl; lia).
      by rewrite (left_id_L ∅ (∪)).
Qed.

(** The count of [calculate_valid_npu_count] is the number of valid
    positions of the grid. *)
Lemma calculate_valid_npu_count_cells (W H : Z) (E : gset Coord) :
  0 ≤ W → 0 ≤ H →
  SparseMesh2D.calculate_valid_npu_count W H E
  = Z.of_nat (length (valid_cells W H E)).
Proof.
  intros. rewrite calculate_valid_npu_count_size.
  rewrite <- (length_grid_cells W H) by done.
  pose proof (filter_app_complement (λ c, c ∉ E) (grid_cells W H)) as Hperm.
  apply Permutation_length in Hperm. rewrite length_app in Hperm.
  fold (valid_cells W H E) in Hperm.
  assert (size (filter (in_grid W H) E)
          = length (filter (λ c : Coord, ¬ (c ∉ E)) (grid_cells W H))) as ->;
    [|lia].
  rewrite <- (size_list_to_set (C:=gset Coord))
    by apply NoDup_filter, NoDup_grid_cells.
  f_equal. apply set_eq. intros c.
  rewrite elem_of_filter, elem_of_list_to_set, list_elem_of_filter.
  rewrite elem_of_grid_cells'.
  destruct (decide (c ∈ E)); tauto.
Qed.



(** ** Vectors *)

Lemma vec_set_Some {A} (v : list A) i a :
  0 ≤ i < Z.of_nat (length v) → vec_set v i a = Some (<[Z.to_nat i := a]> v).
Proof. intros. unfold vec_set. by rewrite bool_decide_true. Qed.

Lemma vec_get_Some {A} (v : list A) i a :
  vec_get v i = Some a ↔ 0 ≤ i ∧ v !! Z.to_nat i = Some a.
Proof. unfold vec_get. case_bool_decide; [tauto|]. split; [done|tauto]. Qed.

Lemma vec_get_lt {A} (v : list A) i a :
  vec_get v i = Some a → 0 ≤ i < Z.of_nat (length v).
Proof.
  intros [? Hl%lookup_lt_Some]%vec_get_Some. lia.
Qed.

Lemma vec_get_is_Some {A} (v : list A) i :
  0 ≤ i < Z.of_nat (length v) → is_Some (vec_get v i).
Proof.
  intros. unfold vec_get. rewrite bool_decide_true by lia.
  apply lookup_lt_is_Some. lia.
Qed.

Lemma vec_get_insert_eq {A} (v : list A) i a :
  0 ≤ i < Z.of_nat (length v) → vec_get (<[Z.to_nat i := a]> v) i = Some a.
Proof.
  intros. unfold vec_get. rewrite bool_decide_true by lia.
  apply list_lookup_insert_eq. lia.
Qed.

Lemma vec_get_insert_ne {A} (v : list A) i j a :
  0 ≤ i → 0 ≤ j → i ≠ j →
  vec_get (<[Z.to_nat i := a]> v) j = vec_get v j.
Proof.
  intros. unfold vec_get. rewrite bool_decide_true by lia.
  apply list_lookup_insert_ne. lia.
Qed.

Lemma vec_get_app_l {A} (v w : list A) i a :
  vec_get v i = Some a → vec_get (v ++ w) i = Some a.
Proof.
  rewrite !vec_get_Some. intros [? Hl]. split; [done|].
  by apply lookup_app_l_Some.
Qed.

Lemma vec_get_snoc {A} (v : list A) a :
  vec_get (v ++ [a]) (Z.of_nat (length v)) = Some a.
Proof.
  apply vec_get_Some. split; [lia|]. rewrite Nat2Z.id.
  by rewrite lookup_app_r, Nat.sub_diag.
Qed.

Lemma vec_get_replicate {A} n (a : A) i :
  0 ≤ i < Z.of_nat n → vec_get (replicate n a) i = Some a.
Proof.
  intros. apply vec_get_Some. split; [lia|].
  apply lookup_replicate_2. lia.
Qed.

Lemma vec_get_elem_of {A} (v : list A) i a : vec_get v i = Some a → a ∈ v.
Proof. intros [_ Hl]%vec_get_Some. by eapply list_elem_of_lookup_2. Qed.

(** ** The grid index *)

Lemma grid_index_range W H c :
  in_grid W H c →
  0 ≤ SparseMesh2D.coords_to_grid_index W c.1 c.2 < W * H.
Proof.
  unfold in_grid, SparseMesh2D.coords_to_grid_index. intros.
  assert (0 ≤ c.2 * W ≤ (H - 1) * W) by nia. lia.
Qed.

Lemma grid_index_inj W H c c' :
  in_grid W H c → in_grid W H c' →
  SparseMesh2D.coords_to_grid_index W c.1 c.2
  = SparseMesh2D.coords_to_grid_index W c'.1 c'.2 →
  c = c'.
Proof.
  destruct c as [x y], c' as [x' y'].
  unfold in_grid, SparseMesh2D.coords_to_grid_index. simpl. intros ? ? Heq.
  assert (y = y') as -> by nia. f_equal. lia.
Qed.

(** ** Automatic numbering *)

Lemma scan_inv_init W H E :
  0 ≤ W → 0 ≤ H →
  scan_inv W H E []
    (SparseMesh2D.mk_sc (replicate (Z.to_nat (W * H)) (-1)) [] 0).
Proof.
  intros. split_and!; simpl; [by rewrite length_replicate|done|done|].
  intros c Hc. exists (-1). split.
  - apply vec_get_replicate. pose proof (grid_index_range W H c Hc). lia.
  - left. split; [done|]. apply not_elem_of_nil.
Qed.

Lemma scan_inv_step W H E pre a suf s :
  grid_cells W H = pre ++ a :: suf → scan_inv W H E pre s →
  ∃ s', SparseMesh2D.number_body W E a.1 a.2 s = Some s'
        ∧ scan_inv W H E (pre ++ [a]) s'.
Proof.
  intros Hcells (Hlen & Hrev & Hcount & Hentry).
  assert (in_grid W H a) as Ha.
  { apply elem_of_grid_cells'. rewrite Hcells.
    apply elem_of_app. right. apply list_elem_of_here. }
  assert (a ∉ pre) as Hfresh.
  { pose proof (NoDup_grid_cells W H) as Hnd. rewrite Hcells in Hnd.
    apply NoDup_app in Hnd as (_ & Hnd & _). intros Hin.
    apply (Hnd a Hin). apply list_elem_of_here. }
  pose proof (grid_index_range W H a Ha) as Hidx.
  unfold SparseMesh2D.number_body. destruct a as [x y]. simpl in *.
  case_bool_decide as Hexcl.
  - rewrite vec_set_Some by lia. simpl. eexists. split; [done|].
    split_and!; simpl.
    + by rewrite length_insert.
    + rewrite filter_app, Hrev. by rewrite filter_cons_True, filter_nil.
    + rewrite length_app. simpl. lia.
    + intros c Hc. destruct (decide (c = (x, y))) as [->|Hne].
      * exists (SparseMesh2D.sc_count s). simpl.
        split; [apply vec_get_insert_eq; lia|]. right.
        rewrite Hcount. apply vec_get_snoc.
      * destruct (Hentry c Hc) as (v & Hv & Hcase). exists v. split.
        { rewrite vec_get_insert_ne; [done|lia| |].
          - pose proof (grid_index_range W H c Hc). lia.
          - intros Heq. apply Hne. by apply (grid_index_inj W H). }
        destruct Hcase as [[-> Hnot]|Hget].
        { left. split; [done|].
          rewrite elem_of_app, list_elem_of_singleton. tauto. }
        { right. by apply vec_get_app_l. }
  - eexists. split; [done|]. split_and!; try done.
    rewrite filter_app, Hrev. rewrite filter_cons_False by auto.
    by rewrite filter_nil, app_nil_r.
Qed.

Lemma scan_result W H E :
  0 ≤ W → 0 ≤ H →
  ∃ s, for_grid W H (SparseMesh2D.number_body W E)
         (SparseMesh2D.mk_sc (replicate (Z.to_nat (W * H)) (-1)) [] 0)
       = Some s
     ∧ scan_inv W H E (grid_cells W H) s.
Proof.
  intros. rewrite for_grid_cells.
  apply (for_each_invariant (scan_inv W H E)).
  - by apply scan_inv_init.
  - intros pre a suf s. apply scan_inv_step.
Qed.

(** ** Link creation never reads outside the forward table *)

Lemma npu_at_is_Some W H grid x y :
  0 ≤ W → 0 ≤ H →
  length grid = Z.to_nat (W * H) →
  is_Some (SparseMesh2D.npu_at W H grid x y).
Proof.
  intros ? ? Hlen. unfold SparseMesh2D.npu_at. case_bool_decide; [done|].
  apply vec_get_is_Some.
  pose proof (grid_index_range W H (x, y)) as Hr. unfold in_grid in Hr.
  simpl in Hr. lia.
Qed.

Lemma create_links_is_Some W H grid :
  0 ≤ W → 0 ≤ H →
  length grid = Z.to_nat (W * H) →
  is_Some (SparseMesh2D.create_links W H grid).
Proof.
  intros ? ? Hlen. unfold SparseMesh2D.create_links. rewrite for_grid_cells.
  destruct (for_each_invariant (λ _ _, True) (grid_cells W H)
              (λ c s, SparseMesh2D.link_body W H grid c.1 c.2 s)
              (mk_ls [] 0)) as (s & -> & _); [done| |done].
  intros pre [x y] suf s _ _. simpl. unfold SparseMesh2D.link_body.
  destruct (npu_at_is_Some W H grid x y) as [v ->]; [done..|]. simpl.
  case_bool_decide; [eauto|].
  destruct (npu_at_is_Some W H grid (x + 1) y) as [r ->]; [done..|].
  destruct (npu_at_is_Some W H grid x (y + 1)) as [b ->]; [done..|]. simpl.
  repeat (case_bool_decide; simpl); eauto.
Qed.

(** ** From the tables to the bijection *)

Lemma get_npu_at_in_grid (m : SparseMesh2D.t) x y :
  in_grid (SparseMesh2D.width m) (SparseMesh2D.height m) (x, y) →
  SparseMesh2D.get_npu_at m x y
  = vec_get (SparseMesh2D.grid_to_npu m)
      (SparseMesh2D.coords_to_grid_index (SparseMesh2D.width m) x y).
Proof.
  unfold in_grid. simpl. intros.
  unfold SparseMesh2D.get_npu_at, SparseMesh2D.npu_at.
  by rewrite bool_decide_false by lia.
Qed.

Lemma get_coords_in_range (m : SparseMesh2D.t) id :
  0 ≤ id < SparseMesh2D.valid_npu_count m →
  SparseMesh2D.get_coords m id = vec_get (SparseMesh2D.npu_to_grid m) id.
Proof.
  intros. unfold SparseMesh2D.get_coords. by rewrite bool_decide_true by lia.
Qed.

Lemma valid_in_grid m c :
  Sparse.valid m c →
  in_grid (SparseMesh2D.width m) (SparseMesh2D.height m) c.
Proof. unfold Sparse.valid, valid_pos, in_grid. tauto. Qed.

Lemma tables_ok_entry m c :
  tables_ok m → Sparse.valid m c →
  ∃ id, 0 ≤ id < SparseMesh2D.valid_npu_count m
        ∧ vec_get (SparseMesh2D.grid_to_npu m)
            (SparseMesh2D.coords_to_grid_index (SparseMesh2D.width m) c.1 c.2)
          = Some id
        ∧ vec_get (SparseMesh2D.npu_to_grid m) id = Some c.
Proof.
  intros (_ & _ & _ & Hlen & _ & _ & Hmem & Hentry) Hc.
  destruct (Hentry c (valid_in_grid m c Hc)) as (v & Hv & [[_ Hnot]|Hrev]).
  - destruct Hnot. by apply Hmem.
  - exists v. pose proof (vec_get_lt _ _ _ Hrev). split_and!; [lia..|done|done].
Qed.

Lemma tables_ok_bijection m : tables_ok m → Sparse.bijection m.
Proof.
  intros Hok.
  pose proof Hok as (HW & HH & Hglen & Hlen & Hn & Hnd & Hmem & Hentry).
  split.
  - intros x y Hc.
    destruct (tables_ok_entry m (x, y) Hok Hc) as (id & Hid & Hg & Hr).
    exists id. split; [done|].
    rewrite get_npu_at_in_grid by by apply valid_in_grid.
    by rewrite get_coords_in_range.
  - intros id Hid.
    destruct (vec_get_is_Some (SparseMesh2D.npu_to_grid m) id) as [[x y] Hr];
      [lia|].
    assert (Sparse.valid m (x, y)) as Hc.
    { apply Hmem. by eapply vec_get_elem_of. }
    exists x, y. split; [done|]. rewrite get_coords_in_range by done.
    split; [done|].
    destruct (tables_ok_entry m (x, y) Hok Hc) as (id' & Hid' & Hg & Hr').
    rewrite get_npu_at_in_grid by by apply valid_in_grid.
    simpl in Hg. rewrite Hg. f_equal.
    apply vec_get_Some in Hr as [? Hr], Hr' as [? Hr'].
    pose proof (NoDup_lookup _ _ _ _ Hnd Hr Hr'). lia.
  - intros x y Hin Hex. rewrite get_npu_at_in_grid by done.
    destruct (Hentry (x, y) Hin) as (v & Hv & [[-> _]|Hrev]); [done|].
    apply vec_get_elem_of, Hmem in Hrev. by destruct Hrev as (_ & _ & ?).
Qed.

Lemma new_tables_ok W H E :
  0 < W → 0 < H →
  ∃ m, SparseMesh2D.new W H E = Some m
       ∧ SparseMesh2D.width m = W ∧ SparseMesh2D.height m = H
       ∧ SparseMesh2D.excluded m = E
       ∧ SparseMesh2D.npu_to_grid m = valid_cells W H E
       ∧ SparseMesh2D.npus_count m
         = SparseMesh2D.calculate_valid_npu_count W H E
       ∧ tables_ok m.
Proof.
  intros HW HH. unfold SparseMesh2D.new. rewrite bool_decide_true by lia.
  destruct (scan_result W H E) as (s & -> & Hlen & Hrev & Hcount & Hentry);
    [lia..|]. simpl.
  destruct (create_links_is_Some W H (SparseMesh2D.sc_grid s)) as [ls ->];
    [lia..|done|]. simpl.
  eexists. split; [done|]. simpl. split_and!; try done.
  unfold tables_ok, Sparse.valid. simpl. fold (valid_cells W H E) in Hrev.
  rewrite Hrev in *. split_and!; try done.
  - rewrite calculate_valid_npu_count_cells by lia. done.
  - apply NoDup_valid_cells.
  - intros c. apply elem_of_valid_cells.
Qed.

(** ** Custom placement *)

Lemma valid_pos_in_grid W H E c : valid_pos W H E c → in_grid W H c.
Proof. unfold valid_pos, in_grid. tauto. Qed.

Lemma assign_inv_init W H E vc :
  0 ≤ W → 0 ≤ H → 0 ≤ vc →
  assign_inv W H E vc (replicate (Z.to_nat (W * H)) (-1))
    (replicate (Z.to_nat vc) (0, 0)) ∅.
Proof.
  intros. split_and!.
  - by rewrite length_replicate.
  - rewrite length_replicate. lia.
  - intros id Hid. by apply not_elem_of_empty in Hid.
  - intros c Hc. exists (-1). split; [|by left].
    apply vec_get_replicate. pose proof (grid_index_range W H c Hc). lia.
  - intros id Hid. by apply not_elem_of_empty in Hid.
Qed.

(** Giving the fresh id [id] to the unassigned valid position [c]. *)
Lemma assign_inv_step W H E vc grid rev used c id :
  assign_inv W H E vc grid rev used →
  valid_pos W H E c → unassigned W grid c →
  id ∉ used → 0 ≤ id < vc →
  assign_inv W H E vc
    (<[Z.to_nat (SparseMesh2D.coords_to_grid_index W c.1 c.2) := id]> grid)
    (<[Z.to_nat id := c]> rev) ({[id]} ∪ used).
Proof.
  intros (Hglen & Hrlen & Hused & Hfwd & Hbwd) Hc Hun Hfresh Hid.
  pose proof (valid_pos_in_grid _ _ _ _ Hc) as Hin.
  pose proof (grid_index_range W H c Hin) as Hidx.
  assert (∀ c', in_grid W H c' → c' ≠ c →
            vec_get (<[Z.to_nat (SparseMesh2D.coords_to_grid_index W c.1 c.2)
                       := id]> grid)
              (SparseMesh2D.coords_to_grid_index W c'.1 c'.2)
            = vec_get grid (SparseMesh2D.coords_to_grid_index W c'.1 c'.2))
    as Hother.
  { intros c' Hc' Hne. apply vec_get_insert_ne; [lia| |].
    - pose proof (grid_index_range W H c' Hc'). lia.
    - intros Heq. apply Hne. symmetry. by apply (grid_index_inj W H). }
  split_and!.
  - by rewrite length_insert.
  - by rewrite length_insert.
  - intros id' [->%elem_of_singleton|Hid']%elem_of_union; [done|auto].
  - intros c' Hc'. destruct (decide (c' = c)) as [->|Hne].
    + exists id. split; [apply vec_get_insert_eq; lia|]. right.
      split_and!; [|apply vec_get_insert_eq; lia|done].
      apply elem_of_union. left. by apply elem_of_singleton.
    + rewrite Hother by done.
      destruct (Hfwd c' Hc') as (v & Hv & Hcase). exists v. split; [done|].
      destruct Hcase as [->|(Hvu & Hvr & Hvc)]; [by left|right].
      split_and!; [apply elem_of_union; by right| |done].
      rewrite vec_get_insert_ne; [done|lia|by apply Hused|].
      intros ->. done.
  - intros id' [->%elem_of_singleton|Hid']%elem_of_union.
    + exists c. split_and!; [done|apply vec_get_insert_eq; lia|].
      apply vec_get_insert_eq. lia.
    + destruct (Hbwd id' Hid') as (c' & Hc' & Hr' & Hg').
      exists c'. split; [done|].
      assert (c' ≠ c) as Hne.
      { intros ->. unfold unassigned in Hun. rewrite Hg' in Hun.
        injection Hun as ->. apply Hused in Hid'. lia. }
      split.
      * rewrite vec_get_insert_ne; [done|lia|by apply Hused|].
        intros ->. done.
      * rewrite Hother; [done| |done]. by eapply valid_pos_in_grid.
Qed.

Lemma place_inv_step W H E vc placement pre a suf s :
  NoDup placement.*1 → placement = pre ++ a :: suf →
  place_inv W H E vc pre s →
  ∃ s', SparseMesh2D.place_body W H E vc a s = Some s'
        ∧ place_inv W H E vc (pre ++ [a]) s'.
Proof.
  intros Hnd -> [Hinv Hpre].
  assert (∀ c, c ∉ (pre ++ [a]).*1 → c ∉ pre.*1) as Hmono.
  { intros c Hc Hin. apply Hc. rewrite fmap_app, elem_of_app. by left. }
  assert (place_inv W H E vc (pre ++ [a]) s) as Hskip.
  { split; [done|]. intros c Hc Hnot. apply Hpre; auto. }
  destruct a as [[x y] id]. unfold SparseMesh2D.place_body.
  case_bool_decide as Hbounds; [eauto|].
  case_bool_decide as Hexcl; [eauto|].
  case_bool_decide as Hrange; [eauto|].
  case_bool_decide as Hdup; [eauto|].
  assert (valid_pos W H E (x, y)) as Hc.
  { unfold valid_pos. simpl. split_and!; (lia || done). }
  assert (unassigned W (SparseMesh2D.pl_grid s) (x, y)) as Hun.
  { apply Hpre; [by eapply valid_pos_in_grid|].
    rewrite fmap_app, fmap_cons in Hnd. simpl in Hnd.
    apply NoDup_app in Hnd as (_ & Hnd & _). intros Hin.
    apply (Hnd _ Hin). apply list_elem_of_here. }
  pose proof Hinv as (Hglen & Hrlen & _).
  pose proof (grid_index_range W H (x, y) (valid_pos_in_grid _ _ _ _ Hc))
    as Hidx. simpl in Hidx.
  rewrite vec_set_Some by lia. simpl.
  rewrite vec_set_Some by lia. simpl.
  eexists. split; [done|]. split; simpl.
  - apply (assign_inv_step W H E vc _ _ _ (x, y) id); (done || lia).
  - intros c Hin Hnot. unfold unassigned.
    rewrite vec_get_insert_ne.
    + apply Hpre; auto.
    + lia.
    + pose proof (grid_index_range W H c Hin). lia.
    + intros Heq. apply Hnot. rewrite fmap_app, elem_of_app. right.
      apply (grid_index_inj W H (x, y) c) in Heq as <-;
        [apply list_elem_of_here|by eapply valid_pos_in_grid|done].
Qed.

Lemma place_result W H E vc placement :
  0 ≤ W → 0 ≤ H → 0 ≤ vc → NoDup placement.*1 →
  ∃ s, for_each placement (SparseMesh2D.place_body W H E vc)
         (SparseMesh2D.mk_pl (replicate (Z.to_nat (W * H)) (-1))
            (replicate (Z.to_nat vc) (0, 0)) ∅)
       = Some s
     ∧ assign_inv W H E vc (SparseMesh2D.pl_grid s) (SparseMesh2D.pl_rev s)
         (SparseMesh2D.pl_used s).
Proof.
  intros ? ? ? Hnd.
  destruct (for_each_invariant (place_inv W H E vc) placement
              (SparseMesh2D.place_body W H E vc)
              (SparseMesh2D.mk_pl (replicate (Z.to_nat (W * H)) (-1))
                 (replicate (Z.to_nat vc) (0, 0)) ∅))
    as (s & Hs & Hinv & _).
  - split; simpl; [by apply assign_inv_init|].
    intros c Hc _. apply vec_get_replicate.
    pose proof (grid_index_range W H c Hc). lia.
  - intros pre a suf s. by apply place_inv_step.
  - eauto.
Qed.

(** *** Counting ids and positions *)

Lemma NoDup_subset_length {A} (l k : list A) :
  NoDup l → (∀ x, x ∈ l → x ∈ k) → (length l ≤ length k)%nat.
Proof. intros. by apply submseteq_length, NoDup_submseteq. Qed.

(** The positions that the ids of [used] are given to. *)
Lemma used_cells W H E vc grid rev (used : gset Z) :
  assign_inv W H E vc grid rev used →
  ∃ M : list Coord,
    NoDup M ∧ length M = size used
    ∧ ∀ c, c ∈ M ↔
        ∃ id, id ∈ used ∧ valid_pos W H E c ∧ vec_get rev id = Some c
              ∧ vec_get grid (SparseMesh2D.coords_to_grid_index W c.1 c.2)
                = Some id.
Proof.
  intros (_ & _ & _ & _ & Hbwd).
  exists ((λ id, default (0, 0) (vec_get rev id)) <$> elements used).
  split_and!.
  - apply NoDup_fmap_2_strong; [|apply NoDup_elements].
    intros i j Hi%elem_of_elements Hj%elem_of_elements.
    destruct (Hbwd i Hi) as (ci & _ & -> & Hgi).
    destruct (Hbwd j Hj) as (cj & _ & -> & Hgj). simpl. intros ->. congruence.
  - by rewrite length_fmap.
  - intros c. rewrite list_elem_of_fmap. split.
    + intros (id & -> & Hid%elem_of_elements). exists id.
      destruct (Hbwd id Hid) as (c & ? & -> & ?). done.
    + intros (id & Hid & _ & Hr & _). exists id.
      rewrite Hr. split; [done|by apply elem_of_elements].
Qed.

Lemma used_size_lt W H E vc grid rev (used : gset Z) c :
  assign_inv W H E vc grid rev used →
  vc = Z.of_nat (length (valid_cells W H E)) →
  valid_pos W H E c → unassigned W grid c →
  Z.of_nat (size used) < vc.
Proof.
  intros Hinv -> Hc Hun.
  destruct (used_cells _ _ _ _ _ _ _ Hinv) as (M & Hnd & <- & HM).
  pose proof Hinv as (_ & _ & Hused & _).
  assert (length (c :: M) ≤ length (valid_cells W H E))%nat;
    [|simpl in *; lia].
  apply NoDup_subset_length.
  - apply NoDup_cons. split; [|done].
    intros (id & Hid & _ & _ & Hg)%HM. unfold unassigned in Hun.
    rewrite Hg in Hun. injection Hun as ->. apply Hused in Hid. lia.
  - intros c' [->|Hc']%elem_of_cons; apply elem_of_valid_cells; [done|].
    by apply HM in Hc' as (_ & _ & ? & _).
Qed.

Lemma full_all_assigned W H E vc grid rev (used : gset Z) c :
  assign_inv W H E vc grid rev used →
  vc = Z.of_nat (length (valid_cells W H E)) →
  Z.of_nat (size used) = vc →
  valid_pos W H E c → ¬ unassigned W grid c.
Proof.
  intros Hinv -> Hsize Hc Hun.
  destruct (used_cells _ _ _ _ _ _ _ Hinv) as (M & Hnd & Hlen & HM).
  pose proof Hinv as (_ & _ & Hused & _).
  assert (M ≡ₚ valid_cells W H E) as Hperm.
  { apply submseteq_length_Permutation; [|lia].
    apply NoDup_submseteq; [done|]. intros c' Hc'.
    apply elem_of_valid_cells. by apply HM in Hc' as (_ & _ & ? & _). }
  apply elem_of_valid_cells in Hc. rewrite <- Hperm in Hc.
  apply HM in Hc as (id & Hid & _ & _ & Hg). unfold unassigned in Hun.
  rewrite Hg in Hun. injection Hun as ->. apply Hused in Hid. lia.
Qed.

Lemma size_range_set n :
  0 ≤ n → size (list_to_set (seqZ 0 n) : gset Z) = Z.to_nat n.
Proof.
  intros. rewrite size_list_to_set by apply NoDup_seqZ. apply length_seqZ.
Qed.

(** An id below [vc] remains when fewer than [vc] ids are in use. *)
Lemma unused_below (used : gset Z) vc n :
  0 ≤ vc → Z.of_nat (size used) < vc →
  (∀ i, 0 ≤ i < n → i ∈ used) → n < vc.
Proof.
  intros Hvc Hsize Hall.
  destruct (decide (n < vc)) as [|Hge]; [done|]. exfalso.
  assert (list_to_set (seqZ 0 vc) ⊆ used) as Hsub.
  { intros i Hi. apply elem_of_list_to_set, elem_of_seqZ in Hi.
    apply Hall. lia. }
  apply subseteq_size in Hsub. rewrite size_range_set in Hsub by done. lia.
Qed.

Lemma all_assigned_used_full W H E vc grid rev (used : gset Z) :
  assign_inv W H E vc grid rev used →
  vc = Z.of_nat (length (valid_cells W H E)) →
  (∀ c, valid_pos W H E c → ¬ unassigned W grid c) →
  ∀ id, 0 ≤ id < vc → id ∈ used.
Proof.
  intros Hinv Hvc Hall.
  pose proof Hinv as (_ & _ & Hused & Hfwd & _).
  assert (∀ c, valid_pos W H E c →
            ∃ v, vec_get grid (SparseMesh2D.coords_to_grid_index W c.1 c.2)
                 = Some v ∧ v ∈ used ∧ vec_get rev v = Some c) as Hv.
  { intros c Hc.
    destruct (Hfwd c (valid_pos_in_grid _ _ _ _ Hc)) as (v & Hg & Hcase).
    exists v. split; [done|]. destruct Hcase as [->|(? & ? & _)]; [|done].
    by destruct (Hall c Hc). }
  set (f := λ c : Coord,
         default 0 (vec_get grid
                      (SparseMesh2D.coords_to_grid_index W c.1 c.2))).
  assert (length (f <$> valid_cells W H E) ≤ length (elements used))%nat
    as Hle.
  { apply NoDup_subset_length.
    - apply NoDup_fmap_2_strong; [|apply NoDup_valid_cells].
      intros c c' Hc%elem_of_valid_cells Hc'%elem_of_valid_cells. unfold f.
      destruct (Hv c Hc) as (v & -> & _ & Hr).
      destruct (Hv c' Hc') as (v' & -> & _ & Hr'). simpl. intros ->.
      congruence.
    - intros v (c & -> & Hc%elem_of_valid_cells)%list_elem_of_fmap. unfold f.
      destruct (Hv c Hc) as (v & -> & ? & _). by apply elem_of_elements. }
  rewrite length_fmap in Hle.
  assert (used = list_to_set (seqZ 0 vc)) as ->.
  { apply set_subseteq_size_eq.
    - intros i Hi. apply elem_of_list_to_set, elem_of_seqZ.
      apply Hused in Hi. lia.
    - rewrite size_range_set by lia. unfold size, set_size. simpl. lia. }
  intros id Hid. apply elem_of_list_to_set, elem_of_seqZ. lia.
Qed.

(** *** The backfill *)

Lemma next_unused_spec (used : gset Z) n :
  n ≤ SparseMesh2D.next_unused used n
  ∧ (SparseMesh2D.next_unused used n ∉ used)
  ∧ (∀ i, n ≤ i < SparseMesh2D.next_unused used n → i ∈ used).
Proof.
  funelim (SparseMesh2D.next_unused used n).
  - match goal with
    | IH : _ ∧ _ ∧ _ |- _ => destruct IH as (Hle & Hnot & Hall)
    end.
    split_and!; [lia|done|]. intros i Hi.
    destruct (decide (i = next_auto_id)) as [->|]; [done|]. apply Hall. lia.
  - split_and!; [lia|done|]. intros i Hi. lia.
Qed.

Lemma fill_inv_step W H E vc pre a suf s :
  vc = Z.of_nat (length (valid_cells W H E)) →
  grid_cells W H = pre ++ a :: suf →
  fill_inv W H E vc pre s → 0 ≤ SparseMesh2D.fl_next s →
  ∃ s', SparseMesh2D.fill_body W E a.1 a.2 s = Some s'
        ∧ fill_inv W H E vc (pre ++ [a]) s'
        ∧ 0 ≤ SparseMesh2D.fl_next s'.
Proof.
  intros Hvc Hcells (Hinv & Hdone & Hbelow) Hnext.
  assert (in_grid W H a) as Ha.
  { apply elem_of_grid_cells'. rewrite Hcells.
    apply elem_of_app. right. apply list_elem_of_here. }
  pose proof (grid_index_range W H a Ha) as Hidx.
  pose proof Hinv as (Hglen & Hrlen & Hused & Hfwd & _).
  destruct (Hfwd a Ha) as (v & Hv & Hcase).
  assert (∀ s', fill_inv W H E vc pre s' →
            (valid_pos W H E a →
             ¬ unassigned W (SparseMesh2D.fl_grid s') a) →
            fill_inv W H E vc (pre ++ [a]) s') as Hextend.
  { intros s' (? & Hd' & ?) Hnew. split_and!; [done| |done].
    intros c [Hc| ->%list_elem_of_singleton]%elem_of_app; auto. }
  unfold SparseMesh2D.fill_body. destruct a as [x y]. simpl in *.
  case_bool_decide as Hexcl.
  - rewrite Hv. simpl. case_bool_decide as Hneg.
    + assert (v = -1) as ->.
      { destruct Hcase as [->|(Hin%Hused & _)]; [done|lia]. }
      assert (valid_pos W H E (x, y)) as Hc.
      { unfold valid_pos, in_grid in *. simpl in *. tauto. }
      destruct (next_unused_spec (SparseMesh2D.fl_used s)
                  (SparseMesh2D.fl_next s)) as (Hle & Hfresh & Hbetween).
      set (n' := SparseMesh2D.next_unused (SparseMesh2D.fl_used s)
                   (SparseMesh2D.fl_next s)) in *.
      assert (n' < vc) as Hlt.
      { apply (unused_below (SparseMesh2D.fl_used s)); [lia| |].
        - by apply (used_size_lt W H E vc _ _ _ (x, y) Hinv).
        - intros i Hi. destruct (decide (i < SparseMesh2D.fl_next s));
            [apply Hbelow|apply Hbetween]; lia. }
      rewrite vec_set_Some by lia. simpl.
      rewrite vec_set_Some by lia. simpl.
      eexists. split; [done|]. split; [|simpl; lia].
      apply Hextend.
      * split_and!; simpl.
        { apply (assign_inv_step W H E vc _ _ _ (x, y) n');
            (done || lia). }
        { intros c Hc' Hvalid Hun. apply (Hdone c Hc' Hvalid).
          unfold unassigned in *.
          destruct (decide (c = (x, y))) as [->|Hne]; [done|].
          rewrite vec_get_insert_ne in Hun; [done|lia| |].
          - pose proof (grid_index_range W H c
                          (valid_pos_in_grid _ _ _ _ Hvalid)). lia.
          - intros Heq. apply Hne. symmetry.
            apply (grid_index_inj W H); [done| |done].
            by eapply valid_pos_in_grid. }
        { intros i Hi. apply elem_of_union.
          destruct (decide (i = n')) as [->|];
            [left; by apply elem_of_singleton|right].
          destruct (decide (i < SparseMesh2D.fl_next s));
            [apply Hbelow|apply Hbetween]; lia. }
      * simpl. intros _. unfold unassigned. simpl.
        rewrite vec_get_insert_eq by lia. intros [= ?]. lia.
    + eexists. split; [done|]. split; [|done]. apply Hextend; [done|].
      intros _. unfold unassigned. simpl. rewrite Hv. intros [= ->]. lia.
  - eexists. split; [done|]. split; [|done]. apply Hextend; [done|].
    intros (_ & _ & Hnot). done.
Qed.

Lemma fill_result W H E vc grid rev used :
  0 ≤ W → 0 ≤ H →
  vc = Z.of_nat (length (valid_cells W H E)) →
  assign_inv W H E vc grid rev used →
  ∃ s, for_grid W H (SparseMesh2D.fill_body W E)
         (SparseMesh2D.mk_fl grid rev used 0) = Some s
     ∧ assign_inv W H E vc (SparseMesh2D.fl_grid s) (SparseMesh2D.fl_rev s)
         (SparseMesh2D.fl_used s)
     ∧ ∀ c, valid_pos W H E c → ¬ unassigned W (SparseMesh2D.fl_grid s) c.
Proof.
  intros ? ? Hvc Hinv. rewrite for_grid_cells.
  destruct (for_each_invariant
              (λ pre s, fill_inv W H E vc pre s ∧ 0 ≤ SparseMesh2D.fl_next s)
              (grid_cells W H)
              (λ c s, SparseMesh2D.fill_body W E c.1 c.2 s)
              (SparseMesh2D.mk_fl grid rev used 0))
    as (s & Hs & (Hfinal & Hdone & _) & _).
  - split; [|done]. split_and!; simpl; [done| |intros; lia].
    intros c Hc. by apply not_elem_of_nil in Hc.
  - intros pre a suf s Hcells [Hfill Hnext].
    destruct (fill_inv_step W H E vc pre a suf s Hvc Hcells Hfill Hnext)
      as (s' & ? & ? & ?). eauto.
  - exists s. split_and!; [done..|]. intros c Hc. apply Hdone; [|done].
    by apply elem_of_valid_cells, list_elem_of_filter in Hc as [_ ?].
Qed.

Lemma assigned_tables_ok W H E vc grid rev (used : gset Z) links :
  0 < W → 0 < H →
  vc = Z.of_nat (length (valid_cells W H E)) →
  assign_inv W H E vc grid rev used →
  (∀ c, valid_pos W H E c → ¬ unassigned W grid c) →
  tables_ok (SparseMesh2D.mk W H vc E grid rev vc links).
Proof.
  intros HW HH Hvc Hinv Hall.
  pose proof (all_assigned_used_full _ _ _ _ _ _ _ Hinv Hvc Hall) as Hfull.
  pose proof Hinv as (Hglen & Hrlen & Hused & Hfwd & Hbwd).
  assert (∀ i c, rev !! i = Some c →
            valid_pos W H E c
            ∧ vec_get grid (SparseMesh2D.coords_to_grid_index W c.1 c.2)
              = Some (Z.of_nat i)) as Hrev.
  { intros i c Hi. pose proof (lookup_lt_Some _ _ _ Hi).
    destruct (Hbwd (Z.of_nat i)) as (c' & Hc' & Hr' & Hg'); [apply Hfull; lia|].
    apply vec_get_Some in Hr' as [_ Hr']. rewrite Nat2Z.id in Hr'.
    by simplify_eq. }
  assert (∀ c, c ∈ rev ↔ valid_pos W H E c) as Hmem.
  { intros c. split.
    - intros (i & Hi)%list_elem_of_lookup. by apply Hrev in Hi as [? _].
    - intros Hc.
      destruct (Hfwd c (valid_pos_in_grid _ _ _ _ Hc))
        as (v & Hg & [->|(_ & Hr & _)]).
      + by destruct (Hall c Hc).
      + by eapply vec_get_elem_of. }
  unfold tables_ok, Sparse.valid. simpl. split_and!; try done.
  - apply NoDup_alt. intros i j c Hi Hj.
    apply Hrev in Hi as [_ Hi], Hj as [_ Hj]. rewrite Hi in Hj.
    injection Hj. lia.
  - intros c Hc. destruct (Hfwd c Hc) as (v & Hg & Hcase). exists v.
    split; [done|]. destruct Hcase as [->|(_ & Hr & _)]; [left|by right].
    split; [done|]. intros Hin%Hmem. by apply (Hall c).
Qed.

Lemma new_placed_tables_ok W H E placement :
  0 < W → 0 < H → NoDup placement.*1 →
  ∃ m, SparseMesh2D.new_placed W H E placement = Some m
       ∧ SparseMesh2D.width m = W ∧ SparseMesh2D.height m = H
       ∧ SparseMesh2D.excluded m = E
       ∧ SparseMesh2D.npus_count m
         = SparseMesh2D.calculate_valid_npu_count W H E
       ∧ tables_ok m.
Proof.
  intros HW HH Hnd. unfold SparseMesh2D.new_placed.
  rewrite bool_decide_true by lia.
  pose proof (calculate_valid_npu_count_cells W H E ltac:(lia) ltac:(lia))
    as Hvc.
  set (vc := SparseMesh2D.calculate_valid_npu_count W H E) in *.
  destruct (place_result W H E vc placement) as (pl & -> & Hpl);
    [lia..|done|]. simpl.
  assert (∃ fl,
            (if bool_decide (Z.of_nat (size (SparseMesh2D.pl_used pl)) ≠ vc)
             then for_grid W H (SparseMesh2D.fill_body W E)
                    (SparseMesh2D.mk_fl (SparseMesh2D.pl_grid pl)
                       (SparseMesh2D.pl_rev pl) (SparseMesh2D.pl_used pl) 0)
             else Some (SparseMesh2D.mk_fl (SparseMesh2D.pl_grid pl)
                          (SparseMesh2D.pl_rev pl) (SparseMesh2D.pl_used pl) 0))
            = Some fl
            ∧ assign_inv W H E vc (SparseMesh2D.fl_grid fl)
                (SparseMesh2D.fl_rev fl) (SparseMesh2D.fl_used fl)
            ∧ ∀ c, valid_pos W H E c →
                   ¬ unassigned W (SparseMesh2D.fl_grid fl) c)
    as (fl & -> & Hfl & Hall).
  { case_bool_decide as Hsize.
    - apply fill_result; (done || lia).
    - eexists. split; [done|]. simpl. split; [done|]. intros c.
      apply (full_all_assigned W H E vc _ _ _ c Hpl Hvc). lia. }
  simpl. pose proof Hfl as (Hglen & _).
  destruct (create_links_is_Some W H (SparseMesh2D.fl_grid fl)) as [ls ->];
    [lia..|done|]. simpl.
  eexists. split; [done|]. simpl. split_and!; try done.
  by eapply assigned_tables_ok.
Qed.

Lemma constructed_tables_ok m : Sparse.constructed m → tables_ok m.
Proof.
  intros [(W & H & E & Hm)|(W & H & E & P & Hnd & Hm)].
  - unfold SparseMesh2D.new in Hm. case_bool_decide as Hpos; [|done].
    destruct (new_tables_ok W H E) as (m' & Hm' & _ & _ & _ & _ & _ & Hok);
      [lia..|].
    unfold SparseMesh2D.new in Hm'. rewrite bool_decide_true in Hm' by done.
    by simplify_eq.
  - unfold SparseMesh2D.new_placed in Hm. case_bool_decide as Hpos; [|done].
    destruct (new_placed_tables_ok W H E P) as (m' & Hm' & _ & _ & _ & _ & Hok);
      [lia..|done|].
    unfold SparseMesh2D.new_placed in Hm'.
    rewrite bool_decide_true in Hm' by done.
    by simplify_eq.
Qed.

(** ** The tables of a constructed sparse mesh *)

Example mesh_6x4_tables :
  SparseMesh2D.grid_to_npu mesh_6x4
  = [0; 1; 2; 3; 4; 5; -1; -1; 6; 7; 8; 9; -1; -1; 10; 11; 12; 13;
     -1; -1; -1; -1; 14; 15]
  ∧ SparseMesh2D.valid_npu_count mesh_6x4 = 16
  ∧ SparseMesh2D.npus_count mesh_6x4 = 16.
Proof. by vm_compute. Qed.

Example mesh_6x4_placed_tables :
  SparseMesh2D.grid_to_npu mesh_6x4_placed
  = [3; 1; 2; 4; 5; 6; -1; -1; 7; 8; 9; 10; -1; -1; 11; 12; 13; 14;
     -1; -1; -1; -1; 15; 0]
  ∧ SparseMesh2D.npu_to_grid mesh_6x4_placed
    = [(5, 3); (1, 0); (2, 0); (0, 0); (3, 0); (4, 0); (5, 0); (2, 1);
       (3, 1); (4, 1); (5, 1); (2, 2); (3, 2); (4, 2); (5, 2); (4, 3)].
Proof. by vm_compute. Qed.

Lemma mesh_6x4_constructed : Sparse.constructed mesh_6x4.
Proof. left. exists 6, 4, excluded_6x4. by vm_compute. Qed.

Lemma mesh_6x4_placed_constructed : Sparse.constructed mesh_6x4_placed.
Proof.
  right. exists 6, 4, excluded_6x4, placement_6x4. split; [|by vm_compute].
  compute_done.
Qed.

Lemma constructed_fields m :
  Sparse.constructed m →
  SparseMesh2D.npus_count m
  = SparseMesh2D.calculate_valid_npu_count (SparseMesh2D.width m)
      (SparseMesh2D.height m) (SparseMesh2D.excluded m).
Proof.
  intros [(W & H & E & Hm)|(W & H & E & P & Hnd & Hm)].
  - unfold SparseMesh2D.new in Hm. case_bool_decide as Hpos; [|done].
    destruct (new_tables_ok W H E) as (m' & Hm' & <- & <- & <- & _ & ? & _);
      [lia..|].
    unfold SparseMesh2D.new in Hm'. rewrite bool_decide_true in Hm' by done.
    by simplify_eq.
  - unfold SparseMesh2D.new_placed in Hm. case_bool_decide as Hpos; [|done].
    destruct (new_placed_tables_ok W H E P)
      as (m' & Hm' & <- & <- & <- & ? & _); [lia..|done|].
    unfold SparseMesh2D.new_placed in Hm'.
    rewrite bool_decide_true in Hm' by done.
    by simplify_eq.
Qed.

(** C3.  When either constructor of the sparse mesh returns, automatic
    numbering or custom placement over a map with distinct keys, the
    forward and the reverse table are mutual inverses: every valid
    position holds an id below [valid_npu_count] that the reverse table
    maps back to it, every id below [valid_npu_count] names a valid
    position that the forward table maps back to it, and the excluded
    positions of the grid hold the sentinel. *)
Theorem sparse_tables_bijection (m : SparseMesh2D.t) :
  Sparse.constructed m → Sparse.bijection m.
Proof. intros Hm. by apply tables_ok_bijection, constructed_tables_ok. Qed.

Lemma sparse_tables_bijection_witness : Sparse.bijection mesh_6x4_placed.
Proof.
  apply (sparse_tables_bijection mesh_6x4_placed).
  right. exists 6, 4, excluded_6x4, placement_6x4. split; [|by vm_compute].
  compute_done.
Defined.

(** C4.  For [int]s [W] and [H] whose product is an [int], the valid
    device count is [W * H] minus the number of excluded coordinates
    inside the grid, and it is an [int]; an excluded coordinate outside
    the grid does not change it; a constructed mesh has this count, as
    [valid_npu_count] and as the device count of the base topology. *)
Theorem valid_count_excludes_grid_holes :
  (∀ (W H : Z) (E : gset Coord),
     is_int W → is_int H → is_int (W * H) →
     SparseMesh2D.calculate_valid_npu_count W H E
     = W * H - Z.of_nat (size (filter (in_grid W H) E))
     ∧ is_int (SparseMesh2D.calculate_valid_npu_count W H E))
  ∧ (∀ (W H : Z) (E : gset Coord) (c : Coord),
       ¬ in_grid W H c →
       SparseMesh2D.calculate_valid_npu_count W H ({[c]} ∪ E)
       = SparseMesh2D.calculate_valid_npu_count W H E)
  ∧ (∀ m, Sparse.constructed m →
       SparseMesh2D.valid_npu_count m
       = SparseMesh2D.width m * SparseMesh2D.height m
         - Z.of_nat (size (filter (in_grid (SparseMesh2D.width m)
                                     (SparseMesh2D.height m))
                             (SparseMesh2D.excluded m)))
       ∧ SparseMesh2D.npus_count m = SparseMesh2D.valid_npu_count m).
Proof.
  split_and!.
  - intros W H E _ _ Hprod. unfold is_int, int_min, int_max in *.
    split; [apply calculate_valid_npu_count_size|].
    pose proof (calculate_valid_npu_count_size W H E) as Hsize.
    destruct (decide (0 ≤ W ∧ 0 ≤ H)) as [[HW HH]|Hneg].
    + pose proof (calculate_valid_npu_count_cells W H E HW HH).
      unfold is_int. lia.
    + assert (filter (in_grid W H) E = ∅) as Hempty.
      { apply set_eq. intros c. rewrite elem_of_filter.
        split; [|by intros ?%not_elem_of_empty].
        intros [[? ?] _]. destruct Hneg. lia. }
      rewrite Hempty, size_empty in Hsize. lia.
  - intros W H E c Hc. rewrite !calculate_valid_npu_count_size.
    rewrite filter_union_L, filter_singleton_L by apply _.
    rewrite decide_False by done. by rewrite (left_id_L ∅ (∪)).
  - intros m Hm. pose proof (constructed_fields m Hm) as Hn.
    pose proof (constructed_tables_ok m Hm) as (_ & _ & _ & _ & Heq & _).
    rewrite <- Heq, Hn. split; [|done].
    apply calculate_valid_npu_count_size.
Qed.

Lemma valid_count_excludes_grid_holes_witness :
  SparseMesh2D.calculate_valid_npu_count 6 4 excluded_6x4
  = 6 * 4 - Z.of_nat (size (filter (in_grid 6 4) excluded_6x4))
  ∧ is_int (SparseMesh2D.calculate_valid_npu_count 6 4 excluded_6x4).
Proof.
  apply (proj1 valid_count_excludes_grid_holes 6 4 excluded_6x4);
    by vm_compute.
Defined.

(** C6.  A route from a device to itself is the device alone, in the
    dense mesh and in the sparse mesh. *)
Theorem route_to_self :
  (∀ W H m src,
     Mesh2D.new W H = Some m → 0 ≤ src < Mesh2D.npus_count m →
     Mesh2D.route m src src = Some [src])
  ∧ (∀ fuel m src,
       Sparse.constructed m → 0 ≤ src < SparseMesh2D.valid_npu_count m →
       SparseMesh2D.route fuel m src src = Some [src]).
Proof.
  split.
  - intros W H m src Hm Hsrc. unfold Mesh2D.route.
    rewrite !bool_decide_true by done. by rewrite device_Some.
  - intros fuel m src Hm Hsrc.
    pose proof (constructed_tables_ok m Hm) as (_ & _ & _ & _ & Heq & _).
    unfold SparseMesh2D.route. rewrite !bool_decide_true by done.
    by rewrite device_Some by lia.
Qed.

Example route_to_self_6x4 :
  Mesh2D.route (default (Mesh2D.mk 0 0 0 []) (Mesh2D.new 4 3)) 7 7 = Some [7]
  ∧ SparseMesh2D.route 0 mesh_6x4_placed 15 15 = Some [15].
Proof. by vm_compute. Qed.

(** ** Mesh2D: the links *)

Lemma link_body_pairs W H x y s :
  Mesh2D.link_body W H x y s
  = mk_ls (ls_links s ++ link_pairs W H x y)
      (ls_count s + Z.of_nat (length (link_pairs W H x y))).
Proof.
  unfold Mesh2D.link_body, link_pairs, connect. destruct s as [links count].
  repeat case_bool_decide; simpl;
    rewrite <- ?app_assoc, ?app_nil_r; simpl; f_equal; lia.
Qed.

Lemma foldl_link_state {A} (f : A → list Link) (body : link_state → A → link_state)
    (l : list A) s :
  (∀ s a, body s a = mk_ls (ls_links s ++ f a)
                       (ls_count s + Z.of_nat (length (f a)))) →
  foldl body s l
  = mk_ls (ls_links s ++ (l ≫= f))
      (ls_count s + Z.of_nat (length (l ≫= f))).
Proof.
  intros Hbody. revert s. induction l as [|a l IH]; intros s.
  - destruct s. simpl. rewrite app_nil_r. f_equal. lia.
  - rewrite bind_cons, length_app. cbn [foldl]. rewrite IH, Hbody.
    cbn [ls_links ls_count]. rewrite <- app_assoc. f_equal. lia.
Qed.

Lemma create_links_closed_form W H :
  Mesh2D.create_links W H
  = mk_ls (y ← seqZ 0 H; x ← seqZ 0 W; link_pairs W H x y)
      (Z.of_nat (length (y ← seqZ 0 H; x ← seqZ 0 W; link_pairs W H x y))).
Proof.
  unfold Mesh2D.create_links.
  rewrite (foldl_link_state (λ y, x ← seqZ 0 W; link_pairs W H x y)); [done|].
  intros s y.
  apply (foldl_link_state (λ x, link_pairs W H x y)).
  intros s' x. apply link_body_pairs.
Qed.

Lemma length_bind_const_on {A B} (f : A → list B) (l : list A) (k : nat) :
  (∀ a, a ∈ l → length (f a) = k) → length (l ≫= f) = (length l * k)%nat.
Proof.
  induction l as [|a l IH]; intros Hf; [done|].
  rewrite bind_cons, length_app, IH, Hf; [simpl; lia|apply list_elem_of_here|].
  intros a' Ha'. apply Hf. by apply list_elem_of_further.
Qed.

Lemma length_link_row W H y :
  1 ≤ W → 0 ≤ y < H →
  Z.of_nat (length (x ← seqZ 0 W; link_pairs W H x y))
  = 2 * (W - 1) + (if bool_decide (y + 1 < H) then 2 * W else 0).
Proof.
  intros HW Hy. replace W with ((W - 1) + 1) at 1 by lia.
  rewrite seqZ_app by lia. rewrite bind_app, length_app.
  rewrite (length_bind_const_on _ _
             (if bool_decide (y + 1 < H) then 4%nat else 2%nat)).
  - rewrite (seqZ_cons _ 1), (seqZ_nil _ (Z.pred 1)) by lia.
    rewrite bind_singleton, length_seqZ. unfold link_pairs.
    rewrite (bool_decide_false (0 + (W - 1) + 1 < W)) by lia.
    case_bool_decide; simpl; lia.
  - intros x Hx%elem_of_seqZ. unfold link_pairs.
    rewrite (bool_decide_true (x + 1 < W)) by lia.
    by case_bool_decide.
Qed.

Lemma length_links W H :
  1 ≤ W → 1 ≤ H →
  Z.of_nat (length (y ← seqZ 0 H; x ← seqZ 0 W; link_pairs W H x y))
  = 2 * (W * (H - 1) + H * (W - 1)).
Proof.
  intros HW HH. replace H with ((H - 1) + 1) at 1 by lia.
  rewrite seqZ_app by lia. rewrite bind_app, length_app.
  rewrite (length_bind_const_on _ _ (Z.to_nat (4 * W - 2))).
  - rewrite (seqZ_cons _ 1), (seqZ_nil _ (Z.pred 1)) by lia.
    rewrite bind_singleton, length_seqZ.
    rewrite Nat2Z.inj_add, length_link_row by lia.
    rewrite bool_decide_false by lia. nia.
  - intros y Hy%elem_of_seqZ. apply Nat2Z.inj.
    rewrite length_link_row by lia. rewrite bool_decide_true by lia. lia.
Qed.

Lemma elem_of_link_pairs W H x y a b :
  (a, b) ∈ link_pairs W H x y ↔
  (x + 1 < W
   ∧ ((a = Mesh2D.coords_to_npu_id W x y
       ∧ b = Mesh2D.coords_to_npu_id W (x + 1) y)
      ∨ (a = Mesh2D.coords_to_npu_id W (x + 1) y
         ∧ b = Mesh2D.coords_to_npu_id W x y)))
  ∨ (y + 1 < H
     ∧ ((a = Mesh2D.coords_to_npu_id W x y
         ∧ b = Mesh2D.coords_to_npu_id W x (y + 1))
        ∨ (a = Mesh2D.coords_to_npu_id W x (y + 1)
           ∧ b = Mesh2D.coords_to_npu_id W x y))).
Proof.
  unfold link_pairs. rewrite elem_of_app.
  repeat case_bool_decide;
    rewrite ?elem_of_cons, ?elem_of_nil, ?pair_equal_spec; intuition lia.
Qed.

(** A link of position [(x, y)] joins its id, the smaller end, to the id
    of the right or of the bottom neighbour. *)
Lemma link_pairs_min W H x y a b :
  0 < W → (a, b) ∈ link_pairs W H x y →
  Z.min a b = Mesh2D.coords_to_npu_id W x y.
Proof.
  intros HW. rewrite elem_of_link_pairs. unfold Mesh2D.coords_to_npu_id.
  intros [(_ & [[-> ->]|[-> ->]])|(_ & [[-> ->]|[-> ->]])]; lia.
Qed.

Lemma NoDup_link_pairs W H x y :
  0 < W → 0 ≤ x → NoDup (link_pairs W H x y).
Proof.
  intros HW Hx. unfold link_pairs, Mesh2D.coords_to_npu_id.
  replace ((y + 1) * W) with (y * W + W) by lia.
  repeat case_bool_decide; simpl; rewrite ?app_nil_r;
    repeat (apply NoDup_cons; split;
            [rewrite ?elem_of_cons, ?elem_of_nil, ?pair_equal_spec; lia|]);
    apply NoDup_nil_2.
Qed.

Lemma NoDup_links W H :
  0 < W → NoDup (y ← seqZ 0 H; x ← seqZ 0 W; link_pairs W H x y).
Proof.
  intros HW.
  assert (∀ x y x' y' l,
            0 ≤ x < W → 0 ≤ x' < W →
            l ∈ link_pairs W H x y → l ∈ link_pairs W H x' y' →
            x = x' ∧ y = y') as Hcell.
  { intros x y x' y' [a b] Hx Hx' Hl Hl'.
    apply link_pairs_min in Hl, Hl'; [|done..].
    apply (coords_id_inj W); [done..|congruence]. }
  apply NoDup_bind; [| |apply NoDup_seqZ].
  - intros y y' l _ _ (x & Hl & Hx%elem_of_seqZ)%list_elem_of_bind
      (x' & Hl' & Hx'%elem_of_seqZ)%list_elem_of_bind.
    by destruct (Hcell x y x' y' l) as [_ ?]; [lia..|done|done|].
  - intros y _. apply NoDup_bind; [| |apply NoDup_seqZ].
    + intros x x' l Hx%elem_of_seqZ Hx'%elem_of_seqZ Hl Hl'.
      by destruct (Hcell x y x' y l) as [? _]; [lia..|done|done|].
    + intros x Hx%elem_of_seqZ. apply NoDup_link_pairs; lia.
Qed.

Lemma elem_of_links W H a b :
  0 < W →
  (a, b) ∈ (y ← seqZ 0 H; x ← seqZ 0 W; link_pairs W H x y) ↔
  ∃ c c', in_grid W H c ∧ in_grid W H c' ∧ adjacent c c'
          ∧ a = Mesh2D.coords_to_npu_id W c.1 c.2
          ∧ b = Mesh2D.coords_to_npu_id W c'.1 c'.2.
Proof.
  intros HW. rewrite list_elem_of_bind. split.
  - intros (y & (x & Hl & Hx%elem_of_seqZ)%list_elem_of_bind
              & Hy%elem_of_seqZ).
    apply elem_of_link_pairs in Hl
      as [(? & [[-> ->]|[-> ->]])|(? & [[-> ->]|[-> ->]])].
    + exists (x, y), (x + 1, y). unfold in_grid, adjacent. simpl.
      split_and!; (done || lia).
    + exists (x + 1, y), (x, y). unfold in_grid, adjacent. simpl.
      split_and!; (done || lia).
    + exists (x, y), (x, y + 1). unfold in_grid, adjacent. simpl.
      split_and!; (done || lia).
    + exists (x, y + 1), (x, y). unfold in_grid, adjacent. simpl.
      split_and!; (done || lia).
  - intros ([x y] & [x' y'] & Hc & Hc' & Hadj & -> & ->).
    unfold in_grid, adjacent in *. simpl in *.
    exists (Z.min y y'). split; [|apply elem_of_seqZ; lia].
    apply list_elem_of_bind. exists (Z.min x x').
    split; [|apply elem_of_seqZ; lia].
    apply elem_of_link_pairs.
    destruct (decide (y = y')) as [->|Hy].
    + left. split; [lia|].
      destruct (decide (x < x')); [left|right];
        split; f_equal; lia.
    + right. assert (x = x') as -> by lia. split; [lia|].
      destruct (decide (y < y')); [left|right];
        split; f_equal; lia.
Qed.

(** C7.  The constructor of the [W] x [H] dense mesh creates
    [2 * (W * (H - 1) + H * (W - 1))] directed links, which the local
    counter [link_count] also reports when that number is an [int]; no
    directed link is created twice;
    and the links are the ordered pairs of grid-adjacent positions: each
    position is joined, in both directions, to its right and to its
    bottom neighbour. *)
Theorem mesh2d_links W H :
  1 ≤ W → 1 ≤ H →
  ∃ m, Mesh2D.new W H = Some m
    ∧ Z.of_nat (length (Mesh2D.links m)) = 2 * (W * (H - 1) + H * (W - 1))
    ∧ (is_int (2 * (W * (H - 1) + H * (W - 1))) →
       ls_count (Mesh2D.create_links W H)
       = 2 * (W * (H - 1) + H * (W - 1)))
    ∧ Mesh2D.links m = (y ← seqZ 0 H; x ← seqZ 0 W; link_pairs W H x y)
    ∧ NoDup (Mesh2D.links m)
    ∧ (∀ a b, (a, b) ∈ Mesh2D.links m ↔
         ∃ c c', in_grid W H c ∧ in_grid W H c' ∧ adjacent c c'
                 ∧ a = Mesh2D.coords_to_npu_id W c.1 c.2
                 ∧ b = Mesh2D.coords_to_npu_id W c'.1 c'.2).
Proof.
  intros HW HH. unfold Mesh2D.new. rewrite bool_decide_true by lia.
  eexists. split; [done|]. simpl. rewrite create_links_closed_form. simpl.
  split_and!.
  - by apply length_links.
  - intros _. by apply length_links.
  - done.
  - apply NoDup_links. lia.
  - intros a b. apply elem_of_links. lia.
Qed.

Lemma mesh2d_links_witness :
  ∃ m, Mesh2D.new 4 3 = Some m
    ∧ Z.of_nat (length (Mesh2D.links m)) = 2 * (4 * (3 - 1) + 3 * (4 - 1))
    ∧ is_int (2 * (4 * (3 - 1) + 3 * (4 - 1)))
    ∧ ls_count (Mesh2D.create_links 4 3) = 2 * (4 * (3 - 1) + 3 * (4 - 1))
    ∧ Mesh2D.links m = (y ← seqZ 0 3; x ← seqZ 0 4; link_pairs 4 3 x y)
    ∧ NoDup (Mesh2D.links m)
    ∧ (∀ a b, (a, b) ∈ Mesh2D.links m ↔
         ∃ c c', in_grid 4 3 c ∧ in_grid 4 3 c' ∧ adjacent c c'
                 ∧ a = Mesh2D.coords_to_npu_id 4 c.1 c.2
                 ∧ b = Mesh2D.coords_to_npu_id 4 c'.1 c'.2).
Proof.
  destruct (mesh2d_links 4 3) as (m & Hm & Hlen & Hcount & Hrest); [lia..|].
  assert (is_int (2 * (4 * (3 - 1) + 3 * (4 - 1)))) as Hint by by vm_compute.
  exists m. split; [done|]. split; [done|]. split; [done|].
  split; [by apply Hcount|done].
Defined.

(** ** An empty placement is the automatic numbering *)

Lemma next_unused_range n :
  0 ≤ n → SparseMesh2D.next_unused (list_to_set (seqZ 0 n)) n = n.
Proof.
  intros Hn.
  destruct (next_unused_spec (list_to_set (seqZ 0 n)) n)
    as (Hle & _ & Hall).
  destruct (decide (SparseMesh2D.next_unused (list_to_set (seqZ 0 n)) n = n))
    as [|Hne]; [done|].
  specialize (Hall n ltac:(lia)).
  apply elem_of_list_to_set, elem_of_seqZ in Hall. lia.
Qed.

Lemma fill_scan_inv_step W H E vc pre a suf f :
  0 ≤ W → 0 ≤ H →
  vc = Z.of_nat (length (valid_cells W H E)) →
  grid_cells W H = pre ++ a :: suf → fill_scan_inv W H E vc pre f →
  ∃ f', SparseMesh2D.fill_body W E a.1 a.2 f = Some f'
        ∧ fill_scan_inv W H E vc (pre ++ [a]) f'.
Proof.
  intros HW HH Hvc Hcells (s & Hrun & Hinv & Hg & Hn & Hu & Hr).
  destruct (scan_inv_step W H E pre a suf s Hcells Hinv) as (s' & Hs' & Hinv').
  assert (for_each (pre ++ [a])
            (λ c s, SparseMesh2D.number_body W E c.1 c.2 s)
            (SparseMesh2D.mk_sc (replicate (Z.to_nat (W * H)) (-1)) [] 0)
          = Some s') as Hrun'.
  { rewrite for_each_app, Hrun. simpl. by rewrite Hs'. }
  pose proof Hinv as (Hglen & Hrev & Hcount & Hentry).
  assert (in_grid W H a) as Ha.
  { apply elem_of_grid_cells'. rewrite Hcells.
    apply elem_of_app. right. apply list_elem_of_here. }
  pose proof (grid_index_range W H a Ha) as Hidx.
  unfold SparseMesh2D.fill_body. unfold SparseMesh2D.number_body in Hs'.
  destruct (decide ((a.1, a.2) ∉ E)) as [Hvalid|Hexcl].
  - rewrite bool_decide_true in Hs' |- * by done.
    rewrite vec_set_Some in Hs' by lia. simpl in Hs'. injection Hs' as <-.
    assert (a ∉ SparseMesh2D.sc_rev s) as Hfresh.
    { rewrite Hrev, list_elem_of_filter. intros [_ Hin].
      pose proof (NoDup_grid_cells W H) as Hnd. rewrite Hcells in Hnd.
      apply NoDup_app in Hnd as (_ & Hnd & _).
      apply (Hnd a Hin). apply list_elem_of_here. }
    destruct (Hentry a Ha) as (v & Hv & [[-> _]|Hget]);
      [|by apply vec_get_elem_of in Hget].
    rewrite Hg, Hv. simpl.
    rewrite Hu, Hn, next_unused_range by lia.
    assert (SparseMesh2D.sc_count s < vc) as Hlt.
    { rewrite Hvc, Hcount, Hrev. unfold valid_cells. rewrite Hcells.
      rewrite filter_app, length_app.
      destruct a. rewrite filter_cons_True by done. simpl. lia. }
    rewrite (vec_set_Some (SparseMesh2D.sc_grid s)) by lia. simpl.
    rewrite vec_set_Some by (rewrite Hr, length_app, length_replicate; lia).
    simpl. eexists. split; [done|].
    exists (SparseMesh2D.mk_sc
              (<[Z.to_nat (SparseMesh2D.coords_to_grid_index W a.1 a.2)
                 := SparseMesh2D.sc_count s]> (SparseMesh2D.sc_grid s))
              (SparseMesh2D.sc_rev s ++ [(a.1, a.2)])
              (SparseMesh2D.sc_count s + 1)).
    split_and!; simpl; try done.
    + apply set_eq. intros i.
      rewrite elem_of_union, elem_of_singleton, !elem_of_list_to_set,
        !elem_of_seqZ. lia.
    + rewrite Hr, Hcount.
      replace (Z.to_nat (vc - Z.of_nat (length (SparseMesh2D.sc_rev s))))
        with (S (Z.to_nat (vc - (Z.of_nat (length (SparseMesh2D.sc_rev s))
                                 + 1)))) by lia.
      rewrite Nat2Z.id. simpl.
      rewrite insert_app_r_alt by lia. rewrite Nat.sub_diag. simpl.
      rewrite <- app_assoc. simpl. by destruct a.
  - rewrite bool_decide_false in Hs' |- * by done. injection Hs' as <-.
    eexists. split; [done|]. exists s. by split_and!.
Qed.

Lemma fill_scan_result W H E :
  0 ≤ W → 0 ≤ H →
  ∃ s f,
    for_grid W H (SparseMesh2D.number_body W E)
      (SparseMesh2D.mk_sc (replicate (Z.to_nat (W * H)) (-1)) [] 0) = Some s
    ∧ for_grid W H (SparseMesh2D.fill_body W E)
        (SparseMesh2D.mk_fl (replicate (Z.to_nat (W * H)) (-1))
           (replicate (Z.to_nat (Z.of_nat (length (valid_cells W H E))))
              (0, 0)) ∅ 0) = Some f
    ∧ scan_inv W H E (grid_cells W H) s
    ∧ SparseMesh2D.fl_grid f = SparseMesh2D.sc_grid s
    ∧ SparseMesh2D.fl_rev f = SparseMesh2D.sc_rev s.
Proof.
  intros HW HH. rewrite !for_grid_cells.
  set (vc := Z.of_nat (length (valid_cells W H E))).
  destruct (for_each_invariant (fill_scan_inv W H E vc) (grid_cells W H)
              (λ c s, SparseMesh2D.fill_body W E c.1 c.2 s)
              (SparseMesh2D.mk_fl (replicate (Z.to_nat (W * H)) (-1))
                 (replicate (Z.to_nat vc) (0, 0)) ∅ 0))
    as (f & Hf & s & Hs & Hinv & Hg & _ & _ & Hr).
  - eexists. split; [done|]. split; [by apply scan_inv_init|]. simpl.
    split_and!; try done. by rewrite Z.sub_0_r.
  - intros pre a suf f. by apply fill_scan_inv_step.
  - exists s, f. split_and!; try done.
    destruct Hinv as (_ & Hrev & Hcount & _). rewrite Hr, Hcount, Hrev.
    fold (valid_cells W H E). fold vc.
    by rewrite Z.sub_diag, app_nil_r.
Qed.

(** Without a valid position the scan leaves the tables untouched. *)
Lemma scan_no_valid_cell W H E :
  valid_cells W H E = [] →
  for_grid W H (SparseMesh2D.number_body W E)
    (SparseMesh2D.mk_sc (replicate (Z.to_nat (W * H)) (-1)) [] 0)
  = Some (SparseMesh2D.mk_sc (replicate (Z.to_nat (W * H)) (-1)) [] 0).
Proof.
  intros Hnone. rewrite for_grid_cells.
  destruct (for_each_invariant
              (λ _ s, s = SparseMesh2D.mk_sc
                            (replicate (Z.to_nat (W * H)) (-1)) [] 0)
              (grid_cells W H)
              (λ c s, SparseMesh2D.number_body W E c.1 c.2 s)
              (SparseMesh2D.mk_sc (replicate (Z.to_nat (W * H)) (-1)) [] 0))
    as (s & -> & ->); [done| |done].
  intros pre [x y] suf s Hcells ->. unfold SparseMesh2D.number_body. simpl.
  rewrite bool_decide_false; [eauto|]. intros Hvalid.
  assert ((x, y) ∈ valid_cells W H E) as Hin; [|by rewrite Hnone in Hin;
                                                 apply elem_of_nil in Hin].
  apply list_elem_of_filter. split; [done|]. rewrite Hcells.
  apply elem_of_app. right. apply list_elem_of_here.
Qed.

(** C10.  The custom-placement constructor given an empty placement
    returns the very mesh of the automatic-numbering constructor: the same
    forward and reverse tables, the same counts and the same links. *)
Theorem new_placed_empty_is_new (W H : Z) (E : gset Coord) :
  SparseMesh2D.new_placed W H E [] = SparseMesh2D.new W H E.
Proof.
  unfold SparseMesh2D.new_placed, SparseMesh2D.new.
  case_bool_decide as Hpos; [|done]. destruct Hpos as [HW HH].
  rewrite calculate_valid_npu_count_cells by lia.
  destruct (fill_scan_result W H E) as (s & f & Hs & Hf & Hinv & Hg & Hr);
    [lia..|].
  rewrite Hs. cbn [for_each mbind option_bind].
  cbn [SparseMesh2D.pl_grid SparseMesh2D.pl_rev SparseMesh2D.pl_used].
  destruct Hinv as (_ & Hrev & Hcount & _).
  fold (valid_cells W H E) in Hrev.
  assert ((if bool_decide
                (Z.of_nat (size (∅ : gset Z))
                 ≠ Z.of_nat (length (valid_cells W H E)))
           then for_grid W H (SparseMesh2D.fill_body W E)
                  (SparseMesh2D.mk_fl (replicate (Z.to_nat (W * H)) (-1))
                     (replicate
                        (Z.to_nat (Z.of_nat (length (valid_cells W H E))))
                        (0, 0)) ∅ 0)
           else Some (SparseMesh2D.mk_fl (replicate (Z.to_nat (W * H)) (-1))
                        (replicate
                           (Z.to_nat (Z.of_nat (length (valid_cells W H E))))
                           (0, 0)) ∅ 0))
          = Some (SparseMesh2D.mk_fl (SparseMesh2D.sc_grid s)
                    (SparseMesh2D.sc_rev s)
                    (SparseMesh2D.fl_used f) (SparseMesh2D.fl_next f)))
    as ->.
  { case_bool_decide as Hsize.
    - rewrite Hf. destruct f. simpl in *. by subst.
    - rewrite size_empty in Hsize.
      assert (valid_cells W H E = []) as Hnone.
      { apply length_zero_iff_nil. lia. }
      rewrite scan_no_valid_cell in Hs by done. injection Hs as <-.
      rewrite Hnone in *. simpl.
      pose proof Hf as Hf'.
      rewrite for_grid_cells in Hf'.
      destruct (for_each_invariant
                  (λ _ f0, f0 = SparseMesh2D.mk_fl
                                  (replicate (Z.to_nat (W * H)) (-1)) [] ∅ 0)
                  (grid_cells W H)
                  (λ c s, SparseMesh2D.fill_body W E c.1 c.2 s)
                  (SparseMesh2D.mk_fl (replicate (Z.to_nat (W * H)) (-1))
                     [] ∅ 0)) as (f0 & Hf0 & ->); [done| |].
      + intros pre [x y] suf f0 Hcells ->. unfold SparseMesh2D.fill_body.
        simpl. rewrite bool_decide_false; [eauto|]. intros Hvalid.
        assert ((x, y) ∈ valid_cells W H E) as Hin;
          [|by rewrite Hnone in Hin; apply elem_of_nil in Hin].
        apply list_elem_of_filter. split; [done|]. rewrite Hcells.
        apply elem_of_app. right. apply list_elem_of_here.
      + simpl in Hf'. rewrite Hf0 in Hf'. by injection Hf' as <-. }
  cbn [mbind option_bind SparseMesh2D.fl_grid SparseMesh2D.fl_rev].
  destruct (SparseMesh2D.create_links W H (SparseMesh2D.sc_grid s)); [|done].
  simpl. by rewrite Hcount, Hrev.
Qed.

Example new_placed_empty_6x4 :
  SparseMesh2D.new_placed 6 4 excluded_6x4 [] = Some mesh_6x4
  ∧ SparseMesh2D.new_placed 1 1 {[ (0, 0) ]} []
    = SparseMesh2D.new 1 1 {[ (0, 0) ]}.
Proof. by vm_compute. Qed.

(** ** The induced grid graph *)

Lemma is_valid_position_valid m x y :
  SparseMesh2D.is_valid_position m x y = true ↔ Sparse.valid m (x, y).
Proof.
  unfold SparseMesh2D.is_valid_position, Sparse.valid, valid_pos. simpl.
  case_bool_decide as Hb.
  - split; [done|]. intros (? & ? & _). lia.
  - rewrite bool_decide_eq_true. split; [|by intros (_ & _ & ?)].
    intros ?. split_and!; (done || lia).
Qed.

Lemma adjacent_cases (x y nx ny : Z) :
  adjacent (x, y) (nx, ny) ↔
  (nx = x + 1 ∧ ny = y + 0) ∨ (nx = x + -1 ∧ ny = y + 0)
  ∨ (nx = x + 0 ∧ ny = y + 1) ∨ (nx = x + 0 ∧ ny = y + -1).
Proof. unfold adjacent. simpl. lia. Qed.

Lemma adjacent_sym a b : adjacent a b → adjacent b a.
Proof. unfold adjacent. lia. Qed.

Lemma elem_of_get_valid_neighbors m x y n :
  n ∈ SparseMesh2D.get_valid_neighbors m x y ↔
  Sparse.valid m n ∧ adjacent (x, y) n.
Proof.
  destruct n as [nx ny]. rewrite adjacent_cases.
  rewrite <- is_valid_position_valid.
  unfold SparseMesh2D.get_valid_neighbors. simpl.
  destruct (SparseMesh2D.is_valid_position m (x + 1) (y + 0)) eqn:H1;
    destruct (SparseMesh2D.is_valid_position m (x + -1) (y + 0)) eqn:H2;
    destruct (SparseMesh2D.is_valid_position m (x + 0) (y + 1)) eqn:H3;
    destruct (SparseMesh2D.is_valid_position m (x + 0) (y + -1)) eqn:H4;
    simpl; rewrite ?elem_of_cons, ?elem_of_nil, ?pair_equal_spec;
    (split;
     [intros Hin; decompose [or and] Hin; subst; (done || tauto)
     |intros [Hv Hcase]; decompose [or and] Hcase; subst;
      first [congruence | tauto]]).
Qed.

Lemma walk_valid m a c n : Sparse.walk m a c n → Sparse.valid m c.
Proof. by destruct 1. Qed.

Lemma path_valid m l : Sparse.path m l → Forall (Sparse.valid m) l.
Proof. induction 1; [by apply Forall_singleton|by apply Forall_cons]. Qed.

Lemma path_snoc m l b c :
  Sparse.path m l → last l = Some b → Sparse.valid m c → adjacent b c →
  Sparse.path m (l ++ [c]).
Proof.
  intros Hpath. revert b. induction Hpath as [a Ha|a a' p Ha Hadj Hp IH];
    intros b Hlast Hc Hbc; simpl in *.
  - injection Hlast as ->.
    apply Sparse.path_cons; [done..|by apply Sparse.path_one].
  - apply Sparse.path_cons; [done..|]. by apply (IH b).
Qed.

Lemma path_snoc_inv m a l c :
  Sparse.path m ((a :: l) ++ [c]) →
  Sparse.path m (a :: l)
  ∧ ∃ b, last (a :: l) = Some b ∧ adjacent b c ∧ Sparse.valid m c.
Proof.
  revert a. induction l as [|d l IH]; intros a Hp; simpl in *.
  - inversion Hp as [|? ? ? Ha Hadj Hrest]; subst.
    split; [by apply Sparse.path_one|]. exists a. split_and!; [done..|].
    by inversion Hrest.
  - inversion Hp as [|? ? ? Ha Hadj Hrest]; subst.
    destruct (IH d Hrest) as (Hp' & b & Hb & ? & ?).
    split; [by apply Sparse.path_cons|]. by exists b.
Qed.

(** A path is a walk between its ends. *)
Lemma path_walk m l a b :
  Sparse.path m (a :: l) → last (a :: l) = Some b →
  Sparse.walk m a b (length l).
Proof.
  revert b. induction l as [|c l IH] using rev_ind; intros b Hp Hlast.
  - simpl in Hlast. injection Hlast as <-. constructor. by inversion Hp.
  - rewrite app_comm_cons, last_snoc in Hlast. injection Hlast as <-.
    rewrite length_app. simpl. rewrite Nat.add_1_r.
    destruct (path_snoc_inv m a l c Hp) as (Hp' & b & Hb & Hadj & Hc).
    eapply Sparse.walk_hop; [by apply IH|done..].
Qed.

(** ** Breadth-first search *)

#[local] Ltac bfs_simpl :=
  cbn [SparseMesh2D.bfs_q SparseMesh2D.bfs_parent SparseMesh2D.bfs_visited]
    in *.

Lemma q_levels_elem D k q u :
  q_levels D k q → u ∈ q → ∃ d, D !! u = Some d ∧ (k ≤ d ≤ S k)%nat.
Proof.
  intros (q1 & q2 & -> & H1 & H2) [Hu|Hu]%elem_of_app.
  - exists k. split; [by apply H1|lia].
  - exists (S k). split; [by apply H2|lia].
Qed.

Lemma bfs_inv_mono m src dest D k (P P' : Coord → Coord → Prop) s :
  (∀ u n, P u n → P' u n) →
  bfs_inv m src dest D k P s → bfs_inv m src dest D k P' s.
Proof.
  intros HP []. split; try done.
  intros u n Hu Hq Hn Hadj.
  destruct (inv_closed0 u n Hu Hq Hn Hadj); [by left|right; auto].
Qed.

Lemma bfs_inv_init m src dest :
  Sparse.valid m src → src ≠ dest →
  bfs_inv m src dest {[ src := 0%nat ]} 0 (λ _ _, False)
    (SparseMesh2D.mk_bfs [src] {[ src := (-1, -1) ]} {[ src ]}).
Proof.
  intros Hsrc Hne. split; bfs_simpl.
  - intros c. rewrite elem_of_singleton.
    rewrite <- elem_of_dom, dom_singleton_L, elem_of_singleton. done.
  - by rewrite !lookup_singleton_eq.
  - intros c d [-> _]%lookup_singleton_Some Hc. done.
  - intros c d [<- <-]%lookup_singleton_Some. by constructor.
  - exists [src], []. split_and!; [done| |].
    + intros u ->%list_elem_of_singleton. apply lookup_singleton_eq.
    + intros u Hu. by apply elem_of_nil in Hu.
  - intros u n ->%elem_of_singleton Hq. destruct Hq. apply list_elem_of_here.
  - intros u w du dw [<- <-]%lookup_singleton_Some
      [<- <-]%lookup_singleton_Some. lia.
  - intros ->%elem_of_singleton. done.
  - intros c d [<- <-]%lookup_singleton_Some. rewrite size_singleton. lia.
Qed.

(** One round of the loop over the neighbours of the dequeued [c]. *)
Lemma bfs_visit_inv m src dest D k c n rest s :
  bfs_inv m src dest D k (λ u n', u = c ∧ n' ∈ n :: rest) s →
  D !! c = Some k → Sparse.valid m n → adjacent c n →
  ∃ D', bfs_inv m src dest D' k (λ u n', u = c ∧ n' ∈ rest)
          (SparseMesh2D.bfs_visit c s n)
        ∧ D' !! c = Some k.
Proof.
  intros Hinv Hc Hn Hadj. unfold SparseMesh2D.bfs_visit.
  case_bool_decide as Hnew.
  - (* [n] is discovered now *)
    destruct Hinv as [Hdom [Hsrc0 Hsrcp] Hpar Hwalk Hq Hclosed Hedge Hdest
                        Hdepth].
    assert (D !! n = None) as HDn.
    { apply eq_None_not_Some. by rewrite <- Hdom. }
    assert (∀ u d, D !! u = Some d → n ≠ u) as Hold.
    { intros u d Hu <-. congruence. }
    assert (∀ u du, D !! u = Some du → adjacent u n → (k ≤ du ≤ S k)%nat)
      as Hnear.
    { intros u du Hu Hun.
      destruct (decide (u ∈ SparseMesh2D.bfs_q s)) as [Hin|Hout].
      - destruct (q_levels_elem _ _ _ _ Hq Hin) as (d & Hd & ?).
        by simplify_eq.
      - destruct (Hclosed u n) as [?|[-> _]]; [|done..| |].
        + apply Hdom. by rewrite Hu.
        + done.
        + simplify_eq. lia. }
    exists (<[n := S k]> D). split; [|by rewrite lookup_insert_ne by eauto].
    split; bfs_simpl.
    + intros u. rewrite elem_of_union, elem_of_singleton, Hdom.
      rewrite lookup_insert_is_Some.
      destruct (decide (n = u)); intuition congruence.
    + rewrite !lookup_insert_ne by eauto. done.
    + intros u d Hu Hne. destruct (decide (u = n)) as [->|Hun].
      * rewrite lookup_insert_eq in Hu. injection Hu as <-.
        exists c, k. rewrite lookup_insert_eq.
        rewrite lookup_insert_ne by eauto. done.
      * rewrite lookup_insert_ne in Hu by done.
        destruct (Hpar u d Hu Hne) as (p & d' & Hp & Hd' & -> & ?).
        exists p, d'. rewrite !lookup_insert_ne by eauto. done.
    + intros u d Hu. destruct (decide (u = n)) as [->|Hun].
      * rewrite lookup_insert_eq in Hu. injection Hu as <-.
        eapply Sparse.walk_hop; eauto.
      * rewrite lookup_insert_ne in Hu by done. eauto.
    + destruct Hq as (q1 & q2 & -> & H1 & H2).
      exists q1, (q2 ++ [n]). rewrite app_assoc. split_and!; [done| |].
      * intros u Hu. rewrite lookup_insert_ne by eauto. auto.
      * intros u [Hu| ->%list_elem_of_singleton]%elem_of_app.
        { rewrite lookup_insert_ne by eauto. auto. }
        { apply lookup_insert_eq. }
    + intros u n' Hu Hq' Hn' Hadj'.
      rewrite elem_of_app, list_elem_of_singleton in Hq'.
      apply elem_of_union in Hu as [->%elem_of_singleton|Hu]; [tauto|].
      destruct (Hclosed u n' Hu) as [?|[-> Hin]]; [tauto|done..| |].
      * left. apply elem_of_union. by right.
      * apply elem_of_cons in Hin as [->|Hin]; [left|by right].
        apply elem_of_union. left. by apply elem_of_singleton.
    + intros u w du dw Hu Hw Huw.
      destruct (decide (u = n)) as [->|Hun], (decide (w = n)) as [->|Hwn].
      * simplify_eq. lia.
      * rewrite lookup_insert_eq in Hu. rewrite lookup_insert_ne in Hw by done.
        injection Hu as <-.
        pose proof (Hnear w dw Hw (adjacent_sym _ _ Huw)). lia.
      * rewrite lookup_insert_eq in Hw. rewrite lookup_insert_ne in Hu by done.
        injection Hw as <-. pose proof (Hnear u du Hu Huw). lia.
      * rewrite lookup_insert_ne in Hu, Hw by done. eauto.
    + intros [->%elem_of_singleton|Hd]%elem_of_union; apply elem_of_app.
      * right. apply list_elem_of_here.
      * left. auto.
    + intros u d Hu. rewrite size_union, size_singleton
        by (apply disjoint_singleton_l; done).
      destruct (decide (u = n)) as [->|Hun].
      * rewrite lookup_insert_eq in Hu. injection Hu as <-.
        pose proof (Hdepth c k Hc). lia.
      * rewrite lookup_insert_ne in Hu by done.
        pose proof (Hdepth u d Hu). lia.
  - (* [n] was discovered before *)
    exists D. split; [|done]. destruct Hinv. split; try done.
    intros u n' Hu Hq' Hn' Hadj'.
    destruct (inv_closed0 u n' Hu Hq' Hn' Hadj') as [?|[-> Hin]]; [by left|].
    apply elem_of_cons in Hin as [->|Hin]; [left|by right].
    destruct (decide (n ∈ SparseMesh2D.bfs_visited s)); tauto.
Qed.

Lemma bfs_visit_fold_inv m src dest k c todo :
  ∀ D s,
    bfs_inv m src dest D k (λ u n', u = c ∧ n' ∈ todo) s →
    D !! c = Some k →
    (∀ n, n ∈ todo → Sparse.valid m n ∧ adjacent c n) →
    ∃ D', bfs_inv m src dest D' k (λ _ _, False)
            (foldl (SparseMesh2D.bfs_visit c) s todo).
Proof.
  induction todo as [|n rest IH]; intros D s Hinv Hc Htodo; simpl.
  - exists D. eapply bfs_inv_mono; [|done].
    intros u n [_ Hin]. by apply elem_of_nil in Hin.
  - destruct (Htodo n) as [Hn Hadj]; [apply list_elem_of_here|].
    destruct (bfs_visit_inv m src dest D k c n rest s Hinv Hc Hn Hadj)
      as (D' & Hinv' & Hc').
    apply (IH D'); [done..|]. intros n' Hn'. apply Htodo.
    by apply list_elem_of_further.
Qed.

(** Dequeuing a position other than the destination. *)
Lemma bfs_pop_inv m src dest D k c q parent visited :
  bfs_inv m src dest D k (λ _ _, False)
    (SparseMesh2D.mk_bfs (c :: q) parent visited) →
  c ≠ dest →
  ∃ k', D !! c = Some k'
        ∧ bfs_inv m src dest D k'
            (λ u n, u = c
                    ∧ n ∈ SparseMesh2D.get_valid_neighbors m c.1 c.2)
            (SparseMesh2D.mk_bfs q parent visited).
Proof.
  intros [Hdom Hsrc Hpar Hwalk Hq Hclosed Hedge Hdest Hdepth] Hne.
  bfs_simpl.
  assert (∃ k', D !! c = Some k' ∧ q_levels D k' q) as (k' & Hc & Hq').
  { destruct Hq as (q1 & q2 & Heq & H1 & H2).
    destruct q1 as [|c1 q1]; simpl in Heq.
    - subst q2. exists (S k). split; [apply H2, list_elem_of_here|].
      exists q, []. rewrite app_nil_r. split_and!; [done| |].
      + intros u Hu. by apply H2, list_elem_of_further.
      + intros u Hu. by apply elem_of_nil in Hu.
    - injection Heq as <- ->. exists k. split; [apply H1, list_elem_of_here|].
      exists q1, q2. split_and!; [done| |done].
      intros u Hu. by apply H1, list_elem_of_further. }
  exists k'. split; [done|]. split; bfs_simpl; try done.
  - intros u n Hu Hq'' Hn Hadj.
    destruct (decide (u = c)) as [->|Huc].
    + right. split; [done|]. destruct c as [cx cy].
      by apply elem_of_get_valid_neighbors.
    + destruct (Hclosed u n Hu) as [?|[]]; [|done..|by left].
      rewrite elem_of_cons. tauto.
  - intros Hd. apply Hdest, elem_of_cons in Hd as [?|?]; [congruence|done].
Qed.

(** The search grows the queue and the visited set by the same amount. *)
Lemma bfs_visit_fold_balance c todo s :
  Z.of_nat (length (SparseMesh2D.bfs_q
                      (foldl (SparseMesh2D.bfs_visit c) s todo)))
  - Z.of_nat (size (SparseMesh2D.bfs_visited
                      (foldl (SparseMesh2D.bfs_visit c) s todo)))
  = Z.of_nat (length (SparseMesh2D.bfs_q s))
    - Z.of_nat (size (SparseMesh2D.bfs_visited s)).
Proof.
  revert s. induction todo as [|n rest IH]; intros s; simpl; [done|].
  rewrite IH. unfold SparseMesh2D.bfs_visit. case_bool_decide; [|done].
  bfs_simpl. rewrite length_app, size_union, size_singleton
    by (apply disjoint_singleton_l; done). simpl. lia.
Qed.

Lemma q_levels_head_min D k c q d u du :
  q_levels D k (c :: q) → D !! c = Some d → u ∈ c :: q → D !! u = Some du →
  (d ≤ du)%nat.
Proof.
  intros (q1 & q2 & Heq & H1 & H2) Hc Hu Hdu.
  destruct q1 as [|c1 q1]; simpl in Heq.
  - subst q2. pose proof (H2 c (list_elem_of_here _ _)).
    pose proof (H2 u Hu). simplify_eq. lia.
  - injection Heq as <- Hq. pose proof (H1 c (list_elem_of_here _ _)).
    assert (u ∈ (c :: q1) ++ q2) as [Hu1|Hu2]%elem_of_app.
    { simpl. by rewrite <- Hq. }
    + pose proof (H1 u Hu1). simplify_eq. lia.
    + pose proof (H2 u Hu2). simplify_eq. lia.
Qed.

(** A walk from the source ends at a discovered position that is
    no deeper than the walk is long, unless it passes through the
    queue. *)
Lemma bfs_walk_bound m src dest D k s w n :
  bfs_inv m src dest D k (λ _ _, False) s →
  Sparse.walk m src w n →
  (∃ d, D !! w = Some d ∧ (d ≤ n)%nat)
  ∨ (∃ u d, u ∈ SparseMesh2D.bfs_q s ∧ D !! u = Some d ∧ (d < n)%nat).
Proof.
  intros Hinv. induction 1 as [Hsrc|b c n Hwalk IH Hc Hadj].
  - left. exists 0%nat. split; [apply Hinv|lia].
  - destruct IH as [(d & Hd & Hle)|(u & d & Hu & Hd & Hlt)].
    + destruct (decide (b ∈ SparseMesh2D.bfs_q s)) as [Hin|Hout].
      * right. exists b, d. split_and!; [done..|lia].
      * destruct (inv_closed _ _ _ _ _ _ _ Hinv b c) as [Hv|[]]; [|done..|].
        { apply Hinv. by rewrite Hd. }
        apply Hinv in Hv as [dc Hdc]. left. exists dc. split; [done|].
        pose proof (inv_edge _ _ _ _ _ _ _ Hinv b c d dc Hd Hdc Hadj). lia.
    + right. exists u, d. split_and!; [done..|lia].
Qed.

Lemma bfs_visited_bound m src dest D k P s :
  tables_ok m → bfs_inv m src dest D k P s →
  (size (SparseMesh2D.bfs_visited s)
   ≤ length (SparseMesh2D.npu_to_grid m))%nat.
Proof.
  intros (_ & _ & _ & _ & _ & Hnd & Hmem & _) Hinv.
  rewrite <- (size_list_to_set (C:=gset (Z * Z))) by done.
  apply subseteq_size. intros c Hc. apply elem_of_list_to_set, Hmem.
  apply Hinv in Hc as [d Hd]. eapply walk_valid. by eapply inv_walk.
Qed.

(** The reconstruction walks the parents from [c] back to the source. *)
Lemma bfs_path_spec m src dest D k P s :
  bfs_inv m src dest D k P s →
  ∀ d c acc fuel,
    D !! c = Some d → (d + 2 ≤ fuel)%nat →
    ∃ l, SparseMesh2D.bfs_path fuel (SparseMesh2D.bfs_parent s) c acc
         = Some (acc ++ l)
       ∧ length l = S d ∧ head l = Some c ∧ last l = Some src
       ∧ Sparse.path m (reverse l).
Proof.
  intros Hinv. induction d as [|d IH]; intros c acc fuel Hc Hfuel.
  - destruct (decide (c = src)) as [->|Hne].
    + destruct fuel as [|[|fuel]]; [lia..|]. simpl.
      pose proof (inv_walk _ _ _ _ _ _ _ Hinv src 0%nat Hc) as Hw.
      apply walk_valid in Hw as ([? _] & _).
      rewrite bool_decide_true by lia. unfold SparseMesh2D.map_index.
      destruct (inv_src _ _ _ _ _ _ _ Hinv) as [_ ->]. simpl.
      exists [src]. split_and!; try done.
      apply Sparse.path_one. eapply walk_valid. by eapply inv_walk.
    + by destruct (inv_parent _ _ _ _ _ _ _ Hinv c 0%nat Hc Hne)
        as (? & ? & _ & _ & ? & _).
  - assert (c ≠ src) as Hne.
    { intros ->. destruct (inv_src _ _ _ _ _ _ _ Hinv). congruence. }
    destruct (inv_parent _ _ _ _ _ _ _ Hinv c (S d) Hc Hne)
      as (p & d' & Hp & Hd' & [= <-] & Hadj).
    destruct fuel as [|fuel]; [lia|]. simpl.
    pose proof (inv_walk _ _ _ _ _ _ _ Hinv c (S d) Hc) as Hw.
    apply walk_valid in Hw as Hvalid. pose proof Hvalid as ([? _] & _).
    rewrite bool_decide_true by lia. unfold SparseMesh2D.map_index.
    rewrite Hp.
    destruct (IH p (acc ++ [c]) fuel Hd' ltac:(lia))
      as (l & -> & Hlen & Hhead & Hlast & Hpath).
    exists (c :: l). rewrite <- app_assoc. split_and!; try done.
    + simpl. by rewrite Hlen.
    + destruct l; [done|]. by rewrite last_cons_cons.
    + rewrite reverse_cons. eapply path_snoc; [done| |done..].
      rewrite last_reverse. done.
Qed.

(** Turning the positions of a path into devices. *)
Lemma path_to_route m path acc :
  tables_ok m → Forall (Sparse.valid m) path →
  ∃ ids,
    for_each path
      (λ '(px, py) route,
         npu_id ← SparseMesh2D.get_npu_at m px py;
         d ← device (SparseMesh2D.npus_count m) npu_id;
         Some (route ++ [d]))
      acc
    = Some (acc ++ ids)
    ∧ Forall2 (λ id c, 0 ≤ id < SparseMesh2D.valid_npu_count m
                       ∧ SparseMesh2D.get_npu_at m c.1 c.2 = Some id
                       ∧ SparseMesh2D.get_coords m id = Some c) ids path.
Proof.
  intros Hok Hpath. revert acc.
  induction Hpath as [|[x y] path Hc _ IH]; intros acc; simpl.
  - exists []. by rewrite app_nil_r.
  - destruct (Sparse.bij_forward m (tables_ok_bijection m Hok) x y Hc)
      as (id & Hid & Hg & Hr).
    pose proof Hok as (_ & _ & _ & _ & Hn & _).
    rewrite Hg. simpl. rewrite device_Some by lia. simpl.
    destruct (IH (acc ++ [id])) as (ids & -> & Hall).
    exists (id :: ids). rewrite <- app_assoc. split; [done|].
    by constructor.
Qed.

Lemma bfs_loop_spec m srcid cs cd pfuel :
  tables_ok m → 0 ≤ srcid < SparseMesh2D.npus_count m →
  (length (SparseMesh2D.npu_to_grid m) < pfuel)%nat →
  ∀ fuel s D k,
    bfs_inv m cs cd D k (λ _ _, False) s →
    Z.of_nat (length (SparseMesh2D.bfs_q s))
    + Z.of_nat (length (SparseMesh2D.npu_to_grid m))
    - Z.of_nat (size (SparseMesh2D.bfs_visited s)) < Z.of_nat fuel →
    ∃ r, SparseMesh2D.bfs_loop fuel pfuel m srcid cd.1 cd.2 s = Some r
         ∧ ((r = [srcid] ∧ ¬ Sparse.connected m cs cd)
            ∨ bfs_found m cs cd r).
Proof.
  intros Hok Hsrc Hpfuel.
  induction fuel as [|fuel IH]; intros s D k Hinv Hfuel.
  { pose proof (bfs_visited_bound _ _ _ _ _ _ _ Hok Hinv). lia. }
  simpl. destruct s as [q parent visited]. bfs_simpl.
  destruct q as [|[cx cy] q].
  - rewrite device_Some by done. simpl. eexists. split; [done|]. left.
    split; [done|]. intros [n Hwalk].
    destruct (bfs_walk_bound _ _ _ _ _ _ _ _ Hinv Hwalk)
      as [(d & Hd & _)|(u & _ & Hu & _)].
    + assert (cd ∈ visited) as Hv by (apply Hinv; by rewrite Hd).
      apply (inv_dest _ _ _ _ _ _ _ Hinv) in Hv. by apply elem_of_nil in Hv.
    + by apply elem_of_nil in Hu.
  - case_bool_decide as Hdest.
    + (* the destination is dequeued *)
      assert ((cx, cy) = cd) as Hcd
        by (destruct cd; simpl in *; f_equal; tauto).
      rewrite Hcd in Hinv.
      destruct (q_levels_elem _ _ _ cd (inv_queue _ _ _ _ _ _ _ Hinv))
        as (d & Hd & _); [apply list_elem_of_here|].
      pose proof (inv_depth _ _ _ _ _ _ _ Hinv cd d Hd) as Hdepth.
      pose proof (bfs_visited_bound _ _ _ _ _ _ _ Hok Hinv) as Hbound.
      bfs_simpl.
      destruct (bfs_path_spec _ _ _ _ _ _ _ Hinv d cd [] pfuel Hd ltac:(lia))
        as (l & Hl & Hlen & Hhead & Hlast & Hpath). bfs_simpl.
      replace (cd.1, cd.2) with cd by by destruct cd.
      rewrite Hl. simpl.
      destruct (path_to_route m (reverse l) [] Hok (path_valid _ _ Hpath))
        as (ids & -> & Hids). simpl.
      eexists. split; [done|]. right. exists (reverse l).
      split_and!; [done| | |done|].
      * by rewrite head_reverse.
      * by rewrite last_reverse.
      * rewrite length_reverse, Hlen. simpl. rewrite Nat.sub_0_r. split.
        { by eapply inv_walk. }
        intros n Hwalk.
        destruct (bfs_walk_bound _ _ _ _ _ _ _ _ Hinv Hwalk)
          as [(d' & Hd' & ?)|(u & du & Hu & Hdu & ?)].
        { simplify_eq. lia. }
        bfs_simpl.
        pose proof (q_levels_head_min _ _ _ _ _ _ _
                      (inv_queue _ _ _ _ _ _ _ Hinv) Hd Hu Hdu). lia.
    + (* another position is dequeued *)
      assert ((cx, cy) ≠ cd) as Hne.
      { intros <-. simpl in Hdest. tauto. }
      destruct (bfs_pop_inv _ _ _ _ _ _ _ _ _ Hinv Hne) as (k' & Hc & Hpop).
      destruct (bfs_visit_fold_inv _ _ _ _ _ _ _ _ Hpop Hc) as (D' & Hinv').
      { intros n Hn. by apply elem_of_get_valid_neighbors in Hn. }
      simpl in Hinv'. apply (IH _ D' k' Hinv').
      pose proof (bfs_visit_fold_balance (cx, cy)
                    (SparseMesh2D.get_valid_neighbors m cx cy)
                    (SparseMesh2D.mk_bfs q parent visited)) as Hbal.
      bfs_simpl. simpl in Hfuel. lia.
Qed.

(** ** The routes of the sparse mesh *)

Lemma trace_loop_Some m (r : list Z) :
  Forall (λ id, is_Some (SparseMesh2D.get_coords m id)) r →
  for_each r (λ npu_id u, _ ← SparseMesh2D.get_coords m npu_id; Some u) ()
  = Some ().
Proof.
  induction 1 as [|id r [c Hc] _ IH]; simpl; [done|]. by rewrite Hc.
Qed.

Lemma sparse_route_spec m fuel src dest cs cd :
  tables_ok m →
  0 ≤ src < SparseMesh2D.valid_npu_count m →
  0 ≤ dest < SparseMesh2D.valid_npu_count m →
  src ≠ dest →
  SparseMesh2D.get_coords m src = Some cs →
  SparseMesh2D.get_coords m dest = Some cd →
  SparseMesh2D.valid_npu_count m < Z.of_nat fuel →
  ∃ r, SparseMesh2D.route fuel m src dest = Some r
       ∧ ((r = [src] ∧ ¬ Sparse.connected m cs cd) ∨ bfs_found m cs cd r).
Proof.
  intros Hok Hsrc Hdest Hne Hcs Hcd Hfuel.
  pose proof (tables_ok_bijection m Hok) as Hbij.
  pose proof Hok as (_ & _ & _ & Hlen & Hn & _).
  destruct (Sparse.bij_backward m Hbij src Hsrc) as (sx & sy & Hvs & Hcs' & Hgs).
  destruct (Sparse.bij_backward m Hbij dest Hdest)
    as (dx & dy & Hvd & Hcd' & Hgd).
  assert (cs = (sx, sy)) as -> by congruence.
  assert (cd = (dx, dy)) as -> by congruence.
  assert ((sx, sy) ≠ (dx, dy)) as Hcne by (intros [= -> ->]; congruence).
  unfold SparseMesh2D.route, SparseMesh2D.bfs_route.
  rewrite bool_decide_true by done. rewrite bool_decide_false by done.
  rewrite Hcs, Hcd. simpl.
  destruct (bfs_loop_spec m src (sx, sy) (dx, dy) fuel Hok ltac:(lia)
              ltac:(lia) fuel
              (SparseMesh2D.mk_bfs [(sx, sy)] {[ (sx, sy) := (-1, -1) ]}
                 {[ (sx, sy) ]})
              {[ (sx, sy) := 0%nat ]} 0%nat)
    as (r & Hr & Hcase).
  - by apply bfs_inv_init.
  - cbn [SparseMesh2D.bfs_q SparseMesh2D.bfs_visited length].
    rewrite size_singleton. lia.
  - simpl in Hr. rewrite Hr. simpl. rewrite trace_loop_Some.
    + simpl. eauto.
    + destruct Hcase as [[-> _]|(path & Hids & _)].
      * apply Forall_singleton. by rewrite Hcs.
      * clear -Hids. induction Hids as [|id c r path (_ & _ & Hc) _ IH];
          constructor; [by rewrite Hc|done].
Qed.

Lemma get_coords_get_npu_at m id c :
  tables_ok m → 0 ≤ id < SparseMesh2D.valid_npu_count m →
  SparseMesh2D.get_coords m id = Some c →
  SparseMesh2D.get_npu_at m c.1 c.2 = Some id.
Proof.
  intros Hok Hid Hc.
  destruct (Sparse.bij_backward m (tables_ok_bijection m Hok) id Hid)
    as (x & y & _ & Hc' & Hg).
  by simplify_eq.
Qed.

(** C2.  In a constructed sparse mesh, for distinct devices [src] and
    [dest] whose positions [cs] and [cd] lie in the same connected
    component of the induced grid graph, [route] returns, with fuel above
    the device count, the devices of a path of that graph from [cs] to
    [cd]; it starts at [src], ends at [dest], and its hop count is the
    shortest-hop distance from [cs] to [cd]. *)
Theorem sparse_route_shortest m fuel src dest cs cd :
  Sparse.constructed m →
  0 ≤ src < SparseMesh2D.valid_npu_count m →
  0 ≤ dest < SparseMesh2D.valid_npu_count m →
  src ≠ dest →
  SparseMesh2D.get_coords m src = Some cs →
  SparseMesh2D.get_coords m dest = Some cd →
  Sparse.connected m cs cd →
  SparseMesh2D.valid_npu_count m < Z.of_nat fuel →
  ∃ r path,
    SparseMesh2D.route fuel m src dest = Some r
    ∧ Forall2 (λ id c, SparseMesh2D.get_coords m id = Some c
                       ∧ SparseMesh2D.get_npu_at m c.1 c.2 = Some id) r path
    ∧ head path = Some cs ∧ last path = Some cd
    ∧ Sparse.path m path
    ∧ Sparse.distance m cs cd (length r - 1)
    ∧ head r = Some src ∧ last r = Some dest.
Proof.
  intros Hm Hsrc Hdest Hne Hcs Hcd Hconn Hfuel.
  pose proof (constructed_tables_ok m Hm) as Hok.
  destruct (sparse_route_spec m fuel src dest cs cd) as (r & Hr & Hcase);
    [done..|].
  destruct Hcase as [[_ Hnot]|(path & Hids & Hhead & Hlast & Hpath & Hdist)];
    [done|].
  exists r, path. rewrite (Forall2_length _ _ _ Hids).
  split_and!; try done.
  - eapply Forall2_impl; [done|]. by intros id c (_ & ? & ?).
  - pose proof (get_coords_get_npu_at m src cs Hok Hsrc Hcs) as Hgs.
    destruct Hids as [|id c r path (_ & Hg & Hc) _]; [done|].
    injection Hhead as ->. simpl. f_equal. congruence.
  - pose proof (get_coords_get_npu_at m dest cd Hok Hdest Hcd) as Hgd.
    clear Hhead Hdist Hpath Hr.
    induction Hids as [|id c r path (_ & Hg & Hc) Hrest IH]; [done|].
    destruct Hrest as [|id' c' r' path' ? ?].
    + injection Hlast as ->. simpl. f_equal. congruence.
    + rewrite !last_cons_cons in *. by apply IH.
Qed.

Lemma sparse_route_shortest_witness :
  ∃ r path,
    SparseMesh2D.route 17 mesh_6x4 0 14 = Some r
    ∧ Forall2 (λ id c, SparseMesh2D.get_coords mesh_6x4 id = Some c
                       ∧ SparseMesh2D.get_npu_at mesh_6x4 c.1 c.2 = Some id)
        r path
    ∧ head path = Some (0, 0) ∧ last path = Some (4, 3)
    ∧ Sparse.path mesh_6x4 path
    ∧ Sparse.distance mesh_6x4 (0, 0) (4, 3) (length r - 1)
    ∧ head r = Some 0 ∧ last r = Some 14.
Proof.
  apply (sparse_route_shortest mesh_6x4 17 0 14 (0, 0) (4, 3)).
  - left. exists 6, 4, excluded_6x4. by vm_compute.
  - by vm_compute.
  - by vm_compute.
  - done.
  - by vm_compute.
  - by vm_compute.
  - exists 7%nat.
    apply (path_walk mesh_6x4
             [(1, 0); (2, 0); (2, 1); (2, 2); (3, 2); (4, 2); (4, 3)]).
    + repeat (apply Sparse.path_cons;
              [apply is_valid_position_valid; by vm_compute
              |unfold adjacent; simpl; lia|]).
      apply Sparse.path_one, is_valid_position_valid. by vm_compute.
    + done.
  - by vm_compute.
Defined.

Example mesh_6x4_route : SparseMesh2D.route 17 mesh_6x4 0 14
                         = Some [0; 1; 2; 3; 4; 8; 12; 14].
Proof. by vm_compute. Qed.

(** C8.  In a constructed sparse mesh, for distinct devices [src] and
    [dest] whose positions lie in different connected components of the
    induced grid graph, [route] returns, with fuel above the device count,
    the route that holds the source alone. *)
Theorem sparse_route_unreachable m fuel src dest cs cd :
  Sparse.constructed m →
  0 ≤ src < SparseMesh2D.valid_npu_count m →
  0 ≤ dest < SparseMesh2D.valid_npu_count m →
  src ≠ dest →
  SparseMesh2D.get_coords m src = Some cs →
  SparseMesh2D.get_coords m dest = Some cd →
  ¬ Sparse.connected m cs cd →
  SparseMesh2D.valid_npu_count m < Z.of_nat fuel →
  SparseMesh2D.route fuel m src dest = Some [src].
Proof.
  intros Hm Hsrc Hdest Hne Hcs Hcd Hconn Hfuel.
  pose proof (constructed_tables_ok m Hm) as Hok.
  destruct (sparse_route_spec m fuel src dest cs cd) as (r & Hr & Hcase);
    [done..|].
  destruct Hcase as [[-> _]|(path & _ & Hhead & Hlast & Hpath & _)]; [done|].
  destruct Hconn. destruct path as [|c path]; [done|].
  injection Hhead as ->. exists (length path). by apply path_walk.
Qed.

Lemma mesh_islands_separated c n :
  Sparse.walk mesh_islands (0, 0) c n → c.1 ≤ 1.
Proof.
  assert (SparseMesh2D.width mesh_islands = 5
          ∧ SparseMesh2D.height mesh_islands = 1
          ∧ SparseMesh2D.excluded mesh_islands = {[ (2, 0) ]})
    as (Hw & Hh & He) by by vm_compute.
  induction 1 as [|b c n _ IH Hc Hadj]; [simpl; lia|].
  destruct Hc as (_ & Hy & Hex). rewrite Hh in Hy. rewrite He in Hex.
  destruct b as [bx by_], c as [cx cy]. unfold adjacent in Hadj.
  simpl in *. destruct (decide (cx = 2)) as [->|]; [|lia].
  destruct Hex. apply elem_of_singleton. f_equal. lia.
Qed.

Lemma sparse_route_unreachable_witness :
  SparseMesh2D.route 5 mesh_islands 0 2 = Some [0].
Proof.
  apply (sparse_route_unreachable mesh_islands 5 0 2 (0, 0) (3, 0)).
  - left. exists 5, 1, {[ (2, 0) ]}. by vm_compute.
  - by vm_compute.
  - by vm_compute.
  - done.
  - by vm_compute.
  - by vm_compute.
  - intros [n Hwalk]. apply mesh_islands_separated in Hwalk. simpl in Hwalk.
    lia.
  - by vm_compute.
Defined.

(* ================================================================== *)
(** * Further properties of the code *)

(** ** Lists whose neighbours are related *)

Lemma consecutive_cons {A} (R : A → A → Prop) a l :
  consecutive R (a :: l) ↔
  (∀ b, head l = Some b → R a b) ∧ consecutive R l.
Proof.
  destruct l as [|b l]; simpl.
  - split; [intros _; split; [by intros ? [=]|done]|done].
  - split; intros [Hab ?]; (split; [|done]).
    + by intros ? [= <-].
    + by apply Hab.
Qed.

Lemma consecutive_app {A} (R : A → A → Prop) l1 l2 :
  consecutive R l1 → consecutive R l2 →
  (∀ a b, last l1 = Some a → head l2 = Some b → R a b) →
  consecutive R (l1 ++ l2).
Proof.
  intros H1 H2 Hjoin. induction l1 as [|a l1 IH]; [done|].
  apply consecutive_cons in H1 as [Ha H1]. rewrite <- app_comm_cons.
  apply consecutive_cons. split.
  - intros b Hb. destruct l1 as [|a' l1]; simpl in *.
    + by apply Hjoin.
    + apply Ha. done.
  - apply IH; [done|]. intros a' b Ha' Hb. apply Hjoin; [|done].
    destruct l1; [done|]. by rewrite last_cons_cons.
Qed.

Lemma consecutive_fmap {A B} (f : A → B) (R : A → A → Prop)
    (S : B → B → Prop) l :
  (∀ a b, a ∈ l → b ∈ l → R a b → S (f a) (f b)) →
  consecutive R l → consecutive S (f <$> l).
Proof.
  induction l as [|a l IH]; intros Hf Hl; [done|].
  apply consecutive_cons in Hl as [Ha Hl]. rewrite fmap_cons.
  apply consecutive_cons. split.
  - intros b Hb. destruct l as [|a' l]; [done|]. simpl in Hb.
    injection Hb as <-. apply Hf; [set_solver..|]. by apply Ha.
  - apply IH; [|done]. intros a' b' Ha' Hb'. apply Hf; set_solver.
Qed.

Lemma consecutive_impl {A} (R S : A → A → Prop) l :
  (∀ a b, R a b → S a b) → consecutive R l → consecutive S l.
Proof.
  intros HRS. induction l as [|a l IH]; [done|].
  rewrite !consecutive_cons. intros [Ha Hl]. split; auto.
Qed.

Lemma consecutive_steps a b :
  consecutive (λ u v, Z.abs (u - v) = 1) (a :: steps a b).
Proof.
  remember (Z.abs_nat (b - a)) as n eqn:Hn. revert a Hn.
  induction n as [|n IH]; intros a Hn.
  - assert (a = b) as -> by lia. by rewrite steps_same.
  - destruct (decide (a < b)).
    + rewrite steps_up by lia. split; [lia|]. apply IH. lia.
    + rewrite steps_down by lia. split; [lia|]. apply IH. lia.
Qed.

Lemma head_steps a b :
  a ≠ b → ∃ k, head (steps a b) = Some k ∧ Z.abs (a - k) = 1.
Proof.
  intros. destruct (decide (a < b)).
  - rewrite steps_up by lia. exists (a + 1). split; [done|lia].
  - rewrite steps_down by lia. exists (a - 1). split; [done|lia].
Qed.

Lemma head_steps_elem a b k :
  head (steps a b) = Some k → Z.abs (a - k) = 1 ∧ k ∈ steps a b.
Proof.
  intros Hk. destruct (decide (a = b)) as [->|Hne].
  { by rewrite steps_same in Hk. }
  destruct (head_steps a b Hne) as (k' & Hk' & Habs).
  assert (k' = k) as -> by congruence. split; [done|].
  destruct (steps a b); [done|]. injection Hk as ->. apply list_elem_of_here.
Qed.

(** ** Mesh2D: coordinates, distance and neighbours *)

(** X1.  In a mesh of width [W >= 1] and height [H >= 1] the two
    conversions are inverse to each other: an id below [W * H] decomposes
    into a position of the grid whose id it is, and the id of a position
    of the grid is below [W * H] and decomposes into that position. *)
Theorem mesh2d_coords_round_trip W H :
  1 ≤ W → 1 ≤ H →
  (∀ id, 0 ≤ id < W * H →
     ∃ x y, Mesh2D.get_2d_coords W id = (x, y)
            ∧ 0 ≤ x < W ∧ 0 ≤ y < H
            ∧ Mesh2D.coords_to_npu_id W x y = id)
  ∧ (∀ x y, 0 ≤ x < W → 0 ≤ y < H →
       0 ≤ Mesh2D.coords_to_npu_id W x y < W * H
       ∧ Mesh2D.get_2d_coords W (Mesh2D.coords_to_npu_id W x y) = (x, y)).
Proof.
  intros HW HH. split.
  - intros id Hid.
    destruct (get_2d_coords_range W H ltac:(lia) id Hid) as (-> & ? & ? & ?).
    by exists (id `mod` W), (id `div` W).
  - intros x y Hx Hy.
    pose proof (coords_id_range W H ltac:(lia) ltac:(lia) x y Hx Hy) as Hr.
    split; [done|].
    destruct (get_2d_coords_range W H ltac:(lia) _ Hr) as (-> & ? & ? & Heq).
    apply (coords_id_inj W) in Heq as [-> ->]; (done || lia).
Qed.

Lemma mesh2d_coords_round_trip_witness :
  (∀ id, 0 ≤ id < 4 * 3 →
     ∃ x y, Mesh2D.get_2d_coords 4 id = (x, y)
            ∧ 0 ≤ x < 4 ∧ 0 ≤ y < 3
            ∧ Mesh2D.coords_to_npu_id 4 x y = id)
  ∧ (∀ x y, 0 ≤ x < 4 → 0 ≤ y < 3 →
       0 ≤ Mesh2D.coords_to_npu_id 4 x y < 4 * 3
       ∧ Mesh2D.get_2d_coords 4 (Mesh2D.coords_to_npu_id 4 x y) = (x, y)).
Proof. apply (mesh2d_coords_round_trip 4 3); lia. Defined.

Lemma div_mod_eq W a b :
  0 < W → a `mod` W = b `mod` W → a `div` W = b `div` W → a = b.
Proof.
  intros HW Hm Hd.
  rewrite (Z.div_mod a W), (Z.div_mod b W) by lia. by rewrite Hm, Hd.
Qed.

(** X2.  On the devices of a dense mesh [manhattan_distance] is a metric:
    it is not negative, symmetric, zero between a device and itself only,
    and obeys the triangle inequality. *)
Theorem mesh2d_manhattan_metric W H :
  1 ≤ W → 1 ≤ H →
  ∃ m, Mesh2D.new W H = Some m ∧
    ∀ a b c, 0 ≤ a < W * H → 0 ≤ b < W * H → 0 ≤ c < W * H →
      0 ≤ Mesh2D.manhattan_distance m a b
      ∧ Mesh2D.manhattan_distance m a b = Mesh2D.manhattan_distance m b a
      ∧ (Mesh2D.manhattan_distance m a b = 0 ↔ a = b)
      ∧ Mesh2D.manhattan_distance m a c
        ≤ Mesh2D.manhattan_distance m a b + Mesh2D.manhattan_distance m b c.
Proof.
  intros HW HH.
  destruct (mesh2d_new_Some W H) as (m & Hm & Hw & _ & Hc); [lia..|].
  exists m. split; [done|]. intros a b c Ha Hb Hc'.
  rewrite !(manhattan_distance_closed_form W H m) by (done || lia).
  split_and!; [lia..| |lia]. split.
  - intros Hz. apply (div_mod_eq W); lia.
  - intros ->. lia.
Qed.

Lemma mesh2d_manhattan_metric_witness :
  ∃ m, Mesh2D.new 4 3 = Some m ∧
    ∀ a b c, 0 ≤ a < 4 * 3 → 0 ≤ b < 4 * 3 → 0 ≤ c < 4 * 3 →
      0 ≤ Mesh2D.manhattan_distance m a b
      ∧ Mesh2D.manhattan_distance m a b = Mesh2D.manhattan_distance m b a
      ∧ (Mesh2D.manhattan_distance m a b = 0 ↔ a = b)
      ∧ Mesh2D.manhattan_distance m a c
        ≤ Mesh2D.manhattan_distance m a b + Mesh2D.manhattan_distance m b c.
Proof. apply (mesh2d_manhattan_metric 4 3); lia. Defined.

Lemma mesh2d_links_adjacent W H a b :
  0 < W → 0 < H →
  (a, b) ∈ ls_links (Mesh2D.create_links W H) ↔
  0 ≤ a < W * H ∧ 0 ≤ b < W * H
  ∧ Z.abs (b `mod` W - a `mod` W) + Z.abs (b `div` W - a `div` W) = 1.
Proof.
  intros HW HH. rewrite create_links_closed_form. simpl.
  rewrite elem_of_links by done. split.
  - intros ([x y] & [x' y'] & Hc & Hc' & Hadj & -> & ->).
    unfold in_grid, adjacent in *. simpl in *.
    pose proof (coords_id_range W H HW HH x y ltac:(lia) ltac:(lia)) as Hr.
    pose proof (coords_id_range W H HW HH x' y' ltac:(lia) ltac:(lia)) as Hr'.
    destruct (get_2d_coords_range W H HW _ Hr) as (_ & ? & ? & Heq).
    destruct (get_2d_coords_range W H HW _ Hr') as (_ & ? & ? & Heq').
    apply (coords_id_inj W) in Heq as [-> ->]; [|done || lia..].
    apply (coords_id_inj W) in Heq' as [-> ->]; [|done || lia..].
    split_and!; lia.
  - intros (Ha & Hb & Hadj).
    destruct (get_2d_coords_range W H HW _ Ha) as (_ & ? & ? & Heq).
    destruct (get_2d_coords_range W H HW _ Hb) as (_ & ? & ? & Heq').
    exists (a `mod` W, a `div` W), (b `mod` W, b `div` W).
    unfold in_grid, adjacent. simpl. split_and!; (done || lia).
Qed.

(** X3.  In a dense mesh the constructor links two devices exactly when
    [are_neighbors] holds of them, in both directions: the link table
    holds [(a, b)] if and only if [a] and [b] are devices of the mesh at
    Manhattan distance one, and then it holds [(b, a)] as well. *)
Theorem mesh2d_links_are_neighbors W H :
  1 ≤ W → 1 ≤ H →
  ∃ m, Mesh2D.new W H = Some m ∧
    ∀ a b,
      ((a, b) ∈ Mesh2D.links m ↔
       0 ≤ a < W * H ∧ 0 ≤ b < W * H ∧ Mesh2D.are_neighbors m a b = true)
      ∧ ((a, b) ∈ Mesh2D.links m → (b, a) ∈ Mesh2D.links m).
Proof.
  intros HW HH. unfold Mesh2D.new. rewrite bool_decide_true by lia.
  eexists. split; [done|]. simpl. intros a b.
  rewrite !mesh2d_links_adjacent by lia. split; [|lia].
  unfold Mesh2D.are_neighbors. rewrite bool_decide_eq_true. split.
  - intros (Ha & Hb & Hadj). split; [done|]. split; [done|].
    rewrite (manhattan_distance_closed_form W H); (done || lia).
  - intros (Ha & Hb & Hadj). split; [done|]. split; [done|].
    rewrite (manhattan_distance_closed_form W H) in Hadj; (done || lia).
Qed.

Lemma mesh2d_links_are_neighbors_witness :
  ∃ m, Mesh2D.new 4 3 = Some m ∧
    ∀ a b,
      ((a, b) ∈ Mesh2D.links m ↔
       0 ≤ a < 4 * 3 ∧ 0 ≤ b < 4 * 3 ∧ Mesh2D.are_neighbors m a b = true)
      ∧ ((a, b) ∈ Mesh2D.links m → (b, a) ∈ Mesh2D.links m).
Proof. apply (mesh2d_links_are_neighbors 4 3); lia. Defined.

(** ** Mesh2D: the shape of a route *)

Lemma coords_id_mod_div W x y :
  0 < W → 0 ≤ x < W → 0 ≤ y →
  Mesh2D.coords_to_npu_id W x y `mod` W = x
  ∧ Mesh2D.coords_to_npu_id W x y `div` W = y.
Proof.
  intros HW Hx Hy.
  pose proof (coords_id_range W (y + 1) HW ltac:(lia) x y Hx ltac:(lia)) as Hr.
  destruct (get_2d_coords_range W (y + 1) HW _ Hr) as (_ & ? & ? & Heq).
  apply (coords_id_inj W) in Heq; (done || lia).
Qed.

Lemma linked_coords W H c c' :
  0 < W → in_grid W H c → in_grid W H c' → adjacent c c' →
  (Mesh2D.coords_to_npu_id W c.1 c.2, Mesh2D.coords_to_npu_id W c'.1 c'.2)
  ∈ ls_links (Mesh2D.create_links W H).
Proof.
  intros HW Hc Hc' Hadj. rewrite create_links_closed_form. simpl.
  apply elem_of_links; [done|]. by exists c, c'.
Qed.

Lemma last_cons_steps a b : last (a :: steps a b) = Some b.
Proof.
  destruct (decide (a = b)) as [->|Hne]; [by rewrite steps_same|].
  rewrite last_cons, last_steps by done. done.
Qed.

(** The route of two distinct devices follows links. *)
Lemma route_closed_form_linked W H src dest :
  0 < W → 0 < H → 0 ≤ src < W * H → 0 ≤ dest < W * H →
  consecutive (λ a b, (a, b) ∈ ls_links (Mesh2D.create_links W H))
    (src :: ((λ k, Mesh2D.coords_to_npu_id W k (src `div` W))
               <$> steps (src `mod` W) (dest `mod` W))
         ++ ((λ k, Mesh2D.coords_to_npu_id W (dest `mod` W) k)
               <$> steps (src `div` W) (dest `div` W))).
Proof.
  intros HW HH Hs Hd.
  destruct (get_2d_coords_range W H HW src Hs) as (_ & ? & ? & Hsrc).
  destruct (get_2d_coords_range W H HW dest Hd) as (_ & ? & ? & _).
  set (sx := src `mod` W) in *. set (sy := src `div` W) in *.
  set (dx := dest `mod` W) in *. set (dy := dest `div` W) in *.
  rewrite <- Hsrc at 1.
  change (consecutive (λ a b, (a, b) ∈ ls_links (Mesh2D.create_links W H))
            (((λ k, Mesh2D.coords_to_npu_id W k sy) <$> (sx :: steps sx dx))
             ++ ((λ k, Mesh2D.coords_to_npu_id W dx k) <$> steps sy dy))).
  apply consecutive_app.
  - eapply consecutive_fmap; [|apply consecutive_steps].
    intros a b Ha Hb Hab. rewrite elem_of_cons, elem_of_steps in Ha, Hb.
    cbv beta in Hab.
    apply (linked_coords W H (a, sy) (b, sy)); unfold in_grid, adjacent;
      simpl; lia.
  - pose proof (consecutive_steps sy dy) as Hy.
    apply consecutive_cons in Hy as [_ Hy].
    eapply consecutive_fmap; [|exact Hy].
    intros a b Ha Hb Hab. rewrite elem_of_steps in Ha, Hb.
    cbv beta in Hab.
    apply (linked_coords W H (dx, a) (dx, b)); unfold in_grid, adjacent;
      simpl; lia.
  - intros a b Ha Hb. rewrite fmap_last, last_cons_steps in Ha.
    injection Ha as <-.
    destruct (steps sy dy) as [|k l] eqn:Hst; [done|].
    simpl in Hb. injection Hb as <-.
    destruct (head_steps_elem sy dy k) as [Hsk Hin]; [by rewrite Hst|].
    rewrite elem_of_steps in Hin.
    apply (linked_coords W H (dx, sy) (dx, k)); unfold in_grid, adjacent;
      simpl; lia.
Qed.

(** X4.  In a dense mesh every hop of a route follows a link that the
    constructor created, and every device of the route is a device of the
    mesh. *)
Theorem mesh2d_route_follows_links W H :
  1 ≤ W → 1 ≤ H →
  ∃ m, Mesh2D.new W H = Some m ∧
    ∀ src dest, 0 ≤ src < W * H → 0 ≤ dest < W * H →
      ∃ r, Mesh2D.route m src dest = Some r
        ∧ consecutive (λ a b, (a, b) ∈ Mesh2D.links m) r
        ∧ Forall (λ id, 0 ≤ id < W * H) r.
Proof.
  intros HW HH.
  destruct (mesh2d_new_Some W H) as (m & Hm & Hw & _ & Hc); [lia..|].
  exists m. split; [done|]. intros src dest Hs Hd.
  assert (Mesh2D.links m = ls_links (Mesh2D.create_links W H)) as ->.
  { unfold Mesh2D.new in Hm. rewrite bool_decide_true in Hm by lia.
    by injection Hm as <-. }
  destruct (decide (src = dest)) as [<-|Hne].
  - exists [src]. rewrite (route_same W H m) by done.
    split_and!; [done..|]. by apply Forall_singleton.
  - eexists. rewrite (route_closed_form W H m) by (done || lia).
    split; [done|]. split; [apply route_closed_form_linked; lia|].
    destruct (get_2d_coords_range W H ltac:(lia) src Hs) as (_ & ? & ? & _).
    destruct (get_2d_coords_range W H ltac:(lia) dest Hd) as (_ & ? & ? & _).
    apply Forall_cons. split; [done|]. apply Forall_app. split.
    + apply Forall_fmap, Forall_forall. intros k Hk%elem_of_steps. simpl.
      apply (coords_id_range W H); lia.
    + apply Forall_fmap, Forall_forall. intros k Hk%elem_of_steps. simpl.
      apply (coords_id_range W H); lia.
Qed.

Lemma mesh2d_route_follows_links_witness :
  ∃ m, Mesh2D.new 4 3 = Some m ∧
    ∀ src dest, 0 ≤ src < 4 * 3 → 0 ≤ dest < 4 * 3 →
      ∃ r, Mesh2D.route m src dest = Some r
        ∧ consecutive (λ a b, (a, b) ∈ Mesh2D.links m) r
        ∧ Forall (λ id, 0 ≤ id < 4 * 3) r.
Proof. apply (mesh2d_route_follows_links 4 3); lia. Defined.

(** X5.  A dense route moves along the X dimension first: it is a run
    of devices in the row of the source that ends at the device in the
    column of the destination, followed by a run of devices in that
    column. *)
Theorem mesh2d_route_x_then_y W H :
  1 ≤ W → 1 ≤ H →
  ∃ m, Mesh2D.new W H = Some m ∧
    ∀ src dest, 0 ≤ src < W * H → 0 ≤ dest < W * H →
      ∃ r1 r2,
        Mesh2D.route m src dest = Some (r1 ++ r2)
        ∧ Forall (λ id, id `div` W = src `div` W) r1
        ∧ last r1
          = Some (Mesh2D.coords_to_npu_id W (dest `mod` W) (src `div` W))
        ∧ Forall (λ id, id `mod` W = dest `mod` W) r2.
Proof.
  intros HW HH.
  destruct (mesh2d_new_Some W H) as (m & Hm & Hw & _ & Hc); [lia..|].
  exists m. split; [done|]. intros src dest Hs Hd.
  destruct (get_2d_coords_range W H ltac:(lia) src Hs) as (_ & ? & ? & Hsrc).
  destruct (get_2d_coords_range W H ltac:(lia) dest Hd) as (_ & ? & ? & Hdst).
  destruct (decide (src = dest)) as [<-|Hne].
  - exists [src], []. rewrite (route_same W H m) by done.
    split_and!; [done| | |done].
    + by apply Forall_singleton.
    + simpl. by rewrite Hsrc.
  - exists (src :: ((λ k, Mesh2D.coords_to_npu_id W k (src `div` W))
                      <$> steps (src `mod` W) (dest `mod` W))),
      ((λ k, Mesh2D.coords_to_npu_id W (dest `mod` W) k)
         <$> steps (src `div` W) (dest `div` W)).
    rewrite (route_closed_form W H m) by (done || lia).
    split_and!; [done| | |].
    + apply Forall_cons. split; [done|].
      apply Forall_fmap, Forall_forall. intros k Hk%elem_of_steps. simpl.
      apply coords_id_mod_div; lia.
    + rewrite <- Hsrc at 1.
      change (last ((λ k, Mesh2D.coords_to_npu_id W k (src `div` W))
                      <$> (src `mod` W :: steps (src `mod` W) (dest `mod` W)))
              = Some (Mesh2D.coords_to_npu_id W (dest `mod` W)
                        (src `div` W))).
      by rewrite fmap_last, last_cons_steps.
    + apply Forall_fmap, Forall_forall. intros k Hk%elem_of_steps. simpl.
      apply coords_id_mod_div; lia.
Qed.

Lemma mesh2d_route_x_then_y_witness :
  ∃ m, Mesh2D.new 4 3 = Some m ∧
    ∀ src dest, 0 ≤ src < 4 * 3 → 0 ≤ dest < 4 * 3 →
      ∃ r1 r2,
        Mesh2D.route m src dest = Some (r1 ++ r2)
        ∧ Forall (λ id, id `div` 4 = src `div` 4) r1
        ∧ last r1
          = Some (Mesh2D.coords_to_npu_id 4 (dest `mod` 4) (src `div` 4))
        ∧ Forall (λ id, id `mod` 4 = dest `mod` 4) r2.
Proof. apply (mesh2d_route_x_then_y 4 3); lia. Defined.

(** ** SparseMesh2D: the queries *)

(** The id stored at a position of a mesh with consistent tables. *)
Lemma tables_ok_npu_at m x y :
  tables_ok m →
  ∃ v, SparseMesh2D.get_npu_at m x y = Some v
       ∧ (v = -1 ∨ 0 ≤ v < SparseMesh2D.valid_npu_count m)
       ∧ (0 ≤ v ↔ Sparse.valid m (x, y)).
Proof.
  intros Hok.
  pose proof Hok as (_ & _ & _ & Hlen & _ & _ & Hmem & Hentry).
  destruct (decide (in_grid (SparseMesh2D.width m) (SparseMesh2D.height m)
                      (x, y))) as [Hin|Hout].
  - rewrite get_npu_at_in_grid by done.
    destruct (Hentry (x, y) Hin) as (v & Hv & [[-> Hnot]|Hrev]).
    + exists (-1). split; [done|]. split; [by left|]. split; [lia|].
      intros Hvalid. by apply Hmem in Hvalid.
    + exists v. split; [done|]. pose proof (vec_get_lt _ _ _ Hrev).
      split; [right; lia|]. split; [|lia]. intros _.
      by apply Hmem, (vec_get_elem_of _ v).
  - exists (-1). unfold SparseMesh2D.get_npu_at, SparseMesh2D.npu_at.
    unfold in_grid in Hout. simpl in Hout.
    rewrite bool_decide_true by lia. split; [done|]. split; [by left|].
    split; [lia|]. intros (? & ? & _). simpl in *. lia.
Qed.

(** X6.  In a constructed sparse mesh [get_npu_at] and
    [is_valid_position] agree: at every pair of integers [get_npu_at]
    returns either the sentinel [-1] or an id below [valid_npu_count], and
    it returns an id exactly at the valid positions. *)
Theorem sparse_npu_at_valid (m : SparseMesh2D.t) :
  Sparse.constructed m →
  ∀ x y, ∃ v,
    SparseMesh2D.get_npu_at m x y = Some v
    ∧ (v = -1 ∨ 0 ≤ v < SparseMesh2D.valid_npu_count m)
    ∧ (0 ≤ v ↔ SparseMesh2D.is_valid_position m x y = true).
Proof.
  intros Hm x y.
  destruct (tables_ok_npu_at m x y (constructed_tables_ok m Hm))
    as (v & Hv & Hrange & Hiff).
  exists v. by rewrite is_valid_position_valid.
Qed.

Lemma sparse_npu_at_valid_witness :
  ∃ v,
    SparseMesh2D.get_npu_at mesh_6x4_placed 5 3 = Some v
    ∧ (v = -1 ∨ 0 ≤ v < SparseMesh2D.valid_npu_count mesh_6x4_placed)
    ∧ (0 ≤ v ↔ SparseMesh2D.is_valid_position mesh_6x4_placed 5 3 = true).
Proof.
  apply (sparse_npu_at_valid mesh_6x4_placed).
  right. exists 6, 4, excluded_6x4, placement_6x4. split; [|by vm_compute].
  compute_done.
Defined.

Lemma get_valid_neighbors_filter m x y :
  SparseMesh2D.get_valid_neighbors m x y
  = filter (λ n, SparseMesh2D.is_valid_position m n.1 n.2 = true)
      (candidates x y).
Proof.
  unfold SparseMesh2D.get_valid_neighbors, candidates. simpl.
  replace (x + -1) with (x - 1) by lia. replace (y + -1) with (y - 1) by lia.
  rewrite !Z.add_0_r.
  rewrite !filter_cons, filter_nil. simpl.
  destruct (SparseMesh2D.is_valid_position m (x + 1) y);
    destruct (SparseMesh2D.is_valid_position m (x - 1) y);
    destruct (SparseMesh2D.is_valid_position m x (y + 1));
    destruct (SparseMesh2D.is_valid_position m x (y - 1)); done.
Qed.

Lemma NoDup_candidates x y : NoDup (candidates x y).
Proof.
  unfold candidates.
  repeat (apply NoDup_cons; split;
          [rewrite ?elem_of_cons, ?elem_of_nil, ?pair_equal_spec; lia|]).
  apply NoDup_nil_2.
Qed.

(** X7.  [get_valid_neighbors] returns the positions right of, left of,
    below and above [(x, y)], in this order, that are valid; these are
    the valid positions at Manhattan distance one, each listed once, at
    most four. *)
Theorem get_valid_neighbors_spec (m : SparseMesh2D.t) (x y : Z) :
  SparseMesh2D.get_valid_neighbors m x y
  = filter (λ n, SparseMesh2D.is_valid_position m n.1 n.2 = true)
      [(x + 1, y); (x - 1, y); (x, y + 1); (x, y - 1)]
  ∧ (∀ n, n ∈ SparseMesh2D.get_valid_neighbors m x y ↔
          Sparse.valid m n ∧ adjacent (x, y) n)
  ∧ NoDup (SparseMesh2D.get_valid_neighbors m x y)
  ∧ (length (SparseMesh2D.get_valid_neighbors m x y) ≤ 4)%nat.
Proof.
  split; [apply get_valid_neighbors_filter|].
  split; [intros n; apply elem_of_get_valid_neighbors|].
  rewrite get_valid_neighbors_filter. split.
  - apply NoDup_filter, NoDup_candidates.
  - etrans; [apply length_filter|]. done.
Qed.

(** ** SparseMesh2D: the device count *)

(** X8.  The device count of a constructed sparse mesh lies between 0 and
    [width * height], it is the length of the reverse table, and it
    reaches [width * height] exactly when no excluded coordinate lies in
    the grid. *)
Theorem sparse_count_bounds (m : SparseMesh2D.t) :
  Sparse.constructed m →
  0 ≤ SparseMesh2D.valid_npu_count m
      ≤ SparseMesh2D.width m * SparseMesh2D.height m
  ∧ Z.of_nat (length (SparseMesh2D.npu_to_grid m))
    = SparseMesh2D.valid_npu_count m
  ∧ (SparseMesh2D.valid_npu_count m
     = SparseMesh2D.width m * SparseMesh2D.height m
     ↔ ∀ c, c ∈ SparseMesh2D.excluded m →
            ¬ in_grid (SparseMesh2D.width m) (SparseMesh2D.height m) c).
Proof.
  intros Hm. pose proof (constructed_fields m Hm) as Hn.
  pose proof (constructed_tables_ok m Hm)
    as (HW & HH & _ & Hlen & Heq & _).
  rewrite Heq in Hn. rewrite Hn.
  rewrite calculate_valid_npu_count_size.
  pose proof (calculate_valid_npu_count_size (SparseMesh2D.width m)
                (SparseMesh2D.height m) (SparseMesh2D.excluded m)) as Hsz.
  rewrite <- Hn, <- Hlen in Hsz.
  split_and!; [lia..| |].
  - rewrite Hlen, Hn. apply calculate_valid_npu_count_size.
  - split.
    + intros Hfull c Hc Hin.
      match type of Hfull with
      | _ - Z.of_nat (size ?X) = _ =>
          assert (size X = 0%nat) as Hz by lia;
          apply size_empty_inv in Hz; apply (not_elem_of_empty (C:=gset Coord) c);
          apply Hz
      end.
      by apply elem_of_filter.
    + intros Hnone.
      match goal with
      | |- _ - Z.of_nat (size ?X) = _ => assert (X = ∅) as ->
      end.
      { apply set_eq. intros c. rewrite elem_of_filter.
        split; [intros [? ?]; by destruct (Hnone c)|].
        intros Hc. by apply not_elem_of_empty in Hc. }
      rewrite size_empty. lia.
Qed.

Lemma sparse_count_bounds_witness :
  0 ≤ SparseMesh2D.valid_npu_count mesh_6x4
      ≤ SparseMesh2D.width mesh_6x4 * SparseMesh2D.height mesh_6x4
  ∧ Z.of_nat (length (SparseMesh2D.npu_to_grid mesh_6x4))
    = SparseMesh2D.valid_npu_count mesh_6x4
  ∧ (SparseMesh2D.valid_npu_count mesh_6x4
     = SparseMesh2D.width mesh_6x4 * SparseMesh2D.height mesh_6x4
     ↔ ∀ c, c ∈ SparseMesh2D.excluded mesh_6x4 →
            ¬ in_grid (SparseMesh2D.width mesh_6x4)
                (SparseMesh2D.height mesh_6x4) c).
Proof.
  apply (sparse_count_bounds mesh_6x4).
  left. exists 6, 4, excluded_6x4. by vm_compute.
Defined.

(** ** SparseMesh2D: the search for an unused id *)

(** X9.  The loop [while (used_npu_ids.count(next_auto_id)) next_auto_id++]
    stops at the least id not in use that is at least the id it starts
    from, after at most as many steps as there are ids in use. *)
Theorem next_unused_least (used : gset Z) (start : Z) :
  start ≤ SparseMesh2D.next_unused used start
        ≤ start + Z.of_nat (size used)
  ∧ (SparseMesh2D.next_unused used start ∉ used)
  ∧ (∀ i, start ≤ i < SparseMesh2D.next_unused used start → i ∈ used).
Proof.
  destruct (next_unused_spec used start) as (Hle & Hfresh & Hall).
  split_and!; [done| |done..].
  set (r := SparseMesh2D.next_unused used start) in *.
  assert (list_to_set (seqZ start (r - start)) ⊆ used) as Hsub.
  { intros i Hi. apply elem_of_list_to_set, elem_of_seqZ in Hi.
    apply Hall. lia. }
  apply subseteq_size in Hsub.
  rewrite size_list_to_set in Hsub by apply NoDup_seqZ.
  rewrite length_seqZ in Hsub. lia.
Qed.

(** ** SparseMesh2D: the links *)

Lemma sparse_link_body_pairs W H grid x y s :
  0 ≤ W → 0 ≤ H → length grid = Z.to_nat (W * H) →
  SparseMesh2D.link_body W H grid x y s
  = Some (mk_ls (ls_links s ++ sparse_link_pairs W H grid x y)
            (ls_count s + Z.of_nat (length (sparse_link_pairs W H grid x y)))).
Proof.
  intros ? ? Hlen.
  unfold SparseMesh2D.link_body, sparse_link_pairs, id_at, connect.
  destruct (npu_at_is_Some W H grid x y) as [v ->]; [done..|].
  destruct (npu_at_is_Some W H grid (x + 1) y) as [r ->]; [done..|].
  destruct (npu_at_is_Some W H grid x (y + 1)) as [b ->]; [done..|].
  destruct s as [links count]. simpl.
  repeat (case_bool_decide; simpl); try (exfalso; lia);
    rewrite <- ?app_assoc, ?app_nil_r; simpl; do 2 f_equal; lia.
Qed.

Lemma sparse_create_links_closed_form W H grid :
  0 ≤ W → 0 ≤ H → length grid = Z.to_nat (W * H) →
  SparseMesh2D.create_links W H grid
  = Some (mk_ls (grid_cells W H ≫= λ c, sparse_link_pairs W H grid c.1 c.2)
            (Z.of_nat (length (grid_cells W H ≫=
                                 λ c, sparse_link_pairs W H grid c.1 c.2)))).
Proof.
  intros ? ? Hlen. unfold SparseMesh2D.create_links. rewrite for_grid_cells.
  destruct (for_each_invariant
              (λ pre s, s = mk_ls (pre ≫= λ c, sparse_link_pairs W H grid c.1 c.2)
                            (Z.of_nat (length (pre ≫= λ c,
                               sparse_link_pairs W H grid c.1 c.2))))
              (grid_cells W H)
              (λ c s, SparseMesh2D.link_body W H grid c.1 c.2 s)
              (mk_ls [] 0)) as (s & -> & ->); [done| |done].
  intros pre c suf s _ ->. eexists. split.
  - by apply sparse_link_body_pairs.
  - cbn [ls_links ls_count]. rewrite bind_app, length_app. simpl.
    rewrite app_nil_r. f_equal. lia.
Qed.

Lemma constructed_links m :
  Sparse.constructed m →
  ∃ ls, SparseMesh2D.create_links (SparseMesh2D.width m)
          (SparseMesh2D.height m) (SparseMesh2D.grid_to_npu m) = Some ls
        ∧ SparseMesh2D.links m = ls_links ls.
Proof.
  intros [(W & H & E & Hm)|(W & H & E & P & Hnd & Hm)].
  - unfold SparseMesh2D.new in Hm. case_bool_decide; [|done].
    destruct (for_grid W H _ _) as [sc|]; [|done]. cbn [mbind option_bind] in Hm.
    destruct (SparseMesh2D.create_links W H _) as [ls|] eqn:Hls; [|done].
    injection Hm as <-. eauto.
  - unfold SparseMesh2D.new_placed in Hm. case_bool_decide; [|done].
    destruct (for_each P _ _) as [pl|]; [|done]. cbn [mbind option_bind] in Hm.
    match type of Hm with
    | (?o ≫= _) = _ => destruct o as [fl|]; [|done]
    end.
    cbn [mbind option_bind] in Hm.
    destruct (SparseMesh2D.create_links W H _) as [ls|] eqn:Hls; [|done].
    injection Hm as <-. eauto.
Qed.

(** Distinct valid positions hold distinct ids. *)
Lemma npu_at_inj m c d a :
  tables_ok m → Sparse.valid m c → Sparse.valid m d →
  SparseMesh2D.get_npu_at m c.1 c.2 = Some a →
  SparseMesh2D.get_npu_at m d.1 d.2 = Some a →
  c = d.
Proof.
  intros Hok Hc Hd Ha Hb.
  destruct (tables_ok_entry m c Hok Hc) as (i & _ & Hi & Hri).
  destruct (tables_ok_entry m d Hok Hd) as (j & _ & Hj & Hrj).
  destruct c as [cx cy], d as [dx dy].
  rewrite get_npu_at_in_grid in Ha by by apply valid_in_grid.
  rewrite get_npu_at_in_grid in Hb by by apply valid_in_grid.
  simpl in *. congruence.
Qed.

(** The id of a valid position. *)
Lemma id_at_valid m c :
  tables_ok m → Sparse.valid m c →
  0 ≤ id_at (SparseMesh2D.width m) (SparseMesh2D.height m)
         (SparseMesh2D.grid_to_npu m) c.1 c.2
  ∧ SparseMesh2D.get_npu_at m c.1 c.2
    = Some (id_at (SparseMesh2D.width m) (SparseMesh2D.height m)
              (SparseMesh2D.grid_to_npu m) c.1 c.2).
Proof.
  intros Hok Hc. destruct c as [x y].
  destruct (tables_ok_npu_at m x y Hok) as (v & Hv & _ & Hiff).
  unfold id_at. unfold SparseMesh2D.get_npu_at in *. simpl. rewrite Hv. simpl.
  split; [by apply Hiff|done].
Qed.

Lemma id_at_nonneg m x y :
  tables_ok m →
  0 ≤ id_at (SparseMesh2D.width m) (SparseMesh2D.height m)
         (SparseMesh2D.grid_to_npu m) x y →
  Sparse.valid m (x, y).
Proof.
  intros Hok. destruct (tables_ok_npu_at m x y Hok) as (v & Hv & _ & Hiff).
  unfold id_at. unfold SparseMesh2D.get_npu_at in Hv. rewrite Hv. simpl.
  apply Hiff.
Qed.

(** The links added at [c] join [c] with its valid right and lower
    neighbours, in both directions. *)
Lemma elem_of_sparse_link_pairs m c a b :
  tables_ok m →
  (a, b) ∈ sparse_link_pairs (SparseMesh2D.width m) (SparseMesh2D.height m)
             (SparseMesh2D.grid_to_npu m) c.1 c.2 ↔
  ∃ c', Sparse.valid m c ∧ Sparse.valid m c'
        ∧ (c' = (c.1 + 1, c.2) ∨ c' = (c.1, c.2 + 1))
        ∧ ((SparseMesh2D.get_npu_at m c.1 c.2 = Some a
            ∧ SparseMesh2D.get_npu_at m c'.1 c'.2 = Some b)
           ∨ (SparseMesh2D.get_npu_at m c.1 c.2 = Some b
              ∧ SparseMesh2D.get_npu_at m c'.1 c'.2 = Some a)).
Proof.
  intros Hok. destruct c as [x y]. simpl.
  split.
  - unfold sparse_link_pairs. case_bool_decide as Hcur; [by intros ?%elem_of_nil|].
    assert (Sparse.valid m (x, y)) as Hc by (apply id_at_nonneg; [done|]; lia).
    destruct (id_at_valid m (x, y) Hok Hc) as [_ Hidc]. simpl in Hidc.
    rewrite elem_of_app. intros [Hin|Hin].
    + case_bool_decide as Hr; [|by apply elem_of_nil in Hin].
      assert (Sparse.valid m (x + 1, y)) as Hc'
          by (apply id_at_nonneg; [done|]; lia).
      destruct (id_at_valid m (x + 1, y) Hok Hc') as [_ Hidc']. simpl in Hidc'.
      exists (x + 1, y). split_and!; [done|done|by left|]. simpl.
      rewrite !elem_of_cons, elem_of_nil, !pair_equal_spec in Hin.
      destruct Hin as [[-> ->]|[[-> ->]|[]]]; [by left|by right].
    + case_bool_decide as Hr; [|by apply elem_of_nil in Hin].
      assert (Sparse.valid m (x, y + 1)) as Hc'
          by (apply id_at_nonneg; [done|]; lia).
      destruct (id_at_valid m (x, y + 1) Hok Hc') as [_ Hidc']. simpl in Hidc'.
      exists (x, y + 1). split_and!; [done|done|by right|]. simpl.
      rewrite !elem_of_cons, elem_of_nil, !pair_equal_spec in Hin.
      destruct Hin as [[-> ->]|[[-> ->]|[]]]; [by left|by right].
  - intros (c' & Hc & Hc' & Hpos & Hids).
    destruct (id_at_valid m (x, y) Hok Hc) as [Hnn Hidc].
    destruct (id_at_valid m c' Hok Hc') as [Hnn' Hidc'].
    simpl in Hnn, Hidc.
    pose proof (valid_in_grid m c' Hc') as [? ?].
    unfold sparse_link_pairs. rewrite bool_decide_false by lia.
    rewrite elem_of_app.
    destruct Hpos as [->| ->]; simpl in *; [left|right];
      (rewrite bool_decide_true by lia);
      rewrite !elem_of_cons, !pair_equal_spec;
      destruct Hids as [[Ha Hb]|[Ha Hb]]; [left|right; left|left|right; left];
      split; congruence.
Qed.

Lemma sparse_links_closed_form m :
  Sparse.constructed m →
  SparseMesh2D.links m
  = grid_cells (SparseMesh2D.width m) (SparseMesh2D.height m) ≫=
      λ c, sparse_link_pairs (SparseMesh2D.width m) (SparseMesh2D.height m)
             (SparseMesh2D.grid_to_npu m) c.1 c.2.
Proof.
  intros Hm. destruct (constructed_links m Hm) as (ls & Hls & ->).
  destruct (constructed_tables_ok m Hm) as (HW & HH & Hlen & _).
  rewrite sparse_create_links_closed_form in Hls by (done || lia).
  by injection Hls as <-.
Qed.

Lemma elem_of_sparse_links m a b :
  Sparse.constructed m →
  (a, b) ∈ SparseMesh2D.links m ↔
  ∃ c c', Sparse.valid m c ∧ Sparse.valid m c' ∧ adjacent c c'
          ∧ SparseMesh2D.get_npu_at m c.1 c.2 = Some a
          ∧ SparseMesh2D.get_npu_at m c'.1 c'.2 = Some b.
Proof.
  intros Hm. pose proof (constructed_tables_ok m Hm) as Hok.
  rewrite (sparse_links_closed_form m Hm), list_elem_of_bind. split.
  - intros (c & (c' & Hc & Hc' & Hpos & Hids)%elem_of_sparse_link_pairs & _);
      [|done].
    assert (adjacent c c') as Hadj
        by (unfold adjacent; destruct Hpos as [-> | ->]; simpl; lia).
    destruct Hids as [[Ha Hb]|[Ha Hb]].
    + by exists c, c'.
    + exists c', c. split_and!; try done. by apply adjacent_sym.
  - intros (c & c' & Hc & Hc' & Hadj & Ha & Hb).
    destruct c as [x y], c' as [x' y']. unfold adjacent in Hadj.
    simpl in Hadj.
    assert ((x', y') = (x + 1, y) ∨ (x', y') = (x, y + 1)
            ∨ (x, y) = (x' + 1, y') ∨ (x, y) = (x', y' + 1)) as Hcase.
    { rewrite !pair_equal_spec. lia. }
    destruct Hcase as [Hcase|[Hcase|[Hcase|Hcase]]].
    + exists (x, y). split; [|by apply elem_of_grid_cells', valid_in_grid].
      apply elem_of_sparse_link_pairs; [done|]. exists (x', y'). tauto.
    + exists (x, y). split; [|by apply elem_of_grid_cells', valid_in_grid].
      apply elem_of_sparse_link_pairs; [done|]. exists (x', y'). tauto.
    + exists (x', y'). split; [|by apply elem_of_grid_cells', valid_in_grid].
      apply elem_of_sparse_link_pairs; [done|]. exists (x, y). tauto.
    + exists (x', y'). split; [|by apply elem_of_grid_cells', valid_in_grid].
      apply elem_of_sparse_link_pairs; [done|]. exists (x, y). tauto.
Qed.

Lemma id_at_inj m c d :
  tables_ok m →
  0 ≤ id_at (SparseMesh2D.width m) (SparseMesh2D.height m)
         (SparseMesh2D.grid_to_npu m) c.1 c.2 →
  id_at (SparseMesh2D.width m) (SparseMesh2D.height m)
    (SparseMesh2D.grid_to_npu m) c.1 c.2
  = id_at (SparseMesh2D.width m) (SparseMesh2D.height m)
      (SparseMesh2D.grid_to_npu m) d.1 d.2 →
  c = d.
Proof.
  intros Hok Hnn Heq. destruct c as [cx cy], d as [dx dy]. simpl in *.
  assert (Sparse.valid m (cx, cy)) as Hc by by apply id_at_nonneg.
  assert (Sparse.valid m (dx, dy)) as Hd by (apply id_at_nonneg; [done|lia]).
  destruct (id_at_valid m _ Hok Hc) as [_ Hidc].
  destruct (id_at_valid m _ Hok Hd) as [_ Hidd]. simpl in Hidc, Hidd.
  rewrite <- Heq in Hidd. by eapply (npu_at_inj m (cx, cy) (dx, dy)).
Qed.

Lemma NoDup_sparse_link_pairs m c :
  tables_ok m →
  NoDup (sparse_link_pairs (SparseMesh2D.width m) (SparseMesh2D.height m)
           (SparseMesh2D.grid_to_npu m) c.1 c.2).
Proof.
  intros Hok. destruct c as [x y]. simpl. unfold sparse_link_pairs.
  pose proof (id_at_inj m (x + 1, y) (x, y) Hok) as Hr.
  pose proof (id_at_inj m (x, y + 1) (x, y) Hok) as Hb.
  pose proof (id_at_inj m (x + 1, y) (x, y + 1) Hok) as Hrb.
  simpl in Hr, Hb, Hrb. rewrite pair_equal_spec in Hr, Hb, Hrb.
  repeat case_bool_decide; simpl;
    repeat (apply NoDup_cons; split;
      [rewrite ?elem_of_cons, ?elem_of_nil, ?pair_equal_spec; lia|]);
    apply NoDup_nil_2.
Qed.

Lemma NoDup_sparse_links m :
  Sparse.constructed m → NoDup (SparseMesh2D.links m).
Proof.
  intros Hm. pose proof (constructed_tables_ok m Hm) as Hok.
  rewrite (sparse_links_closed_form m Hm).
  apply NoDup_bind; [| |apply NoDup_grid_cells].
  - intros c1 c2 [a b] _ _
      (c1' & Hc1 & Hc1' & Hpos1 & Hids1)%elem_of_sparse_link_pairs
      (c2' & Hc2 & Hc2' & Hpos2 & Hids2)%elem_of_sparse_link_pairs;
      [|done..].
    destruct Hids1 as [[Ha1 Hb1]|[Hb1 Ha1]];
      destruct Hids2 as [[Ha2 Hb2]|[Hb2 Ha2]].
    + by apply (npu_at_inj m c1 c2 a).
    + pose proof (npu_at_inj m c1 c2' a Hok Hc1 Hc2' Ha1 Ha2).
      pose proof (npu_at_inj m c1' c2 b Hok Hc1' Hc2 Hb1 Hb2).
      destruct c1, c2. simplify_eq.
      destruct Hpos1 as [[= ? ?]|[= ? ?]]; destruct Hpos2 as [[= ? ?]|[= ? ?]];
        simpl in *; lia.
    + pose proof (npu_at_inj m c1 c2' b Hok Hc1 Hc2' Hb1 Hb2).
      pose proof (npu_at_inj m c1' c2 a Hok Hc1' Hc2 Ha1 Ha2).
      destruct c1, c2. simplify_eq.
      destruct Hpos1 as [[= ? ?]|[= ? ?]]; destruct Hpos2 as [[= ? ?]|[= ? ?]];
        simpl in *; lia.
    + by apply (npu_at_inj m c1 c2 b).
  - intros c _. by apply NoDup_sparse_link_pairs.
Qed.

(** X10.  The link table of a constructed sparse mesh holds, once each,
    the ordered pairs of ids of valid positions that are next to each
    other; with a link it holds the link back. *)
Theorem sparse_links_spec (m : SparseMesh2D.t) :
  Sparse.constructed m →
  NoDup (SparseMesh2D.links m)
  ∧ (∀ a b, (a, b) ∈ SparseMesh2D.links m ↔
       ∃ c c', Sparse.valid m c ∧ Sparse.valid m c' ∧ adjacent c c'
               ∧ SparseMesh2D.get_npu_at m c.1 c.2 = Some a
               ∧ SparseMesh2D.get_npu_at m c'.1 c'.2 = Some b)
  ∧ (∀ a b, (a, b) ∈ SparseMesh2D.links m → (b, a) ∈ SparseMesh2D.links m).
Proof.
  intros Hm. split; [by apply NoDup_sparse_links|].
  split; [intros a b; by apply elem_of_sparse_links|].
  intros a b. rewrite !elem_of_sparse_links by done.
  intros (c & c' & Hc & Hc' & Hadj & Ha & Hb). exists c', c.
  split_and!; try done. by apply adjacent_sym.
Qed.

Lemma sparse_links_spec_witness :
  NoDup (SparseMesh2D.links mesh_6x4_placed)
  ∧ (∀ a b, (a, b) ∈ SparseMesh2D.links mesh_6x4_placed ↔
       ∃ c c', Sparse.valid mesh_6x4_placed c
               ∧ Sparse.valid mesh_6x4_placed c' ∧ adjacent c c'
               ∧ SparseMesh2D.get_npu_at mesh_6x4_placed c.1 c.2 = Some a
               ∧ SparseMesh2D.get_npu_at mesh_6x4_placed c'.1 c'.2 = Some b)
  ∧ (∀ a b, (a, b) ∈ SparseMesh2D.links mesh_6x4_placed →
            (b, a) ∈ SparseMesh2D.links mesh_6x4_placed).
Proof.
  apply (sparse_links_spec mesh_6x4_placed).
  right. exists 6, 4, excluded_6x4, placement_6x4. split; [|by vm_compute].
  compute_done.
Defined.

(** ** SparseMesh2D: the shape of a route *)

Lemma consecutive_app_inv {A} (R : A → A → Prop) l1 l2 :
  consecutive R (l1 ++ l2) →
  consecutive R l1 ∧ consecutive R l2
  ∧ (∀ a b, last l1 = Some a → head l2 = Some b → R a b).
Proof.
  induction l1 as [|a l1 IH]; [by intros ?|].
  rewrite <- app_comm_cons, !consecutive_cons. intros [Ha Hrest].
  destruct (IH Hrest) as (H1 & H2 & Hjoin). split_and!; [|done..|].
  - intros b Hb. apply Ha. by destruct l1; simplify_eq/=.
  - intros a' b Hlast Hhead. destruct l1 as [|a'' l1].
    + simpl in Hlast. injection Hlast as <-. apply Ha. done.
    + rewrite last_cons_cons in Hlast. by apply Hjoin.
Qed.

Lemma consecutive_Forall2 {A B} (P : A → B → Prop) (R : B → B → Prop)
    (S : A → A → Prop) l k :
  Forall2 P l k →
  (∀ a b a' b', P a a' → P b b' → R a' b' → S a b) →
  consecutive R k → consecutive S l.
Proof.
  intros HP HRS. induction HP as [|a a' l k Ha Hl IH]; [done|].
  rewrite !consecutive_cons. intros [Hhead Hrest]. split; [|by apply IH].
  intros b Hb. destruct Hl as [|b0 b' l k Hb0 _]; [done|].
  injection Hb as <-. eapply HRS; [done..|]. by apply Hhead.
Qed.

Lemma path_iff m l :
  Sparse.path m l ↔
  l ≠ [] ∧ Forall (Sparse.valid m) l ∧ consecutive adjacent l.
Proof.
  split.
  - induction 1 as [a Ha|a b p Ha Hadj Hp (_ & Hv & Hc)].
    + split_and!; [done|by apply Forall_singleton|done].
    + split_and!; [done|by apply Forall_cons|done].
  - intros (Hne & Hv & Hc). induction l as [|a l IH]; [done|].
    apply Forall_cons in Hv as [Ha Hv]. destruct l as [|b l].
    + by apply Sparse.path_one.
    + destruct Hc as [Hab Hc]. apply Sparse.path_cons; [done..|].
      by apply IH.
Qed.

Lemma not_NoDup_split {A} `{EqDecision A} (l : list A) :
  ¬ NoDup l → ∃ l1 x l2 l3, l = l1 ++ x :: l2 ++ x :: l3.
Proof.
  induction l as [|a l IH]; intros Hnd.
  - destruct Hnd. apply NoDup_nil_2.
  - destruct (decide (a ∈ l)) as [Hin|Hnin].
    + apply list_elem_of_split in Hin as (l2 & l3 & ->).
      by exists [], a, l2, l3.
    + destruct IH as (l1 & x & l2 & l3 & ->).
      { intros Hl. apply Hnd. by apply NoDup_cons. }
      by exists (a :: l1), x, l2, l3.
Qed.

(** A path that is as short as any walk between its ends visits no
    position twice. *)
Lemma shortest_path_NoDup m p a b :
  Sparse.path m p → head p = Some a → last p = Some b →
  (∀ n, Sparse.walk m a b n → (length p - 1 ≤ n)%nat) →
  NoDup p.
Proof.
  intros Hp Ha Hb Hmin. destruct (decide (NoDup p)) as [|Hnd]; [done|].
  exfalso. apply not_NoDup_split in Hnd as (l1 & x & l2 & l3 & ->).
  apply path_iff in Hp as (_ & Hv & Hc).
  assert (Sparse.path m (l1 ++ x :: l3)) as Hp'.
  { apply path_iff. split_and!.
    - by destruct l1.
    - rewrite Forall_app, Forall_cons in Hv. rewrite Forall_app, Forall_cons.
      destruct Hv as (? & ? & Hv). rewrite Forall_app, Forall_cons in Hv.
      tauto.
    - apply consecutive_app_inv in Hc as (H1 & H2 & Hjoin).
      apply consecutive_app; [done| |done].
      rewrite app_comm_cons in H2.
      by apply consecutive_app_inv in H2 as (_ & ? & _). }
  assert (head (l1 ++ x :: l3) = Some a) as Ha'.
  { by destruct l1. }
  assert (last (l1 ++ x :: l3) = Some b) as Hb'.
  { rewrite last_app_cons, app_comm_cons, last_app_cons in Hb.
    by rewrite last_app_cons. }
  destruct (l1 ++ x :: l3) as [|a0 q] eqn:Hq; [done|].
  injection Ha' as ->.
  pose proof (Hmin _ (path_walk m q a b Hp' Hb')) as Hle.
  assert (length (l1 ++ x :: l2 ++ x :: l3)
          = (length (a :: q) + length l2 + 1)%nat) as Hlen.
  { rewrite <- Hq. rewrite !length_app. simpl. rewrite length_app. simpl. lia. }
  rewrite Hlen in Hle. simpl in Hle. lia.
Qed.

Lemma Forall2_fmap_option {A B} (f : A → option B) l k :
  Forall2 (λ a b, f a = Some b) l k → f <$> l = Some <$> k.
Proof. induction 1; [done|]. simpl. by f_equal. Qed.

(** X11.  For devices in range and fuel above the device count, [route]
    returns a route that starts at the source, holds ids below the device
    count and no id twice, and in which every device is linked to the
    next; this covers equal and unreachable devices too. *)
Theorem sparse_route_follows_links (m : SparseMesh2D.t) (fuel : nat)
    (src dest : Z) :
  Sparse.constructed m →
  0 ≤ src < SparseMesh2D.valid_npu_count m →
  0 ≤ dest < SparseMesh2D.valid_npu_count m →
  SparseMesh2D.valid_npu_count m < Z.of_nat fuel →
  ∃ r, SparseMesh2D.route fuel m src dest = Some r
       ∧ head r = Some src
       ∧ Forall (λ id, 0 ≤ id < SparseMesh2D.valid_npu_count m) r
       ∧ consecutive (λ a b, (a, b) ∈ SparseMesh2D.links m) r
       ∧ NoDup r.
Proof.
  intros Hm Hsrc Hdest Hfuel.
  pose proof (constructed_tables_ok m Hm) as Hok.
  pose proof Hok as (_ & _ & _ & _ & Hn & _).
  assert (head [src] = Some src
          ∧ Forall (λ id, 0 ≤ id < SparseMesh2D.valid_npu_count m) [src]
          ∧ consecutive (λ a b, (a, b) ∈ SparseMesh2D.links m) [src]
          ∧ NoDup [src]) as Hone.
  { split_and!; [done|by apply Forall_singleton|done|apply NoDup_singleton]. }
  destruct (decide (src = dest)) as [<-|Hne].
  { exists [src]. split; [|done]. unfold SparseMesh2D.route.
    rewrite !bool_decide_true by done. rewrite Hn. by rewrite device_Some. }
  destruct (Sparse.bij_backward m (tables_ok_bijection m Hok) src Hsrc)
    as (sx & sy & _ & Hcs & _).
  destruct (Sparse.bij_backward m (tables_ok_bijection m Hok) dest Hdest)
    as (dx & dy & _ & Hcd & _).
  destruct (sparse_route_spec m fuel src dest (sx, sy) (dx, dy))
    as (r & Hr & Hcase); [done..|].
  exists r. split; [done|].
  destruct Hcase as [[-> _]|(path & Hids & Hhead & Hlast & Hpath & Hdist)];
    [done|].
  pose proof (path_valid m path Hpath) as Hvalid.
  split_and!.
  - destruct Hids as [|id c r path (_ & Hg & _) _]; [done|].
    simpl in *. injection Hhead as ->.
    pose proof (get_coords_get_npu_at m src (sx, sy) Hok Hsrc Hcs) as Hgs.
    cbn [fst snd] in Hg, Hgs. by rewrite <- Hg, <- Hgs.
  - eapply Forall2_Forall_l; [exact Hids|].
    apply Forall_true. by intros c id (? & _).
  - apply (consecutive_Forall2 _ (λ c c', Sparse.valid m c ∧ Sparse.valid m c'
                                            ∧ adjacent c c') _ r path Hids).
    + intros a b c c' (_ & Ha & _) (_ & Hb & _) (Hc & Hc' & Hadj).
      apply elem_of_sparse_links; [done|]. by exists c, c'.
    + apply path_iff in Hpath as (_ & _ & Hc). clear -Hc Hvalid.
      induction path as [|c path IH]; [done|].
      apply Forall_cons in Hvalid as [Hvc Hvalid]. destruct path as [|c' path].
      { done. }
      destruct Hc as [Hadj Hc]. split; [|by apply IH].
      apply Forall_cons in Hvalid as [Hvc' _]. done.
  - apply (NoDup_fmap_1 (SparseMesh2D.get_coords m)).
    rewrite (Forall2_fmap_option _ r path).
    + apply NoDup_fmap_2; [apply _|].
      apply (shortest_path_NoDup m path (sx, sy) (dx, dy)); [done..|].
      apply Hdist.
    + eapply Forall2_impl; [done|]. by intros id c (_ & _ & ?).
Qed.

Lemma sparse_route_follows_links_witness :
  ∃ r, SparseMesh2D.route 30 mesh_6x4_placed 0 15 = Some r
       ∧ head r = Some 0
       ∧ Forall (λ id, 0 ≤ id < SparseMesh2D.valid_npu_count mesh_6x4_placed)
           r
       ∧ consecutive (λ a b, (a, b) ∈ SparseMesh2D.links mesh_6x4_placed) r
       ∧ NoDup r.
Proof.
  apply (sparse_route_follows_links mesh_6x4_placed 30 0 15).
  - right. exists 6, 4, excluded_6x4, placement_6x4. split; [|by vm_compute].
    compute_done.
  - by vm_compute.
  - by vm_compute.
  - by vm_compute.
Defined.

(** ** SparseMesh2D: the hop count of a route *)

Lemma walk_manhattan m a b n :
  Sparse.walk m a b n →
  Z.abs (a.1 - b.1) + Z.abs (a.2 - b.2) ≤ Z.of_nat n.
Proof.
  induction 1 as [|b c n _ IH _ Hadj]; [lia|]. unfold adjacent in Hadj. lia.
Qed.

Lemma walk_hop_left m a b c n :
  Sparse.valid m a → adjacent a b → Sparse.walk m b c n →
  Sparse.walk m a c (S n).
Proof.
  intros Ha Hab. induction 1 as [Hb|c d n _ IH Hd Hcd].
  - apply (Sparse.walk_hop m a a b); [by apply Sparse.walk_refl|done..].
  - by apply (Sparse.walk_hop m a c d).
Qed.

Lemma walk_sym m a b n : Sparse.walk m a b n → Sparse.walk m b a n.
Proof.
  induction 1 as [Ha|b c n Hab IH Hc Hbc]; [by apply Sparse.walk_refl|].
  apply (walk_hop_left m c b a); [done|by apply adjacent_sym|done].
Qed.

Lemma walk_source_valid m a b n : Sparse.walk m a b n → Sparse.valid m a.
Proof. by induction 1. Qed.

Lemma distance_sym m a b d :
  Sparse.distance m a b d → Sparse.distance m b a d.
Proof.
  intros [Hw Hmin]. split; [by apply walk_sym|].
  intros n Hn. by apply Hmin, walk_sym.
Qed.

Lemma distance_unique m a b d d' :
  Sparse.distance m a b d → Sparse.distance m a b d' → d = d'.
Proof.
  intros [Hw Hmin] [Hw' Hmin']. apply Hmin in Hw'. apply Hmin' in Hw. lia.
Qed.

(** Without holes the walk along the row and then the column exists. *)
Lemma walk_full m a b n :
  (∀ c, in_grid (SparseMesh2D.width m) (SparseMesh2D.height m) c →
        Sparse.valid m c) →
  Sparse.valid m a → Sparse.valid m b →
  Z.abs (a.1 - b.1) + Z.abs (a.2 - b.2) = Z.of_nat n →
  Sparse.walk m a b n.
Proof.
  intros Hfull Ha. revert b. induction n as [|n IH]; intros b Hb Hn.
  - assert (b = a) as -> by (destruct a, b; simpl in *; f_equal; lia).
    by apply Sparse.walk_refl.
  - pose proof (valid_in_grid m a Ha) as [? ?].
    pose proof (valid_in_grid m b Hb) as [? ?].
    destruct a as [ax ay], b as [bx by']. simpl in *.
    assert (∃ c, in_grid (SparseMesh2D.width m) (SparseMesh2D.height m) c
                 ∧ adjacent c (bx, by')
                 ∧ Z.abs (ax - c.1) + Z.abs (ay - c.2) = Z.of_nat n)
      as (c & Hc & Hadj & Hcn).
    { unfold in_grid, adjacent.
      destruct (decide (ax < bx)); [exists (bx - 1, by'); simpl; lia|].
      destruct (decide (bx < ax)); [exists (bx + 1, by'); simpl; lia|].
      destruct (decide (ay < by')); [exists (bx, by' - 1); simpl; lia|].
      exists (bx, by' + 1); simpl; lia. }
    apply (Sparse.walk_hop m _ c); [|done..]. apply IH; [by apply Hfull|done].
Qed.

(** The hop count of the route between two distinct devices. *)
Lemma sparse_route_hops m fuel src dest cs cd :
  tables_ok m →
  0 ≤ src < SparseMesh2D.valid_npu_count m →
  0 ≤ dest < SparseMesh2D.valid_npu_count m →
  src ≠ dest →
  SparseMesh2D.get_coords m src = Some cs →
  SparseMesh2D.get_coords m dest = Some cd →
  SparseMesh2D.valid_npu_count m < Z.of_nat fuel →
  ∃ r, SparseMesh2D.route fuel m src dest = Some r
       ∧ (1 ≤ length r)%nat
       ∧ ((length r = 1%nat ∧ ¬ Sparse.connected m cs cd)
          ∨ Sparse.distance m cs cd (length r - 1)).
Proof.
  intros Hok Hsrc Hdest Hne Hcs Hcd Hfuel.
  destruct (sparse_route_spec m fuel src dest cs cd) as (r & Hr & Hcase);
    [done..|].
  exists r. split; [done|].
  destruct Hcase as [[-> Hnot]|(path & Hids & Hhead & _ & _ & Hdist)].
  - split; [done|by left].
  - rewrite (Forall2_length _ _ _ Hids). split; [|by right].
    destruct path; [done|simpl; lia].
Qed.

(** X12.  The route between two devices of a constructed sparse mesh
    whose positions are connected has at least as many hops as the
    Manhattan distance of the positions, and exactly as many when no
    excluded coordinate lies in the grid. *)
Theorem sparse_route_hops_manhattan (m : SparseMesh2D.t) (fuel : nat)
    (src dest : Z) (cs cd : Coord) :
  Sparse.constructed m →
  0 ≤ src < SparseMesh2D.valid_npu_count m →
  0 ≤ dest < SparseMesh2D.valid_npu_count m →
  SparseMesh2D.get_coords m src = Some cs →
  SparseMesh2D.get_coords m dest = Some cd →
  SparseMesh2D.valid_npu_count m < Z.of_nat fuel →
  ∃ r, SparseMesh2D.route fuel m src dest = Some r
       ∧ (Sparse.connected m cs cd →
          Z.abs (cs.1 - cd.1) + Z.abs (cs.2 - cd.2)
          ≤ Z.of_nat (length r) - 1)
       ∧ ((∀ c, c ∈ SparseMesh2D.excluded m →
                ¬ in_grid (SparseMesh2D.width m) (SparseMesh2D.height m) c) →
          Z.of_nat (length r) - 1
          = Z.abs (cs.1 - cd.1) + Z.abs (cs.2 - cd.2)).
Proof.
  intros Hm Hsrc Hdest Hcs Hcd Hfuel.
  pose proof (constructed_tables_ok m Hm) as Hok.
  pose proof Hok as (_ & _ & _ & _ & Hn & _).
  destruct (decide (src = dest)) as [<-|Hne].
  { exists [src]. split.
    - unfold SparseMesh2D.route.
      rewrite !bool_decide_true by done. rewrite Hn. by rewrite device_Some.
    - assert (cd = cs) as -> by congruence. simpl. split; intros; lia. }
  destruct (sparse_route_hops m fuel src dest cs cd)
    as (r & Hr & Hpos & Hcase); [done..|].
  exists r. split; [done|].
  destruct (Sparse.bij_backward m (tables_ok_bijection m Hok) src Hsrc)
    as (sx & sy & Hvs & Hcs' & _).
  destruct (Sparse.bij_backward m (tables_ok_bijection m Hok) dest Hdest)
    as (dx & dy & Hvd & Hcd' & _).
  assert (cs = (sx, sy)) as -> by congruence.
  assert (cd = (dx, dy)) as -> by congruence.
  split.
  - intros Hconn. destruct Hcase as [[_ Hnot]|[Hw _]]; [done|].
    apply walk_manhattan in Hw. lia.
  - intros Hnone.
    assert (Sparse.walk m (sx, sy) (dx, dy)
              (Z.to_nat (Z.abs (sx - dx) + Z.abs (sy - dy)))) as Hfull.
    { apply walk_full; [|done..|simpl; lia].
      intros c Hin. pose proof Hin as [[? ?] [? ?]].
      unfold Sparse.valid, valid_pos. split_and!; [done..|]. intros Hc.
      by apply (Hnone c Hc). }
    destruct Hcase as [[_ Hnot]|[Hw Hmin]]; [destruct Hnot; by eexists|].
    apply walk_manhattan in Hw. apply Hmin in Hfull. simpl in *. lia.
Qed.

Lemma sparse_route_hops_manhattan_witness :
  ∃ r, SparseMesh2D.route 17 mesh_6x4 0 14 = Some r
       ∧ (Sparse.connected mesh_6x4 (0, 0) (4, 3) →
          Z.abs ((0, 0).1 - (4, 3).1) + Z.abs ((0, 0).2 - (4, 3).2)
          ≤ Z.of_nat (length r) - 1)
       ∧ ((∀ c, c ∈ SparseMesh2D.excluded mesh_6x4 →
                ¬ in_grid (SparseMesh2D.width mesh_6x4)
                    (SparseMesh2D.height mesh_6x4) c) →
          Z.of_nat (length r) - 1
          = Z.abs ((0, 0).1 - (4, 3).1) + Z.abs ((0, 0).2 - (4, 3).2)).
Proof.
  apply (sparse_route_hops_manhattan mesh_6x4 17 0 14 (0, 0) (4, 3)).
  - left. exists 6, 4, excluded_6x4. by vm_compute.
  - by vm_compute.
  - by vm_compute.
  - by vm_compute.
  - by vm_compute.
  - by vm_compute.
Defined.

(** X13.  The routes from [src] to [dest] and from [dest] to [src] of a
    constructed sparse mesh have the same number of devices. *)
Theorem sparse_route_length_sym (m : SparseMesh2D.t) (fuel : nat)
    (src dest : Z) :
  Sparse.constructed m →
  0 ≤ src < SparseMesh2D.valid_npu_count m →
  0 ≤ dest < SparseMesh2D.valid_npu_count m →
  SparseMesh2D.valid_npu_count m < Z.of_nat fuel →
  ∃ r r', SparseMesh2D.route fuel m src dest = Some r
          ∧ SparseMesh2D.route fuel m dest src = Some r'
          ∧ length r = length r' ∧ (1 ≤ length r)%nat.
Proof.
  intros Hm Hsrc Hdest Hfuel.
  pose proof (constructed_tables_ok m Hm) as Hok.
  pose proof Hok as (_ & _ & _ & _ & Hn & _).
  destruct (decide (src = dest)) as [<-|Hne].
  { exists [src], [src]. split_and!; [| |done..];
      unfold SparseMesh2D.route;
      rewrite !bool_decide_true by done; rewrite Hn; by rewrite device_Some. }
  destruct (Sparse.bij_backward m (tables_ok_bijection m Hok) src Hsrc)
    as (sx & sy & Hvs & Hcs & _).
  destruct (Sparse.bij_backward m (tables_ok_bijection m Hok) dest Hdest)
    as (dx & dy & Hvd & Hcd & _).
  destruct (sparse_route_hops m fuel src dest (sx, sy) (dx, dy))
    as (r & Hr & Hpos & Hcase); [done..|].
  destruct (sparse_route_hops m fuel dest src (dx, dy) (sx, sy))
    as (r' & Hr' & Hpos' & Hcase'); [done..|].
  exists r, r'. split_and!; [done..| |done].
  - destruct Hcase as [[Hlen Hnot]|Hd]; destruct Hcase' as [[Hlen' Hnot']|Hd'].
    + lia.
    + destruct Hnot. destruct Hd' as [Hw _]. eexists. by apply walk_sym.
    + destruct Hnot'. destruct Hd as [Hw _]. eexists. by apply walk_sym.
    + apply distance_sym in Hd'.
      pose proof (distance_unique _ _ _ _ _ Hd Hd') as Heq. lia.
Qed.

Lemma sparse_route_length_sym_witness :
  ∃ r r', SparseMesh2D.route 17 mesh_6x4 0 14 = Some r
          ∧ SparseMesh2D.route 17 mesh_6x4 14 0 = Some r'
          ∧ length r = length r' ∧ (1 ≤ length r)%nat.
Proof.
  apply (sparse_route_length_sym mesh_6x4 17 0 14).
  - left. exists 6, 4, excluded_6x4. by vm_compute.
  - by vm_compute.
  - by vm_compute.
  - by vm_compute.
Defined.

(** ** SparseMesh2D: custom placement *)

(** Writing another id at a position without id keeps an assignment. *)
Lemma assigned_insert W H grid rev c id c0 id0 v0 :
  assigned W grid rev c id → 0 ≤ id →
  in_grid W H c → in_grid W H c0 → 0 ≤ id0 → id0 ≠ id →
  vec_get grid (SparseMesh2D.coords_to_grid_index W c0.1 c0.2) = Some v0 →
  v0 < 0 →
  assigned W
    (<[Z.to_nat (SparseMesh2D.coords_to_grid_index W c0.1 c0.2) := id0]> grid)
    (<[Z.to_nat id0 := c0]> rev) c id.
Proof.
  intros [Hg Hr] Hid Hc Hc0 Hid0 Hne Hv0 Hneg.
  pose proof (grid_index_range W H c Hc).
  pose proof (grid_index_range W H c0 Hc0).
  split.
  - rewrite vec_get_insert_ne; [done|lia..|]. intros Heq.
    rewrite Heq in Hv0. rewrite Hg in Hv0. injection Hv0. lia.
  - rewrite vec_get_insert_ne; [done|lia..].
Qed.

Lemma assign_inv_used W H E vc grid rev used c id :
  assign_inv W H E vc grid rev used → in_grid W H c → 0 ≤ id →
  vec_get grid (SparseMesh2D.coords_to_grid_index W c.1 c.2) = Some id →
  id ∈ used.
Proof.
  intros (_ & _ & _ & Hfwd & _) Hc Hid Hg.
  destruct (Hfwd c Hc) as (v & Hv & [->|(Hin & _)]); [|congruence].
  rewrite Hg in Hv. injection Hv. lia.
Qed.

Lemma place_step_assigned W H E vc placement pre a suf s s' c id :
  NoDup placement.*1 → placement = pre ++ a :: suf →
  place_inv W H E vc pre s →
  SparseMesh2D.place_body W H E vc a s = Some s' →
  in_grid W H c → 0 ≤ id →
  assigned W (SparseMesh2D.pl_grid s) (SparseMesh2D.pl_rev s) c id →
  assigned W (SparseMesh2D.pl_grid s') (SparseMesh2D.pl_rev s') c id.
Proof.
  intros Hnd -> [Hinv Hpre] Hbody Hc Hid Hass.
  destruct a as [[x y] aid]. unfold SparseMesh2D.place_body in Hbody.
  case_bool_decide as Hbounds; [by simplify_eq|].
  case_bool_decide as Hexcl; [by simplify_eq|].
  case_bool_decide as Hrange; [by simplify_eq|].
  case_bool_decide as Hdup; [by simplify_eq|].
  assert (in_grid W H (x, y)) as Hxy by (unfold in_grid; simpl; lia).
  assert (unassigned W (SparseMesh2D.pl_grid s) (x, y)) as Hun.
  { apply Hpre; [done|].
    rewrite fmap_app, fmap_cons in Hnd. simpl in Hnd.
    apply NoDup_app in Hnd as (_ & Hnd & _). intros Hin.
    apply (Hnd _ Hin). apply list_elem_of_here. }
  pose proof Hinv as (Hglen & Hrlen & _).
  pose proof (grid_index_range W H (x, y) Hxy) as Hidx. simpl in Hidx.
  rewrite vec_set_Some in Hbody by lia. simpl in Hbody.
  rewrite vec_set_Some in Hbody by lia. simpl in Hbody.
  injection Hbody as <-. simpl.
  apply (assigned_insert W H _ _ c id (x, y) aid (-1)); [done..|lia| |done|lia].
  intros ->. apply Hdup.
  apply (assign_inv_used W H E vc _ _ _ c id Hinv); [done..|]. apply Hass.
Qed.

Lemma fill_step_assigned W H E vc a s s' c id :
  assign_inv W H E vc (SparseMesh2D.fl_grid s) (SparseMesh2D.fl_rev s)
    (SparseMesh2D.fl_used s) →
  0 ≤ SparseMesh2D.fl_next s →
  SparseMesh2D.fill_body W E a.1 a.2 s = Some s' →
  in_grid W H a → in_grid W H c → 0 ≤ id →
  assigned W (SparseMesh2D.fl_grid s) (SparseMesh2D.fl_rev s) c id →
  assigned W (SparseMesh2D.fl_grid s') (SparseMesh2D.fl_rev s') c id.
Proof.
  intros Hinv Hnext Hbody Ha Hc Hid Hass. destruct a as [x y].
  unfold SparseMesh2D.fill_body in Hbody. cbn [fst snd] in Hbody.
  case_bool_decide as Hexcl; [|by simplify_eq].
  destruct (vec_get (SparseMesh2D.fl_grid s) _) as [v|] eqn:Hv; [|done].
  simpl in Hbody. case_bool_decide as Hneg; [|by simplify_eq].
  destruct (next_unused_spec (SparseMesh2D.fl_used s)
              (SparseMesh2D.fl_next s)) as (Hle & Hfresh & _).
  destruct (vec_set (SparseMesh2D.fl_grid s) _ _) as [g|] eqn:Hg; [|done].
  simpl in Hbody.
  destruct (vec_set (SparseMesh2D.fl_rev s) _ _) as [r|] eqn:Hr; [|done].
  simpl in Hbody. injection Hbody as <-. simpl.
  unfold vec_set in Hg, Hr.
  case_bool_decide; [|done]. case_bool_decide; [|done].
  injection Hg as <-. injection Hr as <-.
  apply (assigned_insert W H _ _ c id (x, y) _ v); [done..|lia| |done|done].
  intros Heq. apply Hfresh. rewrite Heq.
  apply (assign_inv_used W H E vc _ _ _ c id Hinv); [done..|]. apply Hass.
Qed.

Lemma NoDup_fst_split_inj {A B} (l1 l2 k1 k2 : list (A * B)) e :
  NoDup (l1 ++ e :: k1).*1 → l1 ++ e :: k1 = l2 ++ e :: k2 → l1 = l2.
Proof.
  revert l2. induction l1 as [|a l1 IH]; intros [|b l2] Hnd Heq; simpl in *.
  - done.
  - injection Heq as -> ->. apply NoDup_cons in Hnd as [Hnot _].
    destruct Hnot. apply list_elem_of_fmap. exists b. split; [done|].
    apply elem_of_app. right. apply list_elem_of_here.
  - injection Heq as -> <-. apply NoDup_cons in Hnd as [Hnot _].
    destruct Hnot. apply list_elem_of_fmap. exists e. split; [done|].
    apply elem_of_app. right. apply list_elem_of_here.
  - injection Heq as -> Heq. f_equal. apply IH; [|done].
    by apply NoDup_cons in Hnd as [_ ?].
Qed.

(** X14.  The custom placement constructor honours an entry [(c, id)] of
    the placement whose position is valid, whose id is below the device
    count, and whose id no entry before it in iteration order asks for:
    the constructed mesh has [id] at [c] in both tables. *)
Theorem placement_entry_honoured (W H : Z) (E : gset Coord)
    (placement pre suf : list (Coord * Z)) (m : SparseMesh2D.t)
    (c : Coord) (id : Z) :
  NoDup placement.*1 →
  SparseMesh2D.new_placed W H E placement = Some m →
  placement = pre ++ (c, id) :: suf →
  id ∉ pre.*2 →
  valid_pos W H E c →
  0 ≤ id < SparseMesh2D.calculate_valid_npu_count W H E →
  SparseMesh2D.get_npu_at m c.1 c.2 = Some id
  ∧ SparseMesh2D.get_coords m id = Some c.
Proof.
  intros Hnd Hm Hsplit Hfirst Hc Hid.
  unfold SparseMesh2D.new_placed in Hm. case_bool_decide as Hpos; [|done].
  pose proof (calculate_valid_npu_count_cells W H E ltac:(lia) ltac:(lia))
    as Hvc.
  set (vc := SparseMesh2D.calculate_valid_npu_count W H E) in *.
  pose proof (valid_pos_in_grid _ _ _ _ Hc) as Hin.
  destruct (for_each_invariant
              (λ pre s, place_inv W H E vc pre s
                        ∧ (∀ v, v ∈ SparseMesh2D.pl_used s → v ∈ pre.*2)
                        ∧ ((c, id) ∈ pre →
                           assigned W (SparseMesh2D.pl_grid s)
                             (SparseMesh2D.pl_rev s) c id))
              placement (SparseMesh2D.place_body W H E vc)
              (SparseMesh2D.mk_pl (replicate (Z.to_nat (W * H)) (-1))
                 (replicate (Z.to_nat vc) (0, 0)) ∅))
    as (pl & Hpl & (Hplinv & _) & _ & Hass).
  { split_and!; simpl.
    - split; simpl; [apply assign_inv_init; lia|].
      intros c' Hc' _. apply vec_get_replicate.
      pose proof (grid_index_range W H c' Hc'). lia.
    - intros v Hv. by apply not_elem_of_empty in Hv.
    - intros Hin'. by apply not_elem_of_nil in Hin'. }
  { intros pre' a suf' s Hpl (Hinv & Hused & Hass).
    destruct (place_inv_step W H E vc placement pre' a suf' s Hnd Hpl Hinv)
      as (s' & Hs' & Hinv').
    exists s'. split; [done|]. split; [done|]. split.
    - intros v Hv. rewrite fmap_app, elem_of_app.
      destruct a as [[x y] aid]. unfold SparseMesh2D.place_body in Hs'.
      repeat (case_bool_decide; [simplify_eq; left; by apply Hused|]).
      destruct (vec_set (SparseMesh2D.pl_grid s) _ _); [|done].
      simpl in Hs'.
      destruct (vec_set (SparseMesh2D.pl_rev s) _ _); [|done].
      simpl in Hs'. injection Hs' as <-. simpl in Hv.
      apply elem_of_union in Hv as [->%elem_of_singleton|Hv];
        [right; simpl; apply list_elem_of_here|left; by apply Hused].
    - intros [Hin'|Heq%list_elem_of_singleton]%elem_of_app.
      + apply (place_step_assigned W H E vc placement pre' a suf' s s' c id);
          [done..|lia|by apply Hass].
      + subst a. assert (id ∉ SparseMesh2D.pl_used s) as Hfresh.
        { intros Hu%Hused. apply Hfirst.
          rewrite Hsplit in Hpl. rewrite Hsplit in Hnd.
          by rewrite (NoDup_fst_split_inj pre pre' suf suf' (c, id) Hnd Hpl). }
        destruct c as [x y]. unfold SparseMesh2D.place_body in Hs'.
        destruct Hc as (? & ? & ?). simpl in *.
        rewrite bool_decide_false in Hs' by lia.
        rewrite bool_decide_false in Hs' by tauto.
        rewrite bool_decide_false in Hs' by lia.
        rewrite bool_decide_false in Hs' by done.
        destruct Hinv as [(Hglen & Hrlen & _) _].
        pose proof (grid_index_range W H (x, y) Hin) as Hidx. simpl in Hidx.
        rewrite vec_set_Some in Hs' by lia. simpl in Hs'.
        rewrite vec_set_Some in Hs' by lia. simpl in Hs'.
        injection Hs' as <-. split; simpl.
        * rewrite vec_get_insert_eq by lia. done.
        * rewrite vec_get_insert_eq by lia. done. }
  rewrite Hpl in Hm. simpl in Hm.
  assert ((c, id) ∈ placement) as Hmem.
  { rewrite Hsplit. apply elem_of_app. right. apply list_elem_of_here. }
  specialize (Hass Hmem).
  assert (∀ fl,
            (if bool_decide (Z.of_nat (size (SparseMesh2D.pl_used pl)) ≠ vc)
             then for_grid W H (SparseMesh2D.fill_body W E)
                    (SparseMesh2D.mk_fl (SparseMesh2D.pl_grid pl)
                       (SparseMesh2D.pl_rev pl) (SparseMesh2D.pl_used pl) 0)
             else Some (SparseMesh2D.mk_fl (SparseMesh2D.pl_grid pl)
                          (SparseMesh2D.pl_rev pl) (SparseMesh2D.pl_used pl) 0))
            = Some fl →
            assigned W (SparseMesh2D.fl_grid fl) (SparseMesh2D.fl_rev fl) c id)
    as Hfill.
  { intros fl. case_bool_decide; [|by intros [= <-]].
    rewrite for_grid_cells.
    destruct (for_each_invariant
              (λ pre s, (fill_inv W H E vc pre s ∧ 0 ≤ SparseMesh2D.fl_next s)
                        ∧ assigned W (SparseMesh2D.fl_grid s)
                            (SparseMesh2D.fl_rev s) c id)
              (grid_cells W H)
              (λ c s, SparseMesh2D.fill_body W E c.1 c.2 s)
              (SparseMesh2D.mk_fl (SparseMesh2D.pl_grid pl)
                 (SparseMesh2D.pl_rev pl) (SparseMesh2D.pl_used pl) 0))
      as (s & Hs & _ & Hfinal).
    - split; [|done]. split; [|done]. split_and!; simpl; [done| |intros; lia].
      intros c' Hc'. by apply not_elem_of_nil in Hc'.
    - intros pre' a suf' s Hcells [[Hfillinv Hnext] Hass'].
      destruct (fill_inv_step W H E vc pre' a suf' s Hvc Hcells Hfillinv Hnext)
        as (s' & Hs' & ? & ?).
      exists s'. split; [done|]. split; [done|].
      apply (fill_step_assigned W H E vc a s s' c id); try done.
      + apply Hfillinv.
      + apply elem_of_grid_cells'. rewrite Hcells.
        apply elem_of_app. right. apply list_elem_of_here.
      + lia.
    - rewrite Hs. by intros [= <-]. }
  match type of Hm with
  | (?o ≫= _) = _ => destruct o as [fl|] eqn:Hfl; [|done]
  end.
  specialize (Hfill fl eq_refl) as [Hg Hr]. simpl in Hm.
  destruct (SparseMesh2D.create_links W H _) as [ls|]; [|done].
  simpl in Hm. injection Hm as <-. split.
  - rewrite get_npu_at_in_grid by done. done.
  - unfold SparseMesh2D.get_coords. simpl. rewrite bool_decide_true by lia.
    done.
Qed.

Lemma placement_entry_honoured_witness :
  SparseMesh2D.get_npu_at mesh_6x4_placed (5, 3).1 (5, 3).2 = Some 0
  ∧ SparseMesh2D.get_coords mesh_6x4_placed 0 = Some (5, 3).
Proof.
  apply (placement_entry_honoured 6 4 excluded_6x4 placement_6x4
           [((0, 0), 3); ((1, 0), 3); ((2, 0), 99); ((0, 1), 2); ((7, 0), 1)]
           [] mesh_6x4_placed (5, 3) 0).
  - compute_done.
  - by vm_compute.
  - done.
  - compute_done.
  - split_and!; [simpl; lia..|compute_done].
  - by vm_compute.
Defined.

(** ** The topology selector and the sparse mesh *)

(** X15.  For a one-dimensional request whose topology tag is the sparse
    mesh, the selector builds the [mesh_width] x [mesh_height] sparse mesh
    when both are positive, through the custom placement constructor when
    the placement is not empty and through the automatic one otherwise,
    whatever the flat device count says; when a dimension is not positive
    it exits with status -1. *)
Theorem construct_topology_sparse (np : Helper.NetworkParser) (n : Z) :
  Helper.get_dims_count np = 1 →
  vec_get (Helper.get_topologies_per_dim np) 0
    = Some TopologyBuildingBlock.SparseMesh2D →
  vec_get (Helper.get_npus_counts_per_dim np) 0 = Some n →
  NoDup (Helper.get_npu_placement np).*1 →
  let w := Helper.get_mesh_width np in
  let h := Helper.get_mesh_height np in
  let E := Helper.get_excluded_coords np in
  let P := Helper.get_npu_placement np in
  (w > 0 ∧ h > 0 →
     ∃ m, Helper.construct_topology np
            = Helper.Returns (Helper.SparseMesh2DTopology m)
        ∧ Sparse.constructed m
        ∧ SparseMesh2D.width m = w ∧ SparseMesh2D.height m = h
        ∧ SparseMesh2D.excluded m = E
        ∧ SparseMesh2D.npus_count m
          = SparseMesh2D.calculate_valid_npu_count w h E
        ∧ (P = [] → SparseMesh2D.new w h E = Some m)
        ∧ (P ≠ [] → SparseMesh2D.new_placed w h E P = Some m))
  ∧ (¬ (w > 0 ∧ h > 0) → Helper.construct_topology np = Helper.Exits (-1)).
Proof.
  intros Hdims Htopo Hnpus Hnd w h E P.
  unfold Helper.construct_topology. rewrite Hdims, Htopo, Hnpus.
  rewrite bool_decide_false by (intros ?; done). fold w h E P. split.
  - intros Hwh. rewrite bool_decide_true by done. case_bool_decide as HP.
    + destruct (new_placed_tables_ok w h E P)
        as (m & Hm & ? & ? & ? & ? & _); [lia..|done|].
      exists m. rewrite Hm. split_and!; try done.
      right. by exists w, h, E, P.
    + destruct (new_tables_ok w h E) as (m & Hm & ? & ? & ? & _ & ? & _);
        [lia..|].
      exists m. rewrite Hm. split_and!; try done.
      left. by exists w, h, E.
  - intros Hwh. by rewrite bool_decide_false by done.
Qed.

Lemma construct_topology_sparse_witness :
  (6 > 0 ∧ 4 > 0 →
     ∃ m, Helper.construct_topology parser_sparse_6x4
            = Helper.Returns (Helper.SparseMesh2DTopology m)
        ∧ Sparse.constructed m
        ∧ SparseMesh2D.width m = 6 ∧ SparseMesh2D.height m = 4
        ∧ SparseMesh2D.excluded m = excluded_6x4
        ∧ SparseMesh2D.npus_count m
          = SparseMesh2D.calculate_valid_npu_count 6 4 excluded_6x4
        ∧ (placement_6x4 = [] →
           SparseMesh2D.new 6 4 excluded_6x4 = Some m)
        ∧ (placement_6x4 ≠ [] →
           SparseMesh2D.new_placed 6 4 excluded_6x4 placement_6x4 = Some m))
  ∧ (¬ (6 > 0 ∧ 4 > 0) →
     Helper.construct_topology parser_sparse_6x4 = Helper.Exits (-1)).
Proof.
  apply (construct_topology_sparse parser_sparse_6x4 64).
  - done.
  - done.
  - done.
  - compute_done.
Defined.

(** ** A sparse mesh without holes *)

Lemma bind_singleton_fmap {A B} (g : A → B) (l : list A) :
  (l ≫= λ a, [g a]) = g <$> l.
Proof. induction l as [|a l IH]; [done|]. rewrite bind_cons, IH. done. Qed.

Lemma list_bind_bind {A B C} (g : A → list B) (f : B → list C) (l : list A) :
  (l ≫= g) ≫= f = l ≫= λ a, g a ≫= f.
Proof.
  induction l as [|a l IH]; [done|]. by rewrite !bind_cons, bind_app, IH.
Qed.

Lemma bind_grid_cells {B} W H (f : Coord → list B) :
  grid_cells W H ≫= f = y ← seqZ 0 H; x ← seqZ 0 W; f (x, y).
Proof.
  unfold grid_cells. rewrite list_bind_bind.
  apply list_bind_ext; [|done]. intros y. rewrite list_bind_bind.
  apply list_bind_ext; [|done]. intros x. rewrite bind_cons. simpl.
  by rewrite app_nil_r.
Qed.

(** The row-major scan meets the positions in the order of their grid
    index. *)
Lemma grid_index_grid_cells W (n : nat) :
  0 ≤ W →
  (λ c, SparseMesh2D.coords_to_grid_index W c.1 c.2)
    <$> grid_cells W (Z.of_nat n)
  = seqZ 0 (W * Z.of_nat n).
Proof.
  intros HW. induction n as [|n IH].
  - by rewrite Z.mul_0_r.
  - unfold grid_cells in *. rewrite seqZ_S, bind_app, fmap_app, IH.
    rewrite bind_cons. simpl. rewrite app_nil_r.
    rewrite bind_singleton_fmap, <- list_fmap_compose.
    replace (W * Z.of_nat (S n)) with (W * Z.of_nat n + W) by lia.
    rewrite seqZ_app by lia. f_equal.
    replace (0 + W * Z.of_nat n) with (W * Z.of_nat n + 0) by lia.
    rewrite <- (fmap_add_seqZ (W * Z.of_nat n) 0 W).
    apply list_fmap_ext. intros _ x _. simpl.
    unfold SparseMesh2D.coords_to_grid_index. simpl. lia.
Qed.

Lemma vec_get_grid_cells W H id c :
  0 ≤ W → 0 ≤ H →
  vec_get (grid_cells W H) id = Some c →
  SparseMesh2D.coords_to_grid_index W c.1 c.2 = id.
Proof.
  intros HW HH [Hid Hc]%vec_get_Some.
  pose proof (grid_index_grid_cells W (Z.to_nat H) HW) as Heq.
  rewrite Z2Nat.id in Heq by done.
  assert (((λ c, SparseMesh2D.coords_to_grid_index W c.1 c.2)
             <$> grid_cells W H) !! Z.to_nat id
          = Some (SparseMesh2D.coords_to_grid_index W c.1 c.2)) as Hl.
  { by rewrite list_lookup_fmap, Hc. }
  rewrite Heq in Hl. apply lookup_seqZ in Hl as [-> _]. lia.
Qed.

Lemma filter_all {A} (P : A → Prop) `{∀ a, Decision (P a)} (l : list A) :
  (∀ a, a ∈ l → P a) → filter P l = l.
Proof.
  induction l as [|a l IH]; intros Hall; [done|].
  rewrite filter_cons_True by (apply Hall, list_elem_of_here).
  f_equal. apply IH. intros b Hb. apply Hall. by apply list_elem_of_further.
Qed.

(** X16.  A sparse mesh built by the automatic constructor with no
    excluded coordinate inside the grid is the dense mesh of the same
    size: same device count, row-major ids, and the same link table in the
    same order. *)
Theorem sparse_without_holes_is_dense (W H : Z) (E : gset Coord)
    (ms : SparseMesh2D.t) (md : Mesh2D.t) :
  SparseMesh2D.new W H E = Some ms →
  Mesh2D.new W H = Some md →
  (∀ c, c ∈ E → ¬ in_grid W H c) →
  SparseMesh2D.npus_count ms = Mesh2D.npus_count md
  ∧ (∀ x y, 0 ≤ x < W → 0 ≤ y < H →
       SparseMesh2D.get_npu_at ms x y = Some (Mesh2D.coords_to_npu_id W x y))
  ∧ (∀ id, 0 ≤ id < W * H →
       SparseMesh2D.get_coords ms id = Some (Mesh2D.get_2d_coords W id))
  ∧ SparseMesh2D.links ms = Mesh2D.links md.
Proof.
  intros Hms Hmd Hnone.
  assert (0 < W ∧ 0 < H) as [HW HH].
  { unfold Mesh2D.new in Hmd. case_bool_decide; [lia|done]. }
  destruct (new_tables_ok W H E HW HH)
    as (m' & Hm' & Hw & Hh & He & Hrev & Hcount & Hok).
  assert (m' = ms) as -> by congruence.
  pose proof Hok as (_ & _ & Hglen & Hlen & Hn & _ & Hmem & _).
  assert (Sparse.constructed ms) as Hcons.
  { left. by exists W, H, E. }
  assert (valid_cells W H E = grid_cells W H) as Hcells.
  { unfold valid_cells. apply filter_all. intros c Hc%elem_of_grid_cells' HcE.
    by apply (Hnone c). }
  rewrite Hcells in Hrev.
  assert (SparseMesh2D.valid_npu_count ms = W * H) as Hvc.
  { rewrite <- Hlen, Hrev, length_grid_cells by lia. lia. }
  assert (∀ id, 0 ≤ id < W * H →
            SparseMesh2D.get_coords ms id = Some (id `mod` W, id `div` W))
    as Hcoords.
  { intros id Hid. rewrite get_coords_in_range by lia. rewrite Hrev.
    destruct (vec_get_is_Some (grid_cells W H) id) as [[x y] Hc].
    { rewrite length_grid_cells by lia. lia. }
    rewrite Hc. f_equal.
    pose proof (vec_get_elem_of _ _ _ Hc) as [? ?]%elem_of_grid_cells.
    apply vec_get_grid_cells in Hc; [|lia..].
    unfold SparseMesh2D.coords_to_grid_index in Hc. simpl in Hc.
    destruct (coords_id_mod_div W x y) as [Hmod Hdiv]; [lia..|].
    unfold Mesh2D.coords_to_npu_id in Hmod, Hdiv. rewrite Hc in Hmod, Hdiv.
    by rewrite Hmod, Hdiv. }
  assert (∀ x y, 0 ≤ x < W → 0 ≤ y < H →
            SparseMesh2D.get_npu_at ms x y
            = Some (Mesh2D.coords_to_npu_id W x y)) as Hat.
  { intros x y Hx Hy.
    pose proof (coords_id_range W H HW HH x y Hx Hy) as Hid.
    destruct (coords_id_mod_div W x y) as [Hmod Hdiv]; [lia..|].
    apply (get_coords_get_npu_at ms _ (x, y) Hok); [lia|].
    by rewrite Hcoords, Hmod, Hdiv. }
  split_and!.
  - destruct (mesh2d_new_Some W H HW HH) as (m' & Hm'' & _ & _ & Hcnt).
    assert (m' = md) as -> by congruence. rewrite Hcnt, Hn. done.
  - done.
  - intros id Hid. rewrite Hcoords by done. f_equal.
    by destruct (get_2d_coords_range W H HW id Hid) as [-> _].
  - rewrite (sparse_links_closed_form ms Hcons), Hw, Hh.
    unfold Mesh2D.new in Hmd. rewrite bool_decide_true in Hmd by lia.
    injection Hmd as <-. cbn [Mesh2D.links].
    rewrite create_links_closed_form. cbn [ls_links].
    trans (grid_cells W H ≫= λ c, link_pairs W H c.1 c.2);
      [|by rewrite bind_grid_cells].
    apply Forall_bind_ext, Forall_forall.
    intros [x y] [Hx Hy]%elem_of_grid_cells. simpl.
    assert (∀ x y, 0 ≤ x < W → 0 ≤ y < H →
              id_at W H (SparseMesh2D.grid_to_npu ms) x y
              = Mesh2D.coords_to_npu_id W x y) as Hid.
    { intros x' y' Hx' Hy'. specialize (Hat x' y' Hx' Hy').
      unfold SparseMesh2D.get_npu_at in Hat. rewrite Hw, Hh in Hat.
      unfold id_at. by rewrite Hat. }
    unfold sparse_link_pairs, link_pairs.
    rewrite (Hid x y) by done.
    pose proof (coords_id_range W H HW HH x y Hx Hy).
    rewrite bool_decide_false by lia. f_equal.
    + destruct (decide (x + 1 < W)) as [Hr|Hr].
      * rewrite (Hid (x + 1) y) by lia.
        pose proof (coords_id_range W H HW HH (x + 1) y ltac:(lia) Hy).
        by rewrite !bool_decide_true by lia.
      * by rewrite !bool_decide_false by lia.
    + destruct (decide (y + 1 < H)) as [Hb|Hb].
      * rewrite (Hid x (y + 1)) by lia.
        pose proof (coords_id_range W H HW HH x (y + 1) Hx ltac:(lia)).
        by rewrite !bool_decide_true by lia.
      * by rewrite !bool_decide_false by lia.
Qed.

Lemma sparse_without_holes_is_dense_witness :
  SparseMesh2D.npus_count (default no_mesh (SparseMesh2D.new 4 3 {[ (4, 0) ]}))
  = Mesh2D.npus_count (Mesh2D.mk 4 3 12 (ls_links (Mesh2D.create_links 4 3)))
  ∧ (∀ x y, 0 ≤ x < 4 → 0 ≤ y < 3 →
       SparseMesh2D.get_npu_at
         (default no_mesh (SparseMesh2D.new 4 3 {[ (4, 0) ]})) x y
       = Some (Mesh2D.coords_to_npu_id 4 x y))
  ∧ (∀ id, 0 ≤ id < 4 * 3 →
       SparseMesh2D.get_coords
         (default no_mesh (SparseMesh2D.new 4 3 {[ (4, 0) ]})) id
       = Some (Mesh2D.get_2d_coords 4 id))
  ∧ SparseMesh2D.links (default no_mesh (SparseMesh2D.new 4 3 {[ (4, 0) ]}))
    = Mesh2D.links (Mesh2D.mk 4 3 12 (ls_links (Mesh2D.create_links 4 3))).
Proof.
  apply (sparse_without_holes_is_dense 4 3 {[ (4, 0) ]}).
  - by vm_compute.
  - done.
  - intros c ->%elem_of_singleton [? ?]. simpl in *. lia.
Defined.

(** ** Mesh2D: the route is a shortest one *)

Lemma link_path_manhattan W H p a b :
  0 < W → 0 < H →
  consecutive (λ u v, (u, v) ∈ ls_links (Mesh2D.create_links W H)) p →
  head p = Some a → last p = Some b →
  Z.abs (b `mod` W - a `mod` W) + Z.abs (b `div` W - a `div` W)
  ≤ Z.of_nat (length p) - 1.
Proof.
  intros HW HH. revert a. induction p as [|u p IH]; intros a Hc Ha Hb; [done|].
  injection Ha as ->. destruct p as [|v p].
  - injection Hb as ->. simpl. lia.
  - destruct Hc as [Hav Hc]. apply mesh2d_links_adjacent in Hav; [|done..].
    rewrite last_cons_cons in Hb. specialize (IH v Hc eq_refl Hb).
    cbn [length] in *. lia.
Qed.

(** X17.  No list of devices that leads from [src] to [dest] along links
    of a dense mesh is shorter than the route from [src] to [dest]. *)
Theorem mesh2d_route_shortest W H :
  1 ≤ W → 1 ≤ H →
  ∃ m, Mesh2D.new W H = Some m ∧
    ∀ src dest r p,
      0 ≤ src < W * H → 0 ≤ dest < W * H →
      Mesh2D.route m src dest = Some r →
      head p = Some src → last p = Some dest →
      consecutive (λ a b, (a, b) ∈ Mesh2D.links m) p →
      (length r ≤ length p)%nat.
Proof.
  intros HW HH.
  destruct (mesh2d_new_Some W H) as (m & Hm & Hw & _ & Hc); [lia..|].
  exists m. split; [done|]. intros src dest r p Hs Hd Hr Hhead Hlast Hp.
  assert (Mesh2D.links m = ls_links (Mesh2D.create_links W H)) as Hlinks.
  { unfold Mesh2D.new in Hm. rewrite bool_decide_true in Hm by lia.
    by injection Hm as <-. }
  rewrite Hlinks in Hp.
  pose proof (link_path_manhattan W H p src dest ltac:(lia) ltac:(lia)
                Hp Hhead Hlast) as Hle.
  destruct (decide (src = dest)) as [<-|Hne].
  - rewrite (route_same W H m) in Hr by (done || lia). injection Hr as <-.
    destruct p; [done|simpl; lia].
  - rewrite (route_closed_form W H m) in Hr by (done || lia).
    injection Hr as <-. simpl.
    rewrite length_app, !length_fmap.
    pose proof (length_steps (src `mod` W) (dest `mod` W)).
    pose proof (length_steps (src `div` W) (dest `div` W)). lia.
Qed.

Lemma mesh2d_route_shortest_witness :
  ∃ m, Mesh2D.new 4 3 = Some m ∧
    ∀ src dest r p,
      0 ≤ src < 4 * 3 → 0 ≤ dest < 4 * 3 →
      Mesh2D.route m src dest = Some r →
      head p = Some src → last p = Some dest →
      consecutive (λ a b, (a, b) ∈ Mesh2D.links m) p →
      (length r ≤ length p)%nat.
Proof. apply (mesh2d_route_shortest 4 3); lia. Defined.

(** ** The search needs no more than [valid_npu_count + 1] rounds *)

Lemma bfs_path_mono fuel fuel' parent current path r :
  SparseMesh2D.bfs_path fuel parent current path = Some r →
  (fuel ≤ fuel')%nat →
  SparseMesh2D.bfs_path fuel' parent current path = Some r.
Proof.
  revert fuel' parent current path.
  induction fuel as [|fuel IH]; intros fuel' parent current path Hr Hle;
    [done|].
  destruct fuel' as [|fuel']; [lia|]. simpl in *.
  case_bool_decide; [|done].
  destruct (SparseMesh2D.map_index parent current) as [next parent'].
  apply IH; [done|lia].
Qed.

Lemma bfs_loop_mono fuel fuel' pfuel pfuel' m src dx dy s r :
  SparseMesh2D.bfs_loop fuel pfuel m src dx dy s = Some r →
  (fuel ≤ fuel')%nat → (pfuel ≤ pfuel')%nat →
  SparseMesh2D.bfs_loop fuel' pfuel' m src dx dy s = Some r.
Proof.
  revert fuel' s. induction fuel as [|fuel IH]; intros fuel' s Hr Hle Hple;
    [done|].
  destruct fuel' as [|fuel']; [lia|]. simpl in *.
  destruct (SparseMesh2D.bfs_q s) as [|[cx cy] q]; [done|].
  case_bool_decide.
  - destruct (SparseMesh2D.bfs_path pfuel _ _ _) as [path|] eqn:Hpath;
      [|done].
    by rewrite (bfs_path_mono pfuel pfuel' _ _ _ path Hpath Hple).
  - apply IH; [done|lia|done].
Qed.

Lemma sparse_route_mono fuel fuel' m src dest r :
  SparseMesh2D.route fuel m src dest = Some r → (fuel ≤ fuel')%nat →
  SparseMesh2D.route fuel' m src dest = Some r.
Proof.
  unfold SparseMesh2D.route, SparseMesh2D.bfs_route. intros Hr Hle.
  case_bool_decide; [|done]. case_bool_decide; [done|].
  destruct (SparseMesh2D.get_coords m src) as [[sx sy]|]; [|done].
  destruct (SparseMesh2D.get_coords m dest) as [[dx dy]|]; [|done].
  simpl in *.
  destruct (SparseMesh2D.bfs_loop fuel fuel _ _ _ _ _) as [r'|] eqn:Hloop;
    [|done].
  by rewrite (bfs_loop_mono fuel fuel' fuel fuel' _ _ _ _ _ r' Hloop Hle Hle).
Qed.

(** X18.  The loops of the breadth-first search end within
    [valid_npu_count + 1] rounds: any two bounds on the rounds above the
    device count give the same route. *)
Theorem sparse_route_rounds (m : SparseMesh2D.t) (fuel fuel' : nat)
    (src dest : Z) :
  Sparse.constructed m →
  0 ≤ src < SparseMesh2D.valid_npu_count m →
  0 ≤ dest < SparseMesh2D.valid_npu_count m →
  SparseMesh2D.valid_npu_count m < Z.of_nat fuel →
  SparseMesh2D.valid_npu_count m < Z.of_nat fuel' →
  is_Some (SparseMesh2D.route fuel m src dest)
  ∧ SparseMesh2D.route fuel m src dest = SparseMesh2D.route fuel' m src dest.
Proof.
  intros Hm Hsrc Hdest Hfuel Hfuel'.
  pose proof (constructed_tables_ok m Hm) as Hok.
  pose proof Hok as (_ & _ & _ & _ & Hn & _).
  assert (∀ k, SparseMesh2D.valid_npu_count m < Z.of_nat k →
               is_Some (SparseMesh2D.route k m src dest)) as Htotal.
  { intros k Hk. destruct (decide (src = dest)) as [<-|Hne].
    - unfold SparseMesh2D.route. rewrite !bool_decide_true by done.
      rewrite Hn. by rewrite device_Some.
    - destruct (Sparse.bij_backward m (tables_ok_bijection m Hok) src Hsrc)
        as (sx & sy & _ & Hcs & _).
      destruct (Sparse.bij_backward m (tables_ok_bijection m Hok) dest Hdest)
        as (dx & dy & _ & Hcd & _).
      destruct (sparse_route_spec m k src dest (sx, sy) (dx, dy))
        as (r & Hr & _); [done..|].
      by exists r. }
  split; [by apply Htotal|].
  destruct (Htotal (fuel `min` fuel')%nat ltac:(lia)) as [r Hr].
  rewrite (sparse_route_mono _ fuel _ _ _ _ Hr) by lia.
  by rewrite (sparse_route_mono _ fuel' _ _ _ _ Hr) by lia.
Qed.

Lemma sparse_route_rounds_witness :
  is_Some (SparseMesh2D.route 17 mesh_6x4 0 14)
  ∧ SparseMesh2D.route 17 mesh_6x4 0 14 = SparseMesh2D.route 40 mesh_6x4 0 14.
Proof.
  apply (sparse_route_rounds mesh_6x4 17 40 0 14).
  - left. exists 6, 4, excluded_6x4. by vm_compute.
  - by vm_compute.
  - by vm_compute.
  - by vm_compute.
  - by vm_compute.
Defined.

(** ** Where [route] is defined *)

(** X19.  [route] passes its assertions exactly on the ids of the
    topology: on a dense mesh and on a constructed sparse mesh it returns
    a route if and only if both ids lie in [[0, npus_count)]. *)
Theorem route_defined_iff :
  (∀ W H m src dest,
     Mesh2D.new W H = Some m →
     is_Some (Mesh2D.route m src dest) ↔
     0 ≤ src < Mesh2D.npus_count m ∧ 0 ≤ dest < Mesh2D.npus_count m)
  ∧ (∀ fuel m src dest,
       Sparse.constructed m →
       SparseMesh2D.valid_npu_count m < Z.of_nat fuel →
       is_Some (SparseMesh2D.route fuel m src dest) ↔
       0 ≤ src < SparseMesh2D.npus_count m
       ∧ 0 ≤ dest < SparseMesh2D.npus_count m).
Proof.
  split.
  - intros W H m src dest Hm.
    assert (0 < W ∧ 0 < H) as [HW HH].
    { unfold Mesh2D.new in Hm. case_bool_decide; [lia|done]. }
    destruct (mesh2d_new_Some W H HW HH) as (m' & Hm' & Hw & _ & Hc).
    assert (m' = m) as -> by congruence. split.
    + intros [r Hr]. unfold Mesh2D.route in Hr.
      case_bool_decide; [lia|done].
    + intros [Hs Hd]. rewrite Hc in Hs, Hd.
      destruct (decide (src = dest)) as [<-|Hne].
      * by rewrite (route_same W H m).
      * by rewrite (route_closed_form W H m).
  - intros fuel m src dest Hm Hfuel.
    pose proof (constructed_tables_ok m Hm) as Hok.
    pose proof Hok as (_ & _ & _ & _ & Hn & _). rewrite Hn. split.
    + intros [r Hr]. unfold SparseMesh2D.route in Hr.
      case_bool_decide; [lia|done].
    + intros [Hsrc Hdest]. destruct (decide (src = dest)) as [<-|Hne].
      * unfold SparseMesh2D.route. rewrite !bool_decide_true by done.
        rewrite Hn. by rewrite device_Some.
      * destruct (Sparse.bij_backward m (tables_ok_bijection m Hok) src Hsrc)
          as (sx & sy & _ & Hcs & _).
        destruct (Sparse.bij_backward m (tables_ok_bijection m Hok) dest Hdest)
          as (dx & dy & _ & Hcd & _).
        destruct (sparse_route_spec m fuel src dest (sx, sy) (dx, dy))
          as (r & Hr & _); [done..|].
        by exists r.
Qed.

(** ** SparseMesh2D: links and [are_adjacent] *)

(** X20.  Two devices of a constructed sparse mesh are linked exactly when
    [are_adjacent] holds of the positions that [get_coords] gives for
    them. *)
Theorem sparse_links_are_adjacent (m : SparseMesh2D.t) (a b : Z)
    (ca cb : Coord) :
  Sparse.constructed m →
  0 ≤ a < SparseMesh2D.valid_npu_count m →
  0 ≤ b < SparseMesh2D.valid_npu_count m →
  SparseMesh2D.get_coords m a = Some ca →
  SparseMesh2D.get_coords m b = Some cb →
  (a, b) ∈ SparseMesh2D.links m ↔
  SparseMesh2D.are_adjacent ca.1 ca.2 cb.1 cb.2 = true.
Proof.
  intros Hm Ha Hb Hca Hcb.
  pose proof (constructed_tables_ok m Hm) as Hok.
  pose proof (tables_ok_bijection m Hok) as Hbij.
  unfold SparseMesh2D.are_adjacent. rewrite bool_decide_eq_true.
  rewrite elem_of_sparse_links by done. split.
  - intros ([x y] & [x' y'] & Hc & Hc' & Hadj & Hia & Hib).
    destruct (Sparse.bij_forward m Hbij x y Hc) as (i & _ & Hi & Hci).
    destruct (Sparse.bij_forward m Hbij x' y' Hc') as (j & _ & Hj & Hcj).
    simpl in *. assert (i = a) as -> by congruence.
    assert (j = b) as -> by congruence.
    assert (ca = (x, y)) as -> by congruence.
    assert (cb = (x', y')) as -> by congruence. done.
  - intros Hadj.
    destruct (Sparse.bij_backward m Hbij a Ha) as (x & y & Hc & Hca' & _).
    destruct (Sparse.bij_backward m Hbij b Hb) as (x' & y' & Hc' & Hcb' & _).
    assert (ca = (x, y)) as -> by congruence.
    assert (cb = (x', y')) as -> by congruence.
    exists (x, y), (x', y'). split_and!; [done..| |].
    + by apply (get_coords_get_npu_at m a (x, y)).
    + by apply (get_coords_get_npu_at m b (x', y')).
Qed.

Lemma sparse_links_are_adjacent_witness :
  (0, 1) ∈ SparseMesh2D.links mesh_6x4 ↔
  SparseMesh2D.are_adjacent (0, 0).1 (0, 0).2 (1, 0).1 (1, 0).2 = true.
Proof.
  apply (sparse_links_are_adjacent mesh_6x4 0 1 (0, 0) (1, 0)).
  - left. exists 6, 4, excluded_6x4. by vm_compute.
  - by vm_compute.
  - by vm_compute.
  - by vm_compute.
  - by vm_compute.
Defined.

(** ** SparseMesh2D: the backfill of the custom placement *)

(** What one round of the backfill does. *)
Lemma fill_step_cases W H E vc a s s' :
  assign_inv W H E vc (SparseMesh2D.fl_grid s) (SparseMesh2D.fl_rev s)
    (SparseMesh2D.fl_used s) →
  in_grid W H a →
  SparseMesh2D.fill_body W E a.1 a.2 s = Some s' →
  (s' = s ∧ ¬ (valid_pos W H E a ∧ unassigned W (SparseMesh2D.fl_grid s) a))
  ∨ (unassigned W (SparseMesh2D.fl_grid s) a
     ∧ ∃ n, SparseMesh2D.fl_next s ≤ n ∧ (n ∉ SparseMesh2D.fl_used s)
            ∧ 0 ≤ n < Z.of_nat (length (SparseMesh2D.fl_rev s))
            ∧ SparseMesh2D.fl_grid s'
              = <[Z.to_nat (SparseMesh2D.coords_to_grid_index W a.1 a.2) := n]>
                  (SparseMesh2D.fl_grid s)
            ∧ SparseMesh2D.fl_rev s' = <[Z.to_nat n := a]> (SparseMesh2D.fl_rev s)
            ∧ SparseMesh2D.fl_next s' = n + 1).
Proof.
  intros Hinv Ha Hbody. destruct a as [x y].
  unfold SparseMesh2D.fill_body in Hbody. cbn [fst snd] in *.
  case_bool_decide as Hexcl.
  2:{ left. split; [by simplify_eq|]. by intros [(_ & _ & ?) _]. }
  destruct (vec_get (SparseMesh2D.fl_grid s) _) as [v|] eqn:Hv; [|done].
  simpl in Hbody. case_bool_decide as Hneg.
  2:{ left. split; [by simplify_eq|]. intros [_ Hun].
      unfold unassigned in Hun. simpl in Hun. rewrite Hv in Hun.
      injection Hun. lia. }
  right.
  assert (v = -1) as ->.
  { destruct Hinv as (_ & _ & Hused & Hfwd & _).
    destruct (Hfwd (x, y) Ha) as (v' & Hv' & [->|(Hin%Hused & _)]);
      simpl in Hv'; rewrite Hv in Hv'; injection Hv' as ->; [done|lia]. }
  split; [done|].
  destruct (next_unused_spec (SparseMesh2D.fl_used s)
              (SparseMesh2D.fl_next s)) as (Hle & Hfresh & _).
  destruct (vec_set (SparseMesh2D.fl_grid s) _ _) as [g|] eqn:Hg; [|done].
  simpl in Hbody.
  destruct (vec_set (SparseMesh2D.fl_rev s) _ _) as [r|] eqn:Hr; [|done].
  simpl in Hbody. injection Hbody as <-. simpl.
  unfold vec_set in Hg, Hr.
  case_bool_decide; [|done]. case_bool_decide; [|done].
  injection Hg as <-. injection Hr as <-.
  exists (SparseMesh2D.next_unused (SparseMesh2D.fl_used s)
            (SparseMesh2D.fl_next s)).
  split_and!; (done || lia).
Qed.

(** The scan meets a position of smaller grid index first. *)
Lemma grid_cells_before W H pre c2 suf c1 :
  0 ≤ W → 0 ≤ H →
  grid_cells W H = pre ++ c2 :: suf → in_grid W H c1 →
  SparseMesh2D.coords_to_grid_index W c1.1 c1.2
  < SparseMesh2D.coords_to_grid_index W c2.1 c2.2 →
  c1 ∈ pre.
Proof.
  intros HW HH Hcells Hc1 Hlt.
  assert (vec_get (grid_cells W H) (Z.of_nat (length pre)) = Some c2) as H2.
  { apply vec_get_Some. split; [lia|]. rewrite Nat2Z.id, Hcells.
    by rewrite list_lookup_middle. }
  apply vec_get_grid_cells in H2; [|done..].
  apply elem_of_grid_cells' in Hc1. rewrite Hcells in Hc1.
  apply elem_of_app in Hc1 as [?|Hin]; [done|].
  apply list_elem_of_lookup in Hin as [j Hj].
  assert (vec_get (grid_cells W H) (Z.of_nat (length pre + j)) = Some c1)
    as H1.
  { apply vec_get_Some. split; [lia|]. rewrite Nat2Z.id, Hcells.
    rewrite lookup_app_r by lia. by replace (length pre + j - length pre)%nat
      with j by lia. }
  apply vec_get_grid_cells in H1; [|done..]. lia.
Qed.

(** X21.  The custom placement constructor numbers the valid positions
    that are the key of no placement entry in the order of the row-major
    scan: of two such positions the one met first gets the smaller id. *)
Theorem backfill_in_scan_order (W H : Z) (E : gset Coord)
    (placement : list (Coord * Z)) (m : SparseMesh2D.t) (c1 c2 : Coord) :
  NoDup placement.*1 →
  SparseMesh2D.new_placed W H E placement = Some m →
  valid_pos W H E c1 → valid_pos W H E c2 →
  c1 ∉ placement.*1 → c2 ∉ placement.*1 →
  SparseMesh2D.coords_to_grid_index W c1.1 c1.2
  < SparseMesh2D.coords_to_grid_index W c2.1 c2.2 →
  ∃ i1 i2, SparseMesh2D.get_npu_at m c1.1 c1.2 = Some i1
           ∧ SparseMesh2D.get_npu_at m c2.1 c2.2 = Some i2
           ∧ 0 ≤ i1 < i2.
Proof.
  intros Hnd Hm Hc1 Hc2 Hk1 Hk2 Hlt.
  unfold SparseMesh2D.new_placed in Hm. case_bool_decide as Hpos; [|done].
  pose proof (calculate_valid_npu_count_cells W H E ltac:(lia) ltac:(lia))
    as Hvc.
  set (vc := SparseMesh2D.calculate_valid_npu_count W H E) in *.
  pose proof (valid_pos_in_grid _ _ _ _ Hc1) as Hin1.
  pose proof (valid_pos_in_grid _ _ _ _ Hc2) as Hin2.
  destruct (for_each_invariant (place_inv W H E vc) placement
              (SparseMesh2D.place_body W H E vc)
              (SparseMesh2D.mk_pl (replicate (Z.to_nat (W * H)) (-1))
                 (replicate (Z.to_nat vc) (0, 0)) ∅))
    as (pl & Hpl & Hplinv & Hun).
  { split; simpl; [apply assign_inv_init; lia|].
    intros c' Hc' _. apply vec_get_replicate.
    pose proof (grid_index_range W H c' Hc'). lia. }
  { intros pre a suf s Heq Hinv. by eapply place_inv_step. }
  rewrite Hpl in Hm. simpl in Hm.
  pose proof (Hun c1 Hin1 Hk1) as Hun1. pose proof (Hun c2 Hin2 Hk2) as Hun2.
  pose proof (used_size_lt W H E vc _ _ _ c1 Hplinv Hvc Hc1 Hun1) as Hsize.
  rewrite bool_decide_true in Hm by lia.
  rewrite for_grid_cells in Hm.
  destruct (for_each_invariant
              (λ pre s,
                 (fill_inv W H E vc pre s ∧ 0 ≤ SparseMesh2D.fl_next s)
                 ∧ (c1 ∉ pre → unassigned W (SparseMesh2D.fl_grid s) c1)
                 ∧ (c2 ∉ pre → unassigned W (SparseMesh2D.fl_grid s) c2)
                 ∧ (c1 ∈ pre →
                    ∃ i1, assigned W (SparseMesh2D.fl_grid s)
                            (SparseMesh2D.fl_rev s) c1 i1
                          ∧ 0 ≤ i1 < SparseMesh2D.fl_next s)
                 ∧ (c2 ∈ pre →
                    ∃ i1 i2, assigned W (SparseMesh2D.fl_grid s)
                               (SparseMesh2D.fl_rev s) c1 i1
                             ∧ assigned W (SparseMesh2D.fl_grid s)
                                 (SparseMesh2D.fl_rev s) c2 i2
                             ∧ 0 ≤ i1 < i2))
              (grid_cells W H)
              (λ c s, SparseMesh2D.fill_body W E c.1 c.2 s)
              (SparseMesh2D.mk_fl (SparseMesh2D.pl_grid pl)
                 (SparseMesh2D.pl_rev pl) (SparseMesh2D.pl_used pl) 0))
    as (fl & Hfl & _ & _ & _ & _ & Hfinal).
  { split_and!; simpl; try done.
    - split_and!; simpl; [done| |intros; lia].
      intros c' Hc'. by apply not_elem_of_nil in Hc'.
    - intros Hin. by apply not_elem_of_nil in Hin.
    - intros Hin. by apply not_elem_of_nil in Hin. }
  { intros pre a suf s Hcells ([Hfillinv Hnext] & Hu1 & Hu2 & Ha1 & Ha2).
    destruct (fill_inv_step W H E vc pre a suf s Hvc Hcells Hfillinv Hnext)
      as (s' & Hs' & Hfillinv' & Hnext').
    exists s'. split; [done|]. split; [done|].
    assert (in_grid W H a) as Ha.
    { apply elem_of_grid_cells'. rewrite Hcells.
      apply elem_of_app. right. apply list_elem_of_here. }
    pose proof Hfillinv as (Hinv & _ & _).
    destruct (fill_step_cases W H E vc a s s' Hinv Ha Hs')
      as [[-> Hskip]|(Huna & n & Hle & Hfresh & Hn & Hg & Hr & Hnx)].
    - assert (∀ c, valid_pos W H E c →
                (c ∉ pre → unassigned W (SparseMesh2D.fl_grid s) c) →
                c ∈ pre ++ [a] → c ∈ pre) as Hmem.
      { intros c Hc Hu [?| ->%list_elem_of_singleton]%elem_of_app; [done|].
        destruct (decide (a ∈ pre)) as [|Hnot]; [done|].
        destruct Hskip. split; [done|]. by apply Hu. }
      split_and!.
      + intros Hnot. apply Hu1. intros ?. apply Hnot, elem_of_app. by left.
      + intros Hnot. apply Hu2. intros ?. apply Hnot, elem_of_app. by left.
      + intros Hin. apply Ha1. by apply Hmem.
      + intros Hin. apply Ha2. by apply Hmem.
    - pose proof (grid_index_range W H a Ha) as Hidx.
      assert (∀ c, in_grid W H c → c ≠ a →
                unassigned W (SparseMesh2D.fl_grid s) c →
                unassigned W (SparseMesh2D.fl_grid s') c) as Hkeep.
      { intros c Hc Hne Hu. unfold unassigned. rewrite Hg.
        pose proof (grid_index_range W H c Hc).
        rewrite vec_get_insert_ne; [done|lia..|].
        intros Heq. apply Hne. symmetry. by apply (grid_index_inj W H). }
      assert (∀ c i, in_grid W H c → 0 ≤ i →
                assigned W (SparseMesh2D.fl_grid s) (SparseMesh2D.fl_rev s) c i →
                assigned W (SparseMesh2D.fl_grid s') (SparseMesh2D.fl_rev s')
                  c i) as Hstable.
      { intros c i Hc Hi Hass. rewrite Hg, Hr.
        apply (assigned_insert W H _ _ c i a n (-1)); [done..|lia| |done|lia].
        intros ->. apply Hfresh.
        apply (assign_inv_used W H E vc _ _ _ c i Hinv); [done..|].
        apply Hass. }
      assert (assigned W (SparseMesh2D.fl_grid s') (SparseMesh2D.fl_rev s')
                a n) as Hnew.
      { pose proof Hinv as (Hglen & _). rewrite Hg, Hr. split.
        - rewrite vec_get_insert_eq by lia. done.
        - rewrite vec_get_insert_eq by lia. done. }
      split_and!.
      + intros Hnot. apply Hkeep; [done| |].
        * intros ->. apply Hnot, elem_of_app. right. apply list_elem_of_here.
        * apply Hu1. intros ?. apply Hnot, elem_of_app. by left.
      + intros Hnot. apply Hkeep; [done| |].
        * intros ->. apply Hnot, elem_of_app. right. apply list_elem_of_here.
        * apply Hu2. intros ?. apply Hnot, elem_of_app. by left.
      + intros Hin. destruct (decide (c1 ∈ pre)) as [Hpre|Hnpre].
        * destruct (Ha1 Hpre) as (i1 & Hass & Hi1). exists i1.
          split; [apply Hstable; [done|lia|done]|lia].
        * apply elem_of_app in Hin as [?| ->%list_elem_of_singleton]; [done|].
          exists n. split; [done|lia].
      + intros Hin. destruct (decide (c2 ∈ pre)) as [Hpre|Hnpre].
        * destruct (Ha2 Hpre) as (i1 & i2 & Hass1 & Hass2 & Hi).
          exists i1, i2.
          split_and!; [apply Hstable; [done|lia|done]
                      |apply Hstable; [done|lia|done]|lia..].
        * apply elem_of_app in Hin as [?| ->%list_elem_of_singleton]; [done|].
          assert (c1 ∈ pre) as Hpre1.
          { apply (grid_cells_before W H pre a suf c1); (done || lia). }
          destruct (Ha1 Hpre1) as (i1 & Hass & Hi1). exists i1, n.
          split_and!; [apply Hstable; [done|lia|done]|done|lia..]. }
  rewrite Hfl in Hm. simpl in Hm.
  destruct (SparseMesh2D.create_links W H _) as [ls|]; [|done].
  simpl in Hm. injection Hm as <-.
  destruct Hfinal as (i1 & i2 & [Hg1 _] & [Hg2 _] & Hi).
  { by apply elem_of_grid_cells'. }
  exists i1, i2. rewrite !get_npu_at_in_grid by done. done.
Qed.

Lemma backfill_in_scan_order_witness :
  ∃ i1 i2, SparseMesh2D.get_npu_at mesh_6x4_placed (3, 0).1 (3, 0).2 = Some i1
           ∧ SparseMesh2D.get_npu_at mesh_6x4_placed (2, 2).1 (2, 2).2
             = Some i2
           ∧ 0 ≤ i1 < i2.
Proof.
  apply (backfill_in_scan_order 6 4 excluded_6x4 placement_6x4
           mesh_6x4_placed (3, 0) (2, 2)).
  - compute_done.
  - by vm_compute.
  - split_and!; [simpl; lia..|compute_done].
  - split_and!; [simpl; lia..|compute_done].
  - compute_done.
  - compute_done.
  - by vm_compute.
Defined.

(** X22.  The custom placement constructor skips a placement entry whose
    position is outside the grid or excluded, or whose id is outside
    [[0, valid_npu_count)]: the mesh is the one built without the
    entry. *)
Theorem placement_invalid_entry_skipped (W H : Z) (E : gset Coord)
    (pre suf : list (Coord * Z)) (c : Coord) (id : Z) :
  ¬ valid_pos W H E c
  ∨ ¬ 0 ≤ id < SparseMesh2D.calculate_valid_npu_count W H E →
  SparseMesh2D.new_placed W H E (pre ++ (c, id) :: suf)
  = SparseMesh2D.new_placed W H E (pre ++ suf).
Proof.
  intros Hbad. unfold SparseMesh2D.new_placed.
  case_bool_decide; [|done]. rewrite !for_each_app. cbn [for_each].
  assert (∀ s, SparseMesh2D.place_body W H E
                 (SparseMesh2D.calculate_valid_npu_count W H E) (c, id) s
               = Some s) as Hskip.
  { intros s. destruct c as [x y]. unfold SparseMesh2D.place_body.
    unfold valid_pos in Hbad. simpl in Hbad.
    repeat (case_bool_decide; [done|]). exfalso.
    destruct Hbad as [Hbad|Hbad]; apply Hbad; [split_and!|]; (lia || tauto). }
  destruct (for_each pre _ _) as [s|]; [|done]. cbn [mbind option_bind].
  by rewrite Hskip.
Qed.

Lemma placement_invalid_entry_skipped_witness :
  SparseMesh2D.new_placed 6 4 excluded_6x4
    ([((0, 0), 3); ((1, 0), 3)] ++ ((2, 0), 99)
       :: [((0, 1), 2); ((7, 0), 1); ((5, 3), 0)])
  = SparseMesh2D.new_placed 6 4 excluded_6x4
      ([((0, 0), 3); ((1, 0), 3)] ++ [((0, 1), 2); ((7, 0), 1); ((5, 3), 0)]).
Proof.
  apply (placement_invalid_entry_skipped 6 4 excluded_6x4).
  right. vm_compute. by intros [_ Hlt].
Defined.
